(** * nova: the sweep-line intersection driver and the generic ordering helpers

    A shallow embedding of [src/isect/sweep.ts] (the Bentley-Ottmann driver)
    and of [src/abstract/comparable.ts] (the comparison helpers), with the
    properties of the specification stated and proved over it.

    JavaScript numbers are modelled as exact rationals ([Q]): the driver only
    subtracts, compares and takes absolute values, and none of the properties
    below depends on rounding.  Objects live in a heap and are named by
    locations, so that two references to one object stay two references to
    one object. *)

From Stdlib Require Import QArith Qabs Lqa String.
From stdpp Require Import base option list.

Local Open Scope string_scope.

(* ====================================================================== *)
(** ** [src/abstract/comparable.ts] *)
(* ====================================================================== *)

Module Comparable.

(** A JavaScript number. *)
Inductive Number :=
| Finite (q : Q)
| NaN
| PosInf
| NegInf.

(** The primitive values of the language. *)
Inductive Prim :=
| PUndefined
| PNull
| PBool (b : bool)
| PNum (n : Number)
| PBigInt (z : Z)
| PStr (s : string)
| PSymbol (id : nat).

(** The operands the generic helpers receive: [T] is unconstrained in the
    source, so they are any value of the language, a primitive or an object.
    The type [Obj] of objects is left to the client, as are its methods. *)
Inductive Value (Obj : Type) :=
| VPrim (p : Prim)
| VObj (o : Obj).
Arguments VPrim {Obj} p.
Arguments VObj {Obj} o.

Abbreviation VNum n := (VPrim (PNum n)).
Abbreviation VStr s := (VPrim (PStr s)).

(** What is thrown: the [TypeError] of the language, or whatever client code
    raises. *)
Inductive Exception :=
| TypeError
| Raised (what : string).

(** How an evaluation ends: with a value, or with an exception. *)
Inductive Completion (A : Type) :=
| Normal (a : A)
| Thrown (e : Exception).
Arguments Normal {A} a.
Arguments Thrown {A} e.

Definition andThen {A B} (m : Completion A) (k : A -> Completion B)
    : Completion B :=
  match m with
  | Normal a => k a
  | Thrown e => Thrown e
  end.

(** [a < b] on numbers; every comparison with [NaN] is false. *)
Definition num_lt (a b : Number) : bool :=
  match a, b with
  | NaN, _ | _, NaN => false
  | Finite p, Finite q => negb (Qle_bool q p)
  | Finite _, PosInf => true
  | Finite _, NegInf => false
  | PosInf, _ => false
  | NegInf, NegInf => false
  | NegInf, _ => true
  end.

Definition num_eq (a b : Number) : bool :=
  match a, b with
  | Finite p, Finite q => Qeq_bool p q
  | PosInf, PosInf | NegInf, NegInf => true
  | _, _ => false
  end.

Section Helpers.

Context {Obj : Type}.

(** The value of [o[NovaFlags.COMPARABLE]], as a truth value. *)
Variable comparableFlag : Obj -> bool.
(** The methods of the [Comparable] interface, which return a boolean; the
    optional ones are [None] when [typeof o.m] is not ["function"]. *)
Variable m_lessThan : Obj -> Value Obj -> bool.
Variable m_lessThanOrEqual : Obj -> option (Value Obj -> bool).
Variable m_greaterThan : Obj -> option (Value Obj -> bool).
Variable m_greaterThanOrEqual : Obj -> option (Value Obj -> bool).
(** [equality] of [./equatable], which is not among the sources. *)
Variable equality : Value Obj -> Value Obj -> bool.
(** The language's conversions: [ToPrimitive] of an object (hint number),
    which runs the object's [valueOf] or [toString] and throws when they
    yield no primitive; [ToNumber] and [StringToBigInt] of a string. *)
Variable toPrimitive : Obj -> Completion Prim.
Variable toNumber : string -> Number.
Variable toBigInt : string -> option Z.

(** [undefined] and [null], the values that have no properties. *)
Definition nullish (v : Value Obj) : bool :=
  match v with
  | VPrim PUndefined | VPrim PNull => true
  | _ => false
  end.

(** Whether [v] carries the capability flag: the other primitives do not. *)
Definition flag (v : Value Obj) : bool :=
  match v with
  | VObj o => comparableFlag o
  | VPrim _ => false
  end.

(** [v[NovaFlags.COMPARABLE]]: reading a property of [undefined] or of
    [null] throws a [TypeError]. *)
Definition readFlag (v : Value Obj) : Completion bool :=
  if nullish v then Thrown TypeError else Normal (flag v).

(** [lx[NovaFlags.COMPARABLE] && rx[NovaFlags.COMPARABLE]]: the flag of
    [rhs] is read only if [lhs] carries it. *)
Definition bothFlagged (lhs rhs : Value Obj) : Completion bool :=
  andThen (readFlag lhs) (fun l => if l then readFlag rhs else Normal false).

(** [typeof v.m === "function"] for an optional method [m]: a primitive has
    none. *)
Definition optional (m : Obj -> option (Value Obj -> bool)) (v : Value Obj)
    : option (Value Obj -> bool) :=
  match v with
  | VObj o => m o
  | VPrim _ => None
  end.

Definition prim (v : Value Obj) : Completion Prim :=
  match v with
  | VPrim p => Normal p
  | VObj o => toPrimitive o
  end.

(** [ToNumeric] of a primitive, which throws on a symbol.  A BigInt is kept
    as its mathematical value, by which it is compared. *)
Definition prim_num (p : Prim) : Completion Number :=
  match p with
  | PUndefined => Normal NaN
  | PNull => Normal (Finite 0)
  | PBool b => Normal (Finite (if b then 1 else 0))
  | PNum n => Normal n
  | PBigInt z => Normal (Finite (inject_Z z))
  | PStr s => Normal (toNumber s)
  | PSymbol _ => Thrown TypeError
  end.

(** A string that is compared with a BigInt is read as a BigInt; if it is
    none the comparison is false, as with [NaN]. *)
Definition big_num (s : string) : Number :=
  match toBigInt s with
  | Some z => Finite (inject_Z z)
  | None => NaN
  end.

(** The numbers as which two primitives that are not both strings are
    compared. *)
Definition numeric (p q : Prim) : Completion (Number * Number) :=
  match p, q with
  | PBigInt z, PStr s => Normal (Finite (inject_Z z), big_num s)
  | PStr s, PBigInt z => Normal (big_num s, Finite (inject_Z z))
  | _, _ =>
      andThen (prim_num p) (fun n =>
      andThen (prim_num q) (fun m => Normal (n, m)))
  end.

(** A comparison of the language: the operands are made primitive, the left
    one first; two strings are compared as strings, anything else as
    numbers. *)
Definition relational (onStrings : string -> string -> bool)
    (onNumbers : Number -> Number -> bool) (a b : Value Obj)
    : Completion bool :=
  andThen (prim a) (fun p =>
  andThen (prim b) (fun q =>
    match p, q with
    | PStr s, PStr t => Normal (onStrings s t)
    | _, _ =>
        andThen (numeric p q) (fun nm => Normal (onNumbers (fst nm) (snd nm)))
    end)).

(** The language's [a < b] and [a > b], which is [b < a] but for the order
    in which the operands are made primitive; [a <= b] and [a >= b] are the
    negations of the strict comparisons unless an operand is [NaN]. *)
Definition js_lt : Value Obj -> Value Obj -> Completion bool :=
  relational String.ltb num_lt.

Definition js_gt : Value Obj -> Value Obj -> Completion bool :=
  relational (fun s t => String.ltb t s) (fun n m => num_lt m n).

Definition js_le : Value Obj -> Value Obj -> Completion bool :=
  relational String.leb (fun n m => num_lt n m || num_eq n m).

Definition js_ge : Value Obj -> Value Obj -> Completion bool :=
  relational (fun s t => String.leb t s) (fun n m => num_lt m n || num_eq m n).

(** [lessThan], lines 24-36.  Calling [lessThan] on a value that has no such
    method throws. *)
Definition lessThan (lhs rhs : Value Obj) : Completion bool :=
  andThen (bothFlagged lhs rhs) (fun both =>
    if both then
      match lhs with
      | VObj o => Normal (m_lessThan o rhs)
      | VPrim _ => Thrown TypeError
      end
    else js_lt lhs rhs).

(** [lessThanOrEqual], lines 38-51. *)
Definition lessThanOrEqual (lhs rhs : Value Obj) : Completion bool :=
  andThen (bothFlagged lhs rhs) (fun both =>
    if both then
      match optional m_lessThanOrEqual lhs with
      | Some m => Normal (m rhs)
      | None =>
          andThen (lessThan lhs rhs) (fun lt => Normal (lt || equality lhs rhs))
      end
    else js_le lhs rhs).

(** [greaterThan], lines 53-66.  The fall-back compares [lhs] with itself. *)
Definition greaterThan (lhs rhs : Value Obj) : Completion bool :=
  andThen (bothFlagged lhs rhs) (fun both =>
    if both then
      match optional m_greaterThan lhs with
      | Some m => Normal (m rhs)
      | None => andThen (lessThanOrEqual lhs rhs) (fun le => Normal (negb le))
      end
    else js_gt lhs lhs).

(** [greaterThanOrEqual], lines 68-81. *)
Definition greaterThanOrEqual (lhs rhs : Value Obj) : Completion bool :=
  andThen (bothFlagged lhs rhs) (fun both =>
    if both then
      match optional m_greaterThanOrEqual lhs with
      | Some m => Normal (m rhs)
      | None => andThen (lessThan lhs rhs) (fun lt => Normal (negb lt))
      end
    else js_ge lhs rhs).

End Helpers.

End Comparable.

(* ====================================================================== *)
(** ** [src/isect/sweep.ts]: the data model *)
(* ====================================================================== *)

Module Sweep.

Local Open Scope list_scope.
Local Open Scope Q_scope.

(** A location names an object of the heap. *)
Definition loc := nat.

(** [{x, y}] *)
Record Point := mkPoint { x : Q; y : Q }.

(** [{from, to}] as the caller builds it; [dy], [dx] and [angle] are
    [undefined] until [addSegment] fills them in.  [from] and [to] are
    references to point objects. *)
Record Segment := mkSegment {
  from : loc;
  to : loc;
  dy : option Q;
  dx : option Q;
  seg_angle : option Q;
}.

(** An array element: the arrays of the driver hold segments, and the two
    arrays [addSegment] reports for an identical segment hold points. *)
Inductive Ref :=
| SegRef (s : loc)
| PointRef (p : loc).

(** Modelled from the spec: a sweep event ([./sweep-event] is not among the
    sources): a point, the optional list of the segments that start at it
    (the field [from] of the source, here [ev_from]) and the [isReported]
    flag. *)
Record SweepEvent := mkSweepEvent {
  point : loc;
  ev_from : option loc;
  isReported : bool;
}.

(** The heap: one store per sort of object.  Allocation appends, so a
    location is fresh when it is the length of its store. *)
Record Heap := mkHeap {
  points : list Point;
  segments : list Segment;
  arrays : list (list Ref);
  events : list SweepEvent;
}.

Definition set_points (f : list Point -> list Point) (h : Heap) : Heap :=
  mkHeap (f (points h)) (segments h) (arrays h) (events h).
Definition set_segments (f : list Segment -> list Segment) (h : Heap) : Heap :=
  mkHeap (points h) (f (segments h)) (arrays h) (events h).
Definition set_arrays (f : list (list Ref) -> list (list Ref)) (h : Heap) : Heap :=
  mkHeap (points h) (segments h) (f (arrays h)) (events h).
Definition set_events (f : list SweepEvent -> list SweepEvent) (h : Heap) : Heap :=
  mkHeap (points h) (segments h) (arrays h) (f (events h)).

(** [const EMPTY = []], line 36: allocated when the module is loaded, before
    any object of a caller, hence array 0 of every heap. *)
Definition EMPTY : loc := 0%nat.

Definition moduleHeap : Heap := mkHeap [] [] [[]] [].

(** One entry of [results]: [{point, segments}]. *)
Record ISectResult := mkResult {
  res_point : loc;
  res_segments : loc;
}.

(** What a thrown exception carries. *)
Inductive Exn :=
| TypeError
| Error (msg : string).

Inductive Res (A : Type) :=
| Ok (a : A)
| Throw (e : Exn).
Arguments Ok {A} a.
Arguments Throw {A} e.

(** *** The collaborators

    [./geom], [./create-event-queue] and [./sweep-status] are not among the
    sources.  The driver is written against their interfaces. *)

(** [import { intersectSegments, EPS, angle, samePoint } from "./geom"] *)
Class Geom := {
  EPS : Q;
  angle : Q -> Q -> Q;
  samePoint : Point -> Point -> bool;
  intersectSegments : Heap -> loc -> loc -> option Point;
}.

(** The event queue.  [find] returns a node, whose [data] is the event
    ([prev.data.from], line 283) and on which [findNewEvent] reads
    [isReported] (line 223). *)
Class EventQueue := {
  EQ : Type;
  Node : Type;
  createEventQueue : (Point -> Point -> Q) -> EQ;
  eq_isEmpty : EQ -> bool;
  eq_pop : Heap -> EQ -> option loc * EQ;
  eq_find : Heap -> loc -> EQ -> option Node;
  eq_insert : Heap -> loc -> EQ -> EQ;
  node_data : Node -> loc;
  node_isReported : Heap -> Node -> bool;
}.

(** What a call on the sweep status does: it ends with a new status and a
    value, or it first calls the injected [onError] with a message, the
    status being [s] at that moment, and goes on as [k] if the handler
    returns. *)
Inductive Outcome (S A : Type) :=
| Done (s : S) (a : A)
| Raise (msg : string) (s : S) (k : Outcome S A).
Arguments Done {S A} s a.
Arguments Raise {S A} msg s k.

Record LeftRight := mkLeftRight {
  left : option loc;
  right : option loc;
}.

Record Boundary := mkBoundary {
  beforeLeft : option loc;
  b_left : option loc;
  b_right : option loc;
  afterRight : option loc;
}.

(** The sweep status.  [findSegmentsWithPoint] yields the segments it calls
    the visitor on, in order; arrays are passed by reference. *)
Class SweepStatus := {
  SS : Type;
  createSweepStatus : Q -> SS;
  findSegmentsWithPoint : Heap -> loc -> SS -> Outcome SS (list loc);
  deleteSegments : Heap -> loc -> loc -> loc -> SS -> Outcome SS unit;
  insertSegments : Heap -> loc -> loc -> loc -> SS -> Outcome SS unit;
  getLeftRightPoint : Heap -> loc -> SS -> Outcome SS LeftRight;
  getBoundarySegments : Heap -> loc -> loc -> SS -> Outcome SS Boundary;
}.

(** The options of [isect]; a handler that is absent is [None].  A handler
    of the client works on a state of its own, of type [U]: [onFound] sees
    the heap, the point and the array of segments and answers whether to
    stop; [onError] sees the message. *)
Record ISectOptions (U : Type) := mkOptions {
  opt_onFound : option (Heap -> loc -> loc -> U -> U * bool);
  opt_onError : option (string -> U -> U);
}.
Arguments mkOptions {U} _ _.
Arguments opt_onFound {U} _.
Arguments opt_onError {U} _.

(** The calls the driver makes on its collaborators and on the handlers, in
    the order it makes them.  The log is an observation of the run and is
    read by no function of the driver. *)
Inductive Call :=
| CallOnFound (p segs : loc)
| CallOnError (msg : string)
| CallPop (e : option loc)
| CallFind (p : loc)
| CallInsert (e : loc)
| CallFindSegmentsWithPoint (p : loc)
| CallDeleteSegments (lower interior p : loc)
| CallInsertSegments (interior upper p : loc)
| CallGetLeftRightPoint (p : loc)
| CallGetBoundarySegments (upper interior : loc)
| CallIntersectSegments (l r : loc).

(** Comparisons of numbers as the source writes them. *)
Definition Qlt_bool (a b : Q) : bool := negb (Qle_bool b a).

Notation "a <? b" := (Qlt_bool a b) (at level 70, no associativity) : Q_scope.
Notation "a <=? b" := (Qle_bool a b) (at level 70, no associativity) : Q_scope.
Notation "a =? b" := (Qeq_bool a b) (at level 70, no associativity) : Q_scope.

(* ====================================================================== *)
(** ** [src/isect/sweep.ts]: the driver *)
(* ====================================================================== *)

Section Driver.

Context {geom : Geom} {queue : EventQueue} {status : SweepStatus}.

(** The state of the client's handlers, and the options [isect] is called
    with ([None]: no options). *)
Context {U : Type}.
Variable options : option (ISectOptions U).

(** The variables [isect] closes over (lines 51-57), the heap, the state of
    the handlers and the log of calls. *)
Record Driver := mkDriver {
  heap : Heap;
  results : list ISectResult;
  eventQueue : EQ;
  sweepStatus : SS;
  lower : option loc;
  interior : option loc;
  lastPoint : option loc;
  user : U;
  calls : list Call;
}.

Definition set_heap (f : Heap -> Heap) (d : Driver) : Driver :=
  mkDriver (f (heap d)) (results d) (eventQueue d) (sweepStatus d)
           (lower d) (interior d) (lastPoint d) (user d) (calls d).
Definition set_results (f : list ISectResult -> list ISectResult) (d : Driver) : Driver :=
  mkDriver (heap d) (f (results d)) (eventQueue d) (sweepStatus d)
           (lower d) (interior d) (lastPoint d) (user d) (calls d).
Definition set_eventQueue (q : EQ) (d : Driver) : Driver :=
  mkDriver (heap d) (results d) q (sweepStatus d)
           (lower d) (interior d) (lastPoint d) (user d) (calls d).
Definition set_sweepStatus (s : SS) (d : Driver) : Driver :=
  mkDriver (heap d) (results d) (eventQueue d) s
           (lower d) (interior d) (lastPoint d) (user d) (calls d).
Definition set_lower (v : option loc) (d : Driver) : Driver :=
  mkDriver (heap d) (results d) (eventQueue d) (sweepStatus d)
           v (interior d) (lastPoint d) (user d) (calls d).
Definition set_interior (v : option loc) (d : Driver) : Driver :=
  mkDriver (heap d) (results d) (eventQueue d) (sweepStatus d)
           (lower d) v (lastPoint d) (user d) (calls d).
Definition set_lastPoint (v : option loc) (d : Driver) : Driver :=
  mkDriver (heap d) (results d) (eventQueue d) (sweepStatus d)
           (lower d) (interior d) v (user d) (calls d).
Definition set_user (u : U) (d : Driver) : Driver :=
  mkDriver (heap d) (results d) (eventQueue d) (sweepStatus d)
           (lower d) (interior d) (lastPoint d) u (calls d).
Definition set_calls (f : list Call -> list Call) (d : Driver) : Driver :=
  mkDriver (heap d) (results d) (eventQueue d) (sweepStatus d)
           (lower d) (interior d) (lastPoint d) (user d) (f (calls d)).

(** *** The monad of the driver: state, and exceptions that keep the state *)

Definition M (A : Type) : Type := Driver -> Driver * Res A.

#[global] Instance M_ret : MRet M := fun A a d => (d, Ok a).
#[global] Instance M_bind : MBind M := fun A B f m d =>
  match m d with
  | (d', Ok a) => f a d'
  | (d', Throw e) => (d', Throw e)
  end.

Definition throw {A} (e : Exn) : M A := fun d => (d, Throw e).
Definition get : M Driver := fun d => (d, Ok d).
Definition modify (f : Driver -> Driver) : M unit := fun d => (f d, Ok tt).

(** Reading a field of [undefined] throws a [TypeError]. *)
Definition deref {A} (o : option A) : M A :=
  match o with
  | Some a => mret a
  | None => throw TypeError
  end.

Definition log (c : Call) : M unit := modify (set_calls (fun l => l ++ [c])).

(** [l.forEach(f)] *)
Fixpoint forEach {A} (f : A -> M unit) (l : list A) : M unit :=
  match l with
  | [] => mret tt
  | a :: l' => f a;; forEach f l'
  end.

(** *** Objects *)

Definition getPoint (p : loc) : M Point :=
  d ← get; deref (points (heap d) !! p).
Definition getSegment (s : loc) : M Segment :=
  d ← get; deref (segments (heap d) !! s).
Definition getArray (a : loc) : M (list Ref) :=
  d ← get; deref (arrays (heap d) !! a).
Definition getEvent (e : loc) : M SweepEvent :=
  d ← get; deref (events (heap d) !! e).

Definition setPoint (p : loc) (v : Point) : M unit :=
  getPoint p;; modify (set_heap (set_points (<[p := v]>))).
Definition setSegment (s : loc) (v : Segment) : M unit :=
  getSegment s;; modify (set_heap (set_segments (<[s := v]>))).
Definition setArray (a : loc) (v : list Ref) : M unit :=
  getArray a;; modify (set_heap (set_arrays (<[a := v]>))).
Definition setEvent (e : loc) (v : SweepEvent) : M unit :=
  getEvent e;; modify (set_heap (set_events (<[e := v]>))).

Definition allocPoint (v : Point) : M loc :=
  d ← get;
  modify (set_heap (set_points (fun l => l ++ [v])));;
  mret (length (points (heap d))).
Definition allocArray (v : list Ref) : M loc :=
  d ← get;
  modify (set_heap (set_arrays (fun l => l ++ [v])));;
  mret (length (arrays (heap d))).
Definition allocEvent (v : SweepEvent) : M loc :=
  d ← get;
  modify (set_heap (set_events (fun l => l ++ [v])));;
  mret (length (events (heap d))).

(** Modelled from the spec: [new SweepEvent(point, segment)]
    ([./sweep-event] is not among the sources): the event of [point], its
    list of starting segments holding [segment] when one is given. *)
Definition newSweepEvent (pt : loc) (segment : option loc) : M loc :=
  match segment with
  | Some s => a ← allocArray [SegRef s]; allocEvent (mkSweepEvent pt (Some a) false)
  | None => allocEvent (mkSweepEvent pt None false)
  end.

(** *** The handlers (lines 52-54, 238-243, 325-327) *)

(** [defaultIntersectionReporter]: pushes onto [results] and returns
    [undefined], which is not truthy. *)
Definition defaultIntersectionReporter (p : loc) (segs : loc) : M bool :=
  modify (set_results (fun l => l ++ [mkResult p segs]));;
  mret false.

Definition defaultErrorReporter (errorMessage : string) : M unit :=
  throw (Error errorMessage).

(** [reportIntersection = (options && options.onFound) ||
    defaultIntersectionReporter]; the value is the truth value of what the
    handler returns. *)
Definition reportIntersection (p : loc) (segs : loc) : M bool :=
  log (CallOnFound p segs);;
  match options ≫= opt_onFound with
  | Some f =>
      d ← get;
      let '(u, stop) := f (heap d) p segs (user d) in
      modify (set_user u);;
      mret stop
  | None => defaultIntersectionReporter p segs
  end.

(** [onError = (options && options.onError) || defaultErrorReporter] *)
Definition onError (msg : string) : M unit :=
  log (CallOnError msg);;
  match options ≫= opt_onError with
  | Some f => d ← get; modify (set_user (f msg (user d)))
  | None => defaultErrorReporter msg
  end.

(** *** Calls on the collaborators *)

Fixpoint runStatus {A} (o : Outcome SS A) : M A :=
  match o with
  | Done s a => modify (set_sweepStatus s);; mret a
  | Raise msg s k => modify (set_sweepStatus s);; onError msg;; runStatus k
  end.

Definition sweepStatus_findSegmentsWithPoint (p : loc) : M (list loc) :=
  log (CallFindSegmentsWithPoint p);;
  d ← get; runStatus (findSegmentsWithPoint (heap d) p (sweepStatus d)).
Definition sweepStatus_deleteSegments (l i p : loc) : M unit :=
  log (CallDeleteSegments l i p);;
  d ← get; runStatus (deleteSegments (heap d) l i p (sweepStatus d)).
Definition sweepStatus_insertSegments (i u p : loc) : M unit :=
  log (CallInsertSegments i u p);;
  d ← get; runStatus (insertSegments (heap d) i u p (sweepStatus d)).
Definition sweepStatus_getLeftRightPoint (p : loc) : M LeftRight :=
  log (CallGetLeftRightPoint p);;
  d ← get; runStatus (getLeftRightPoint (heap d) p (sweepStatus d)).
Definition sweepStatus_getBoundarySegments (u i : loc) : M Boundary :=
  log (CallGetBoundarySegments u i);;
  d ← get; runStatus (getBoundarySegments (heap d) u i (sweepStatus d)).

Definition eventQueue_isEmpty : M bool :=
  d ← get; mret (eq_isEmpty (eventQueue d)).
Definition eventQueue_pop : M (option loc) :=
  d ← get;
  let '(e, q) := eq_pop (heap d) (eventQueue d) in
  log (CallPop e);;
  modify (set_eventQueue q);;
  mret e.
Definition eventQueue_find (p : loc) : M (option Node) :=
  log (CallFind p);;
  d ← get; mret (eq_find (heap d) p (eventQueue d)).
Definition eventQueue_insert (e : loc) : M unit :=
  log (CallInsert e);;
  d ← get; modify (set_eventQueue (eq_insert (heap d) e (eventQueue d))).

(** *** The functions of the module (lines 320-348) *)

(** [roundNearZero], lines 320-323 *)
Definition roundNearZero (p : loc) : M unit :=
  pt ← getPoint p;
  (if Qabs (x pt) <? EPS then setPoint p (mkPoint 0 (y pt)) else mret tt);;
  pt ← getPoint p;
  (if Qabs (y pt) <? EPS then setPoint p (mkPoint (x pt) 0) else mret tt).

(** [union], lines 329-334; an array is truthy, also when it is empty, and
    [a.concat(b)] is a new array. *)
Definition union (a b : option loc) : M (option loc) :=
  match a with
  | None => mret b
  | Some la =>
      match b with
      | None => mret a
      | Some lb =>
          va ← getArray la;
          vb ← getArray lb;
          c ← allocArray (va ++ vb);
          mret (Some c)
      end
  end.

(** [byY], lines 336-348 *)
Definition byY (a b : Point) : Q :=
  let res := y b - y a in
  if Qabs res <? EPS then
    let res := x a - x b in
    if Qabs res <? EPS then 0 else res
  else res.

(** *** The functions of [isect] (lines 102-317) *)

(** [if (!lower) lower = [s]; else lower.push(s);] and the same for
    [interior]. *)
Definition pushOnto (get_ : Driver -> option loc)
    (set_ : option loc -> Driver -> Driver) (s : loc) : M unit :=
  d ← get;
  match get_ d with
  | None => a ← allocArray [SegRef s]; modify (set_ (Some a))
  | Some a => v ← getArray a; setArray a (v ++ [SegRef s])
  end.

(** [addLowerOrInterior], lines 185-193 *)
Definition addLowerOrInterior (s : loc) : M unit :=
  seg ← getSegment s;
  d ← get;
  lp ← deref (lastPoint d);
  pto ← getPoint (to seg);
  plast ← getPoint lp;
  if samePoint pto plast then pushOnto lower set_lower s
  else
    pfrom ← getPoint (from seg);
    if negb (samePoint pfrom plast) then pushOnto interior set_interior s
    else mret tt.

(** [findNewEvent], lines 195-236 *)
Definition findNewEvent (left right : option loc) (p : loc) : M unit :=
  match left, right with
  | Some l, Some r =>
      log (CallIntersectSegments l r);;
      d ← get;
      match intersectSegments (heap d) l r with
      | None => mret tt
      | Some v =>
          intersection ← allocPoint v;
          ev ← getEvent p;
          pp ← getPoint (point ev);
          ip ← getPoint intersection;
          let dy := y pp - y ip in
          if dy <? - EPS then mret tt
          else if (Qabs dy <? EPS) && (x ip <=? x pp) then mret tt
          else
            roundNearZero intersection;;
            current ← eventQueue_find intersection;
            match current with
            | Some n =>
                d ← get;
                if node_isReported (heap d) n
                then onError "We already reported this event."
                else mret tt
            | None =>
                event ← newSweepEvent intersection None;
                eventQueue_insert event
            end
      end
  | _, _ => mret tt
  end.

(** What lines 131-150 of [handleEventPoint] establish: the point, the
    three arrays and their lengths. *)
Record Classified := mkClassified {
  c_point : loc;
  c_upper : loc;
  c_interior : loc;
  c_lower : loc;
  uLength : nat;
  iLength : nat;
  lLength : nat;
}.

Definition hasIntersection (c : Classified) : bool :=
  (1 <? uLength c + iLength c + lLength c)%nat.

Definition hasPointIntersection (c : Classified) : bool :=
  negb (hasIntersection c)
  && (uLength c =? 0)%nat && (lLength c =? 0)%nat && (0 <? iLength c)%nat.

(** The condition of line 152 on the three counts. *)
Definition reportable (u i l : nat) : Prop :=
  (1 < u + i + l)%nat \/ (u = 0%nat /\ l = 0%nat /\ (0 < i)%nat).

(** [handleEventPoint], lines 131-147: the segments at the point. *)
Definition classify (p : loc) : M Classified :=
  ev ← getEvent p;
  modify (set_lastPoint (Some (point ev)));;
  let upper := default EMPTY (ev_from ev) in
  modify (set_lower None);;
  modify (set_interior None);;
  segs ← sweepStatus_findSegmentsWithPoint (point ev);
  forEach addLowerOrInterior segs;;
  d ← get;
  (if lower d is None then modify (set_lower (Some EMPTY)) else mret tt);;
  (if interior d is None then modify (set_interior (Some EMPTY)) else mret tt);;
  d ← get;
  lo ← deref (lower d);
  it ← deref (interior d);
  vu ← getArray upper;
  vi ← getArray it;
  vl ← getArray lo;
  mret (mkClassified (point ev) upper it lo (length vu) (length vi) (length vl)).

(** [handleEventPoint], lines 148-157: the report.  The value is [true]
    when the handler was called and what it returned is truthy, in which case
    [handleEventPoint] returns [true].  The union of two arrays is never
    [undefined]. *)
Definition report (p : loc) (c : Classified) : M bool :=
  if hasIntersection c || hasPointIntersection c then
    ev ← getEvent p;
    setEvent p (mkSweepEvent (point ev) (ev_from ev) true);;
    lu ← union (Some (c_lower c)) (Some (c_upper c));
    ilu ← union (Some (c_interior c)) lu;
    segs ← deref ilu;
    reportIntersection (c_point c) segs
  else mret false.

(** [handleEventPoint], lines 159-182: the update of the status and the
    probes.  [None] is [undefined]. *)
Definition updateAndProbe (p : loc) (c : Classified) : M (option bool) :=
  sweepStatus_deleteSegments (c_lower c) (c_interior c) (c_point c);;
  sweepStatus_insertSegments (c_interior c) (c_upper c) (c_point c);;
  let hasNoCrossing := (uLength c + iLength c =? 0)%nat in
  if hasNoCrossing then
    leftRight ← sweepStatus_getLeftRightPoint (c_point c);
    match left leftRight with
    | None => mret None
    | Some sLeft =>
        match right leftRight with
        | None => mret None
        | Some sRight =>
            findNewEvent (Some sLeft) (Some sRight) p;;
            mret (Some false)
        end
    end
  else
    boundarySegments ← sweepStatus_getBoundarySegments (c_upper c) (c_interior c);
    findNewEvent (beforeLeft boundarySegments) (b_left boundarySegments) p;;
    findNewEvent (b_right boundarySegments) (afterRight boundarySegments) p;;
    mret (Some false).

(** [handleEventPoint], lines 130-183 *)
Definition handleEventPoint (p : loc) : M (option bool) :=
  c ← classify p;
  stop ← report p c;
  if stop : bool then mret (Some true)
  else updateAndProbe p c.

(** [for (let i = 0; i < prevFrom.length; ++i) ...], lines 286-295: [true]
    when an identical segment was found and reported, in which case
    [addSegment] returns.  An element that is not a segment has no [to],
    and [samePoint] reads a field of [undefined]. *)
Fixpoint reportIdentical (prevFrom : list Ref) (to_ : loc) : M bool :=
  match prevFrom with
  | [] => mret false
  | SegRef s :: rest =>
      seg ← getSegment s;
      pa ← getPoint (to seg);
      pb ← getPoint to_;
      if samePoint pa pb then
        a1 ← allocArray [PointRef (from seg); PointRef (to seg)];
        reportIntersection (from seg) a1;;
        a2 ← allocArray [PointRef (from seg); PointRef (to seg)];
        reportIntersection (to seg) a2;;
        mret true
      else reportIdentical rest to_
  | PointRef _ :: _ => throw TypeError
  end.

(** What lines 246-276 of [addSegment] establish: the two endpoints in
    canonical order and whether the segment is a point. *)
Record Canonical := mkCanonical {
  k_from : loc;
  k_to : loc;
  isPoint : bool;
}.

(** [addSegment], lines 246-276 *)
Definition canonicalize (segment : loc) : M Canonical :=
  seg ← getSegment segment;
  let from_ := from seg in
  let to_ := to seg in
  roundNearZero from_;;
  roundNearZero to_;;
  pf ← getPoint from_;
  pt ← getPoint to_;
  let dy_ := y pf - y pt in
  (if Qabs dy_ <? (1 # 100000) then
     setPoint from_ (mkPoint (x pf) (y pt));;
     seg ← getSegment segment;
     setSegment segment (mkSegment (from seg) (to seg) (Some 0) (dx seg) (seg_angle seg))
   else mret tt);;
  pf ← getPoint from_;
  pt ← getPoint to_;
  '(from_, to_) ←
    (if (y pf <? y pt) || ((y pf =? y pt) && (x pt <? x pf)) then
       seg ← getSegment segment;
       setSegment segment (mkSegment to_ from_ (dy seg) (dx seg) (seg_angle seg));;
       mret (to_, from_)
     else mret (from_, to_));
  pf ← getPoint from_;
  pt ← getPoint to_;
  let dy_ := y pf - y pt in
  let dx_ := x pf - x pt in
  seg ← getSegment segment;
  setSegment segment
    (mkSegment (from seg) (to seg) (Some dy_) (Some dx_) (Some (angle dy_ dx_)));;
  mret (mkCanonical from_ to_ ((dy_ =? dx_) && (dy_ =? 0))).

(** [addSegment], lines 277-316 *)
Definition register (segment : loc) (k : Canonical) : M unit :=
  prev ← eventQueue_find (k_from k);
  found ←
    match prev with
    | Some n =>
        if negb (isPoint k) then
          ev ← getEvent (node_data n);
          match ev_from ev with
          | Some prevFrom => v ← getArray prevFrom; reportIdentical v (k_to k)
          | None => mret false
          end
        else mret false
    | None => mret false
    end;
  if found : bool then mret tt
  else if negb (isPoint k) then
    match prev with
    | Some n =>
        ev ← getEvent (node_data n);
        match ev_from ev with
        | Some a => v ← getArray a; setArray a (v ++ [SegRef segment])
        | None =>
            a ← allocArray [SegRef segment];
            setEvent (node_data n) (mkSweepEvent (point ev) (Some a) (isReported ev))
        end
    | None =>
        e ← newSweepEvent (k_from k) (Some segment);
        eventQueue_insert e
    end;;
    event ← newSweepEvent (k_to k) None;
    eventQueue_insert event
  else
    event ← newSweepEvent (k_to k) None;
    eventQueue_insert event.

(** [addSegment], lines 245-317 *)
Definition addSegment (segment : loc) : M unit :=
  k ← canonicalize segment; register segment k.

(** The state [isect] starts from, lines 51-57, and [isect] itself:
    [segments.forEach(addSegment)], line 59. *)
Definition newDriver (h : Heap) (u : U) : Driver :=
  mkDriver h [] (createEventQueue byY) (createSweepStatus EPS)
           None None None u [].

Definition isect (h : Heap) (segments_ : list loc) (u : U) : Driver * Res unit :=
  forEach addSegment segments_ (newDriver h u).

(** [const eventPoint = eventQueue.pop(); handleEventPoint(eventPoint)],
    lines 104-106 and 117-119.  A popped event that is [undefined] has no
    [point]. *)
Definition popAndHandle : M (option bool) :=
  eventPoint ← eventQueue_pop;
  p ← deref eventPoint;
  handleEventPoint p.

Definition truthy (v : option bool) : bool := default false v.

(** [run], lines 102-113: the loop, with [fuel] bounding the number of times
    its condition is evaluated ([None] when the bound is reached).  The value
    is [Some results], or [None] for [undefined]. *)
Fixpoint run (fuel : nat) (d : Driver)
    : option (Driver * Res (option (list ISectResult))) :=
  match fuel with
  | O => None
  | S fuel' =>
      if eq_isEmpty (eventQueue d) then Some (d, Ok (Some (results d)))
      else
        match popAndHandle d with
        | (d', Throw e) => Some (d', Throw e)
        | (d', Ok v) =>
            if truthy v then Some (d', Ok None)
            else run fuel' d'
        end
  end.

(** [step], lines 115-128 *)
Definition step : M bool :=
  d ← get;
  if negb (eq_isEmpty (eventQueue d)) then
    popAndHandle;;
    mret true
  else mret false.

(** The client's loop [while (driver.step()) {}]: calling [step] until it
    returns false, with [fuel] bounding the number of calls. *)
Fixpoint stepUntilFalse (fuel : nat) (d : Driver) : option (Driver * Res unit) :=
  match fuel with
  | O => None
  | S fuel' =>
      match step d with
      | (d', Throw e) => Some (d', Throw e)
      | (d', Ok false) => Some (d', Ok tt)
      | (d', Ok true) => stepUntilFalse fuel' d'
      end
  end.

End Driver.

End Sweep.

(* ====================================================================== *)
(** ** Reference collaborators *)
(* ====================================================================== *)

(** List-based collaborators, written after sections 4.1 to 4.3 of the
    specification.  The properties of the driver are proved for every
    implementation of the interfaces; these serve to run it. *)
Module Reference.

Import Sweep.
Local Open Scope list_scope.
Local Open Scope Q_scope.

Definition pointAt (h : Heap) (p : loc) : Point :=
  default (mkPoint 0 0) (points h !! p).

Definition segmentAt (h : Heap) (s : loc) : Segment :=
  default (mkSegment 0%nat 0%nat None None None) (segments h !! s).

Definition arrayAt (h : Heap) (a : loc) : list Ref :=
  default [] (arrays h !! a).

(** Modelled from the spec: the tolerance [EPS] of [./geom]; the
    specification fixes no value. *)
Definition ref_EPS : Q := 1 # 1000000000.

(** Modelled from the spec: [samePoint(a, b)]: true iff [|a.x-b.x| < EPS]
    and [|a.y-b.y| < EPS]. *)
Definition ref_samePoint (a b : Point) : bool :=
  (Qabs (x a - x b) <? ref_EPS) && (Qabs (y a - y b) <? ref_EPS).

(** Modelled from the spec: [angle(dy, dx)], an order key for directions
    that does not depend on the length. *)
Definition ref_angle (a b : Q) : Q :=
  let p := a / (Qabs a + Qabs b) in
  if b <? 0 then p - 1 else 1 - p.

(** Modelled from the spec: [intersectSegments(s1, s2)]: the point where the
    two segments meet, or nothing if they are parallel or do not meet. *)
Definition ref_intersectSegments (h : Heap) (l r : loc) : option Point :=
  let a := pointAt h (from (segmentAt h l)) in
  let b := pointAt h (to (segmentAt h l)) in
  let c := pointAt h (from (segmentAt h r)) in
  let d := pointAt h (to (segmentAt h r)) in
  let rx := x b - x a in
  let ry := y b - y a in
  let sx := x d - x c in
  let sy := y d - y c in
  let den := rx * sy - ry * sx in
  if den =? 0 then None
  else
    let t := ((x c - x a) * sy - (y c - y a) * sx) / den in
    let u := ((x c - x a) * ry - (y c - y a) * rx) / den in
    if (0 <=? t) && (t <=? 1) && (0 <=? u) && (u <=? 1)
    then Some (mkPoint (Qred (x a + t * rx)) (Qred (y a + t * ry)))
    else None.

(** Modelled from the spec: the geometry of [./geom], section 4.1. *)
#[global] Instance ref_geom : Geom := {|
  EPS := ref_EPS;
  angle := ref_angle;
  samePoint := ref_samePoint;
  intersectSegments := ref_intersectSegments;
|}.

(** Modelled from the spec: the event schedule, an ordered set of events
    keyed by their points under the comparator it is created with; [insert]
    on a point that has an event keeps that event, [pop] takes the first
    event, [find] yields the event of a point. *)
Record RefQueue := mkRefQueue {
  rq_cmp : Point -> Point -> Q;
  rq_items : list loc;
}.

Definition eventKey (h : Heap) (e : loc) : Point :=
  pointAt h (point (default (mkSweepEvent 0%nat None false) (events h !! e))).

Fixpoint insertSorted (cmp : Point -> Point -> Q) (h : Heap) (e : loc)
    (l : list loc) : list loc :=
  match l with
  | [] => [e]
  | e' :: l' =>
      let c := cmp (eventKey h e) (eventKey h e') in
      if c <? 0 then e :: l
      else if c =? 0 then l
      else e' :: insertSorted cmp h e l'
  end.

Definition ref_pop (h : Heap) (q : RefQueue) : option loc * RefQueue :=
  match rq_items q with
  | [] => (None, q)
  | e :: l => (Some e, mkRefQueue (rq_cmp q) l)
  end.

Definition ref_find (h : Heap) (p : loc) (q : RefQueue) : option loc :=
  List.find (fun e => rq_cmp q (pointAt h p) (eventKey h e) =? 0) (rq_items q).

(** Modelled from the spec: the event queue of [./create-event-queue],
    section 4.2.  A node is its event. *)
#[global] Instance ref_queue : EventQueue := {|
  EQ := RefQueue;
  Node := loc;
  createEventQueue cmp := mkRefQueue cmp [];
  eq_isEmpty q := if rq_items q is [] then true else false;
  eq_pop := ref_pop;
  eq_find := ref_find;
  eq_insert h e q := mkRefQueue (rq_cmp q) (insertSorted (rq_cmp q) h e (rq_items q));
  node_data n := n;
  node_isReported h n := isReported (default (mkSweepEvent 0%nat None false) (events h !! n));
|}.

(** Modelled from the spec: the sweep status, the segments that cross the
    sweep line, kept from left to right by their x at the sweep line, ties
    broken by direction. *)
Record RefStatus := mkRefStatus {
  rs_eps : Q;
  rs_segs : list loc;
}.

Definition segsOf (l : list Ref) : list loc :=
  omap (fun r => match r with SegRef s => Some s | PointRef _ => None end) l.

Definition memberOf (l : list loc) (s : loc) : bool := existsb (Nat.eqb s) l.

(** The x of segment [s] on the horizontal line through [p]; a horizontal
    segment offers its point nearest to [p]. *)
Definition xAt (h : Heap) (s : loc) (p : Point) : Q :=
  let a := pointAt h (from (segmentAt h s)) in
  let b := pointAt h (to (segmentAt h s)) in
  if y a =? y b then
    if x p <? x a then x a else if x b <? x p then x b else x p
  else x a + (y p - y a) * (x b - x a) / (y b - y a).

Definition isHorizontal (h : Heap) (s : loc) : bool :=
  y (pointAt h (from (segmentAt h s))) =? y (pointAt h (to (segmentAt h s))).

Definition passesThrough (eps : Q) (h : Heap) (p : Point) (s : loc) : bool :=
  (Qabs (xAt h s p - x p) <? eps)
  && (negb (isHorizontal h s)
      || (Qabs (y (pointAt h (from (segmentAt h s))) - y p) <? eps)).

(** How far [s] moves to the right per unit of descent; a horizontal segment
    lies to the right of every other one through the same point. *)
Definition drift (h : Heap) (s : loc) : option Q :=
  let a := pointAt h (from (segmentAt h s)) in
  let b := pointAt h (to (segmentAt h s)) in
  if y a =? y b then None else Some ((x b - x a) / (y a - y b)).

Definition leftOf (eps : Q) (h : Heap) (p : Point) (s s' : loc) : bool :=
  if Qabs (xAt h s p - xAt h s' p) <? eps then
    match drift h s, drift h s' with
    | Some u, Some v => u <? v
    | Some _, None => true
    | None, _ => false
    end
  else xAt h s p <? xAt h s' p.

Fixpoint insertOrdered (eps : Q) (h : Heap) (p : Point) (s : loc)
    (l : list loc) : list loc :=
  match l with
  | [] => [s]
  | s' :: l' =>
      if leftOf eps h p s s' then s :: l
      else s' :: insertOrdered eps h p s l'
  end.

Definition ref_findSegmentsWithPoint (h : Heap) (p : loc) (ss : RefStatus)
    : Outcome RefStatus (list loc) :=
  Done ss (List.filter (passesThrough (rs_eps ss) h (pointAt h p)) (rs_segs ss)).

Definition ref_deleteSegments (h : Heap) (lower_ interior_ p : loc) (ss : RefStatus)
    : Outcome RefStatus unit :=
  let gone := segsOf (arrayAt h lower_) ++ segsOf (arrayAt h interior_) in
  Done (mkRefStatus (rs_eps ss)
          (List.filter (fun s => negb (memberOf gone s)) (rs_segs ss))) tt.

Definition ref_insertSegments (h : Heap) (interior_ upper_ p : loc) (ss : RefStatus)
    : Outcome RefStatus unit :=
  let new := segsOf (arrayAt h interior_) ++ segsOf (arrayAt h upper_) in
  Done (mkRefStatus (rs_eps ss)
          (fold_left (fun l s => insertOrdered (rs_eps ss) h (pointAt h p) s l)
                     new (rs_segs ss))) tt.

Definition ref_getLeftRightPoint (h : Heap) (p : loc) (ss : RefStatus)
    : Outcome RefStatus LeftRight :=
  let q := pointAt h p in
  Done ss (mkLeftRight
             (last (List.filter (fun s => xAt h s q <? x q) (rs_segs ss)))
             (head (List.filter (fun s => x q <? xAt h s q) (rs_segs ss)))).

Fixpoint skipUntil (f : loc -> bool) (prev : option loc) (l : list loc)
    : option loc * list loc :=
  match l with
  | [] => (prev, [])
  | s :: l' => if f s then (prev, l) else skipUntil f (Some s) l'
  end.

Definition ref_getBoundarySegments (h : Heap) (upper_ interior_ : loc) (ss : RefStatus)
    : Outcome RefStatus Boundary :=
  let m := memberOf (segsOf (arrayAt h upper_) ++ segsOf (arrayAt h interior_)) in
  let '(before, l) := skipUntil m None (rs_segs ss) in
  let '(after, r) := skipUntil m None (rev (rs_segs ss)) in
  Done ss (mkBoundary before (head l) (head r) after).

(** Modelled from the spec: the sweep status of [./sweep-status], section
    4.3; it never calls [onError]. *)
#[global] Instance ref_status : SweepStatus := {|
  SS := RefStatus;
  createSweepStatus eps := mkRefStatus eps [];
  findSegmentsWithPoint := ref_findSegmentsWithPoint;
  deleteSegments := ref_deleteSegments;
  insertSegments := ref_insertSegments;
  getLeftRightPoint := ref_getLeftRightPoint;
  getBoundarySegments := ref_getBoundarySegments;
|}.

End Reference.

(* ====================================================================== *)
(** ** The vocabulary of the properties *)
(* ====================================================================== *)

Module Spec.

Import Sweep.
Local Open Scope list_scope.

(** The invocations of the intersection handler in a log of calls. *)
Definition foundCalls (l : list Call) : list (loc * loc) :=
  omap (fun c => match c with CallOnFound p s => Some (p, s) | _ => None end) l.

(** The insertions into the schedule in a log of calls. *)
Definition insertCalls (l : list Call) : list loc :=
  omap (fun c => match c with CallInsert e => Some e | _ => None end) l.

(** Forgetting the value [run] returns. *)
Definition outcomeOnly {A} (r : Res A) : Res unit :=
  match r with
  | Ok _ => Ok tt
  | Throw e => Throw e
  end.

Section Vocabulary.

Context {geom : Geom} {queue : EventQueue} {status : SweepStatus} {U : Type}.

Implicit Types d : Driver (U:=U).

(** What [roundNearZero] makes of a point. *)
Definition rounded (v : Point) : Point :=
  mkPoint (if Qabs (x v) <? EPS then 0 else x v)%Q
          (if Qabs (y v) <? EPS then 0 else y v)%Q.

(** The state in which [findNewEvent] looks the intersection [v] up: the
    call of [intersectSegments] is logged and the point is allocated and
    rounded. *)
Definition probed (l r : loc) (v : Point) d : Driver :=
  set_heap (set_points (fun ps => ps ++ [rounded v]))
    (set_calls (fun cs => cs ++ [CallIntersectSegments l r]) d).

(** The invariant of a segment [s] that has gone through [addSegment]: its
    derived fields are computed from its endpoints, and unless the endpoints
    are the same point, [from] is above [to], or as high and to its left. *)
Definition canonicalAt (h : Heap) (s : loc) : Prop :=
  exists seg pf pt,
    segments h !! s = Some seg /\
    points h !! from seg = Some pf /\
    points h !! to seg = Some pt /\
    dy seg = Some (y pf - y pt)%Q /\
    dx seg = Some (x pf - x pt)%Q /\
    seg_angle seg = Some (angle (y pf - y pt) (x pf - x pt))%Q /\
    (~ (x pf == x pt /\ y pf == y pt)%Q ->
     (y pt < y pf)%Q \/ (y pf == y pt /\ x pf < x pt)%Q).

(** An element of the list of an event that [addSegment] can compare with
    [pt]: a segment whose [to] is a point; [same] tells whether that point is
    [pt] within the tolerance. *)
Definition comparable (h : Heap) (pt : Point) (r : Ref) (same : bool) : Prop :=
  exists s sg p,
    r = SegRef s /\ segments h !! s = Some sg /\ points h !! to sg = Some p /\
    samePoint p pt = same.

(** [m] keeps the view [π] of the state, whether it returns or throws. *)
Definition keeps {A X} (π : Driver (U:=U) -> X) (m : M A) : Prop :=
  forall d, π (fst (m d)) = π d.

Definition foundView d : list (loc * loc) := foundCalls (calls d).
Definition arraysView d : list (list Ref) := arrays (heap d).
Definition eventsView d : list SweepEvent := events (heap d).
Definition segmentsView d : list Segment := segments (heap d).
Definition resultsView d : list ISectResult := results d.

(** Every point of [d] is a point of [d'], with the same coordinates. *)
Definition pointsKept d d' : Prop :=
  forall i v, points (heap d) !! i = Some v -> points (heap d') !! i = Some v.

Definition respects {A} (m : M A) : Prop := forall d, pointsKept d (fst (m d)).

End Vocabulary.

End Spec.

(* ====================================================================== *)
(** ** Concrete inputs *)
(* ====================================================================== *)

Module Examples.

Import Comparable Sweep Reference.
Local Open Scope list_scope.

(** A client with one sort of object, tagged [true] when it carries the
    capability flag; its [lessThan] compares nothing. *)
Definition demoFlag (o : bool) : bool := o.
Definition demoLessThan (o : bool) (v : Value bool) : bool := false.
Definition demoOptional (o : bool) : option (Value bool -> bool) := None.
Definition demoEquality (a b : Value bool) : bool := false.
Definition demoToPrimitive (o : bool) : Completion Prim :=
  Normal (PStr "[object Object]"%string).
Definition demoToNumber (s : string) : Number := NaN.
Definition demoToBigInt (s : string) : option Z := None.

(** Three segments that cross pairwise: A from (0,10) to (10,0), B from
    (0,0) to (10,10) and C from (0,4) to (10,4); they meet at (5,5), (4,4)
    and (6,4). *)
Definition crossingHeap : Heap :=
  mkHeap [mkPoint 0 10; mkPoint 10 0; mkPoint 0 0; mkPoint 10 10;
          mkPoint 0 4; mkPoint 10 4]
         [mkSegment 0 1 None None None; mkSegment 2 3 None None None;
          mkSegment 4 5 None None None]
         [[]] [].

(** A handler that asks to stop at once. *)
Definition alwaysStop : Heap -> loc -> loc -> unit -> unit * bool :=
  fun _ _ _ u => (u, true).

Definition stopOptions : option (ISectOptions unit) :=
  Some (mkOptions (Some alwaysStop) None).

Definition noOptions : option (ISectOptions unit) := None.

(** The driver [isect] makes of the three segments. *)
Definition crossing (options : option (ISectOptions unit)) : Driver :=
  fst (isect options crossingHeap [0; 1; 2]%nat tt).

(** The state after [n] calls of [step]. *)
Definition afterSteps (options : option (ISectOptions unit)) (n : nat)
    (d : Driver) : Driver :=
  Nat.iter n (fun d => fst (step options d)) d.

(** The state in which the event of the crossing at (5,5), event 6, has been
    popped: the upper endpoints of A and B have been handled. *)
Definition atCrossing (options : option (ISectOptions unit)) : Driver :=
  fst (eventQueue_pop (afterSteps options 2 (crossing options))).

(** What [classify] finds there: A and B pass through the point. *)
Definition crossingClassified : Classified := mkClassified 6 0 4 0 0 2 0.

(** Two segments of a polyline that share the object of their common
    vertex: from (0,1) to (1,1), and from (1,1) to (2,1.000005). *)
Definition sharedHeap : Heap :=
  mkHeap [mkPoint 0 1; mkPoint 1 1; mkPoint 2 (1000005 # 1000000)]
         [mkSegment 0 1 None None None; mkSegment 1 2 None None None]
         [[]] [].

Definition sharedFirst : Driver (U:=unit) :=
  fst (addSegment noOptions 0 (newDriver sharedHeap tt)).

Definition sharedBoth : Driver (U:=unit) :=
  fst (addSegment noOptions 1 sharedFirst).

(** The segment from (0,10) to (10,0), given twice as two objects with
    points of their own. *)
Definition twiceHeap : Heap :=
  mkHeap [mkPoint 0 10; mkPoint 10 0; mkPoint 0 10; mkPoint 10 0]
         [mkSegment 0 1 None None None; mkSegment 2 3 None None None]
         [[]] [].

Definition twiceFirst : Driver (U:=unit) :=
  fst (addSegment noOptions 0 (newDriver twiceHeap tt)).

Definition twiceCanonical : Canonical := mkCanonical 2 3 false.

(** A segment from (3,3) to (3,3). *)
Definition pointHeap : Heap :=
  mkHeap [mkPoint 3 3; mkPoint 3 3] [mkSegment 0 1 None None None] [[]] [].

(** A segment from (1,1) to (1.0000000005,1): its endpoints are the same
    point within the tolerance, but not the same point. *)
Definition nearHeap : Heap :=
  mkHeap [mkPoint 1 1; mkPoint (2000000001 # 2000000000) 1]
         [mkSegment 0 1 None None None] [[]] [].

(** The first segment of the three crossing ones, once added. *)
Definition crossingFirst : Driver (U:=unit) :=
  fst (addSegment noOptions 0 (newDriver crossingHeap tt)).

(** The state in which the event of the crossing is about to be popped. *)
Definition beforeCrossing (options : option (ISectOptions unit)) : Driver :=
  afterSteps options 2 (crossing options).

(** Three segments through (5,5): from (0,5) to (10,5), from (5,0) to
    (5,10) and from (0,0) to (10,10). *)
Definition starHeap : Heap :=
  mkHeap [mkPoint 0 5; mkPoint 10 5; mkPoint 5 0; mkPoint 5 10;
          mkPoint 0 0; mkPoint 10 10]
         [mkSegment 0 1 None None None; mkSegment 2 3 None None None;
          mkSegment 4 5 None None None]
         [[]] [].

(** Two segments that share the endpoint (5,5) only. *)
Definition veeHeap : Heap :=
  mkHeap [mkPoint 0 0; mkPoint 5 5; mkPoint 5 5; mkPoint 10 0]
         [mkSegment 0 1 None None None; mkSegment 2 3 None None None]
         [[]] [].

(** Two segments that do not meet. *)
Definition apartHeap : Heap :=
  mkHeap [mkPoint 0 0; mkPoint 1 1; mkPoint 5 5; mkPoint 10 0]
         [mkSegment 0 1 None None None; mkSegment 2 3 None None None]
         [[]] [].



(** The results of a run, each with the coordinates of its point and the
    contents of its array. *)
Definition reported (r : option (Driver (U:=unit) * Res (option (list ISectResult))))
    : option (list (option Point * option (list Ref))) :=
  option_map
    (fun x => map (fun i => (points (heap (fst x)) !! res_point i,
                             arrays (heap (fst x)) !! res_segments i))
                  (results (fst x)))
    r.

End Examples.
(* ====================================================================== *)
(** ** Further vocabulary and inputs *)
(* ====================================================================== *)

Module Views.

Import Comparable Sweep Reference.
Local Open Scope list_scope.

(** The messages passed to the error handler in a log of calls. *)
Definition errorCalls (l : list Call) : list string :=
  omap (fun c => match c with CallOnError m => Some m | _ => None end) l.

(** The calls on the sweep status in a log of calls. *)
Definition statusCalls (l : list Call) : list Call :=
  List.filter
    (fun c =>
       match c with
       | CallFindSegmentsWithPoint _ | CallDeleteSegments _ _ _
       | CallInsertSegments _ _ _ | CallGetLeftRightPoint _
       | CallGetBoundarySegments _ _ => true
       | _ => false
       end) l.

(** The probes in a log of calls: the calls of [intersectSegments]. *)
Definition probeCalls (l : list Call) : list (loc * loc) :=
  omap (fun c => match c with CallIntersectSegments a b => Some (a, b) | _ => None end) l.

(** The number of insertions into the schedule and the number of probes a
    driver has made. *)
Definition insertCount {geom : Geom} {queue : EventQueue} {status : SweepStatus}
    {U : Type} (d : Driver (U:=U)) : nat :=
  length (Spec.insertCalls (calls d)).

Definition probeCount {geom : Geom} {queue : EventQueue} {status : SweepStatus}
    {U : Type} (d : Driver (U:=U)) : nat :=
  length (probeCalls (calls d)).

(** [m] raises the count [cnt] by at most [k], whether it returns or
    throws. *)
Definition rises {geom : Geom} {queue : EventQueue} {status : SweepStatus}
    {U A : Type} (cnt : Driver (U:=U) -> nat) (k : nat) (m : M A) : Prop :=
  forall d, (cnt (fst (m d)) <= cnt d + k)%nat.

(** The calls on the sweep status a driver has made. *)
Definition statusView {geom : Geom} {queue : EventQueue} {status : SweepStatus}
    {U : Type} (d : Driver (U:=U)) : list Call :=
  statusCalls (calls d).

(** The state a bounded loop ends in ([d0] if it reaches the bound). *)
Definition stateOf {geom : Geom} {queue : EventQueue} {status : SweepStatus}
    {U A : Type} (d0 : Driver (U:=U)) (o : option (Driver (U:=U) * A)) : Driver :=
  match o with
  | Some (d', _) => d'
  | None => d0
  end.

(** [m] takes every state to a state related to it by [R], whether it
    returns or throws. *)
Definition follows {geom : Geom} {queue : EventQueue} {status : SweepStatus}
    {U A : Type} (R : Driver (U:=U) -> Driver (U:=U) -> Prop) (m : M A) : Prop :=
  forall d, R d (fst (m d)).

(** Every event of [d] is an event of [d'], unchanged. *)
Definition eventsGrow {geom : Geom} {queue : EventQueue} {status : SweepStatus}
    {U : Type} (d d' : Driver (U:=U)) : Prop :=
  forall e ev, events (heap d) !! e = Some ev -> events (heap d') !! e = Some ev.

(** What [addSegment] makes of the point object that is the [from] of the
    segment it is given, [vf] and [vt] being the two endpoints as given:
    both are rounded near zero, and [from] takes the y of [to] when the two
    y differ by less than 1e-5. *)
Definition snapped {geom : Geom} (vf vt : Point) : Point :=
  if (Qabs (y (Spec.rounded vf) - y (Spec.rounded vt)) <? (1 # 100000))%Q
  then mkPoint (x (Spec.rounded vf)) (y (Spec.rounded vt))
  else Spec.rounded vf.

(** The test of line 262 on the endpoints [pf] (from) and [pt] (to). *)
Definition swapped (pf pt : Point) : bool :=
  ((y pf <? y pt) || ((y pf =? y pt) && (x pt <? x pf)))%Q.

(** [I] is an invariant of the step from [d] to [d']. *)
Definition keepsInv {geom : Geom} {queue : EventQueue} {status : SweepStatus}
    {U : Type} (I : Driver (U:=U) -> Prop) (d d' : Driver (U:=U)) : Prop :=
  I d -> I d'.

(** The entries the default handler makes for a list of calls. *)
Definition resultsOf (l : list (loc * loc)) : list ISectResult :=
  map (fun c => mkResult (fst c) (snd c)) l.

(** The list of results holds one entry for each call of the handler, in
    the order of the calls. *)
Definition mirrored {geom : Geom} {queue : EventQueue} {status : SweepStatus}
    {U : Type} (d : Driver (U:=U)) : Prop :=
  results d = resultsOf (Spec.foundCalls (calls d)).

(** The array [EMPTY] is empty and is the list of no event. *)
Definition emptyIntact {geom : Geom} {queue : EventQueue} {status : SweepStatus}
    {U : Type} (d : Driver (U:=U)) : Prop :=
  arrays (heap d) !! EMPTY = Some []
  /\ forall e ev, events (heap d) !! e = Some ev -> ev_from ev <> Some EMPTY.

(** The same, while [lower] and [interior] are collected: neither is
    [EMPTY]. *)
Definition emptyApart {geom : Geom} {queue : EventQueue} {status : SweepStatus}
    {U : Type} (d : Driver (U:=U)) : Prop :=
  emptyIntact d /\ lower d <> Some EMPTY /\ interior d <> Some EMPTY.

(** The value a call on the sweep status ends with when the error handler
    returns each time it is called. *)
Fixpoint visited {S A : Type} (o : Outcome S A) : A :=
  match o with
  | Done _ a => a
  | Raise _ _ k => visited k
  end.

(** Segment [s] ends at the point [q], within the tolerance; it starts at
    [q]; it does neither. *)
Definition endsAt {geom : Geom} (h : Heap) (q : Point) (s : loc) : bool :=
  match segments h !! s with
  | Some sg =>
      match points h !! to sg with
      | Some pt => samePoint pt q
      | None => false
      end
  | None => false
  end.

Definition startsAt {geom : Geom} (h : Heap) (q : Point) (s : loc) : bool :=
  match segments h !! s with
  | Some sg =>
      match points h !! from sg with
      | Some pf => samePoint pf q
      | None => false
      end
  | None => false
  end.

Definition passesAt {geom : Geom} (h : Heap) (q : Point) (s : loc) : bool :=
  negb (endsAt h q s) && negb (startsAt h q s).

(** The state of the loop that collects [lower] and [interior], [accL] and
    [accI] being the segments collected so far, in a heap with the points and
    the segments of [h]. *)
Definition collected {geom : Geom} {queue : EventQueue} {status : SweepStatus}
    {U : Type} (h : Heap) (lp : loc) (accL accI : list loc)
    (d : Driver (U:=U)) : Prop :=
  points (heap d) = points h
  /\ segments (heap d) = segments h
  /\ lastPoint d = Some lp
  /\ arrays (heap d) !! EMPTY = Some []
  /\ match lower d with
     | Some a => a <> EMPTY /\ arrays (heap d) !! a = Some (SegRef <$> accL)
     | None => accL = []
     end
  /\ match interior d with
     | Some a => a <> EMPTY /\ arrays (heap d) !! a = Some (SegRef <$> accI)
     | None => accI = []
     end
  /\ (forall a, lower d = Some a -> interior d <> Some a).

(** Every event of [d] is an event of [d'] with the same point; it is
    still marked as reported if it was, and still has its list if it had
    one. *)
Definition eventsSteady {geom : Geom} {queue : EventQueue} {status : SweepStatus}
    {U : Type} (d d' : Driver (U:=U)) : Prop :=
  forall e ev,
    events (heap d) !! e = Some ev ->
    exists ev',
      events (heap d') !! e = Some ev'
      /\ point ev' = point ev
      /\ (isReported ev = true -> isReported ev' = true)
      /\ (forall a, ev_from ev = Some a -> ev_from ev' = Some a).

(** The state after [k] calls of [step]. *)
Fixpoint steps {geom : Geom} {queue : EventQueue} {status : SweepStatus}
    {U : Type} (options : option (ISectOptions U)) (k : nat)
    (d : Driver (U:=U)) : Driver :=
  match k with
  | O => d
  | S k' => steps options k' (fst (step options d))
  end.

(** A client whose objects are natural numbers, all carrying the capability
    flag and ordered as numbers; they implement [lessThan] only. *)
Definition natFlag (o : nat) : bool := true.
Definition natLessThan (o : nat) (v : Value nat) : bool :=
  match v with VObj o' => (o <? o')%nat | _ => false end.
Definition natOptional (o : nat) : option (Value nat -> bool) := None.
Definition natEquality (a b : Value nat) : bool :=
  match a, b with VObj o, VObj o' => (o =? o')%nat | _, _ => false end.
Definition natToPrimitive (o : nat) : Completion Prim :=
  Normal (PNum (Finite (inject_Z (Z.of_nat o)))).
Definition natToNumber (s : string) : Number := NaN.
Definition natToBigInt (s : string) : option Z := None.

(** One point, whose x is within the tolerance of 0. *)
Definition nearZeroHeap : Heap := mkHeap [mkPoint (1 # 10000000000) 7] [] [[]] [].

(** Two segments of a polyline given with point objects of their own: from
    (0,10) to (5,5) and from (5,5) to (10,0). *)
Definition chainHeap : Heap :=
  mkHeap [mkPoint 0 10; mkPoint 5 5; mkPoint 5 5; mkPoint 10 0]
         [mkSegment 0 1 None None None; mkSegment 2 3 None None None]
         [[]] [].

(** A segment from (4,2.000001) to (1,2): nearly horizontal, and given from
    right to left. *)
Definition snapHeap : Heap :=
  mkHeap [mkPoint 4 (2000001 # 1000000); mkPoint 1 2]
         [mkSegment 0 1 None None None] [[]] [].

(** The drivers of these inputs once their first segment is added. *)
Definition chainFirst : Driver (U:=unit) :=
  fst (addSegment Examples.noOptions 0 (newDriver chainHeap tt)).

Definition veeFirst : Driver (U:=unit) :=
  fst (addSegment Examples.noOptions 0 (newDriver Examples.veeHeap tt)).

(** The three crossing segments after [n] calls of [step] and one pop. *)
Definition popped (n : nat) : Driver (U:=unit) :=
  fst (eventQueue_pop
         (Examples.afterSteps Examples.noOptions n
            (Examples.crossing Examples.noOptions))).

(** The three crossing segments after a run with the default handler. *)
Definition crossingDone : Driver (U:=unit) :=
  stateOf (Examples.crossing Examples.noOptions)
          (run Examples.noOptions 20 (Examples.crossing Examples.noOptions)).

(** The state before the crossing of A and B is popped, with the event of
    the crossing, event 6, marked as reported while it is in the schedule. *)
Definition markedCrossing (options : option (ISectOptions unit)) : Driver :=
  set_heap (set_events (<[6%nat := mkSweepEvent 6 None true]>))
           (Examples.beforeCrossing options).

(** An error handler that returns. *)
Definition quietOptions : option (ISectOptions unit) :=
  Some (mkOptions None (Some (fun _ u => u))).

End Views.

(* ====================================================================== *)
(** ** Reasoning about the driver *)
(* ====================================================================== *)

Module SweepFacts.

Import Sweep Spec.
Local Open Scope list_scope.

Lemma insertCalls_app l1 l2 : insertCalls (l1 ++ l2) = insertCalls l1 ++ insertCalls l2.
Proof. apply omap_app. Qed.

Lemma foundCalls_app l1 l2 : foundCalls (l1 ++ l2) = foundCalls l1 ++ foundCalls l2.
Proof. apply omap_app. Qed.

Lemma Qlt_bool_iff (a b : Q) : Qlt_bool a b = true <-> (a < b)%Q.
Proof.
  unfold Qlt_bool. rewrite negb_true_iff. split; intros E.
  - apply Qnot_le_lt. intros L. apply Qle_bool_iff in L. congruence.
  - destruct (Qle_bool b a) eqn:L; [|reflexivity].
    apply Qle_bool_iff in L. exfalso. exact (Qlt_not_le _ _ E L).
Qed.

Lemma Qlt_bool_false_iff (a b : Q) : Qlt_bool a b = false <-> (b <= a)%Q.
Proof.
  unfold Qlt_bool. rewrite negb_false_iff. apply Qle_bool_iff.
Qed.

Lemma lookup_snoc_old {A} (l : list A) (v : A) i w :
  l !! i = Some w -> (l ++ [v]) !! i = Some w.
Proof. intros H. rewrite lookup_app_l; [exact H | eapply lookup_lt_Some, H]. Qed.

Lemma lookup_snoc_new {A} (l : list A) (v : A) : (l ++ [v]) !! length l = Some v.
Proof. apply list_lookup_middle. reflexivity. Qed.

Create HintDb driver.
Create HintDb keeps.

Section Facts.

Context {geom : Geom} {queue : EventQueue} {status : SweepStatus} {U : Type}.
Variable options : option (ISectOptions U).

Implicit Types d : Driver (U:=U).
Abbreviation M := (Sweep.M (U:=U)).

Lemma bind_run {A B} (m : M A) (f : A -> M B) d :
  (m ≫= f) d =
  match m d with
  | (d', Ok a) => f a d'
  | (d', Throw e) => (d', Throw e)
  end.
Proof. reflexivity. Qed.

(** A run is known by its value and the state it leaves. *)
Lemma run_by_value {A} (m : M A) d (r : Res A) :
  snd (m d) = r -> m d = (fst (m d), r).
Proof. destruct (m d) as [d' r']. simpl. intros ->. reflexivity. Qed.

(** *** Inversion of a run that returns *)

Lemma bind_ok_inv {A B} (m : M A) (f : A -> M B) d d' b :
  (m ≫= f) d = (d', Ok b) ->
  exists d1 a, m d = (d1, Ok a) /\ f a d1 = (d', Ok b).
Proof.
  rewrite bind_run. destruct (m d) as [d1 [a|e]]; [|discriminate].
  intros H. exists d1, a. split; [reflexivity | exact H].
Qed.

Lemma ret_ok_inv {A} (a b : A) d d' :
  (mret a : M A) d = (d', Ok b) -> d' = d /\ b = a.
Proof. intros H. injection H as <- <-. split; reflexivity. Qed.

Lemma get_ok_inv d d' d'' : get d = (d', Ok d'') -> d' = d /\ d'' = d.
Proof. intros H. injection H as <- <-. split; reflexivity. Qed.

Lemma modify_ok_inv f d d' (u : unit) : modify f d = (d', Ok u) -> d' = f d.
Proof. intros H. injection H as <-. reflexivity. Qed.

Lemma deref_ok_inv {A} (o : option A) d d' a :
  deref o d = (d', Ok a) -> d' = d /\ o = Some a.
Proof. destruct o; intros H; [injection H as <- <-|discriminate]. split; reflexivity. Qed.

Lemma getPoint_ok_inv p d d' v :
  getPoint p d = (d', Ok v) -> d' = d /\ points (heap d) !! p = Some v.
Proof. apply deref_ok_inv. Qed.

Lemma getSegment_ok_inv s d d' v :
  getSegment s d = (d', Ok v) -> d' = d /\ segments (heap d) !! s = Some v.
Proof. apply deref_ok_inv. Qed.

Lemma getArray_ok_inv a d d' v :
  getArray a d = (d', Ok v) -> d' = d /\ arrays (heap d) !! a = Some v.
Proof. apply deref_ok_inv. Qed.

Lemma getEvent_ok_inv e d d' v :
  getEvent e d = (d', Ok v) -> d' = d /\ events (heap d) !! e = Some v.
Proof. apply deref_ok_inv. Qed.

Lemma setPoint_ok_inv p v d d' (u : unit) :
  setPoint p v d = (d', Ok u) ->
  d' = set_heap (set_points (<[p := v]>)) d /\ is_Some (points (heap d) !! p).
Proof.
  unfold setPoint. intros H. apply bind_ok_inv in H. destruct H as (d1 & v0 & H1 & H2).
  apply getPoint_ok_inv in H1. destruct H1 as [-> H1].
  apply modify_ok_inv in H2. split; [exact H2 | eexists; exact H1].
Qed.

Lemma setSegment_ok_inv s v d d' (u : unit) :
  setSegment s v d = (d', Ok u) ->
  d' = set_heap (set_segments (<[s := v]>)) d /\ is_Some (segments (heap d) !! s).
Proof.
  unfold setSegment. intros H. apply bind_ok_inv in H. destruct H as (d1 & v0 & H1 & H2).
  apply getSegment_ok_inv in H1. destruct H1 as [-> H1].
  apply modify_ok_inv in H2. split; [exact H2 | eexists; exact H1].
Qed.

Lemma setArray_ok_inv a v d d' (u : unit) :
  setArray a v d = (d', Ok u) ->
  d' = set_heap (set_arrays (<[a := v]>)) d /\ is_Some (arrays (heap d) !! a).
Proof.
  unfold setArray. intros H. apply bind_ok_inv in H. destruct H as (d1 & v0 & H1 & H2).
  apply getArray_ok_inv in H1. destruct H1 as [-> H1].
  apply modify_ok_inv in H2. split; [exact H2 | eexists; exact H1].
Qed.

Lemma setEvent_ok_inv e v d d' (u : unit) :
  setEvent e v d = (d', Ok u) ->
  d' = set_heap (set_events (<[e := v]>)) d /\ is_Some (events (heap d) !! e).
Proof.
  unfold setEvent. intros H. apply bind_ok_inv in H. destruct H as (d1 & v0 & H1 & H2).
  apply getEvent_ok_inv in H1. destruct H1 as [-> H1].
  apply modify_ok_inv in H2. split; [exact H2 | eexists; exact H1].
Qed.

(** *** Runs of the primitives *)

Lemma getPoint_run p d v : points (heap d) !! p = Some v -> getPoint p d = (d, Ok v).
Proof. intros H. unfold getPoint. rewrite bind_run. simpl. rewrite H. reflexivity. Qed.

Lemma getSegment_run s d v :
  segments (heap d) !! s = Some v -> getSegment s d = (d, Ok v).
Proof. intros H. unfold getSegment. rewrite bind_run. simpl. rewrite H. reflexivity. Qed.

Lemma getArray_run a d v : arrays (heap d) !! a = Some v -> getArray a d = (d, Ok v).
Proof. intros H. unfold getArray. rewrite bind_run. simpl. rewrite H. reflexivity. Qed.

Lemma getEvent_run e d v : events (heap d) !! e = Some v -> getEvent e d = (d, Ok v).
Proof. intros H. unfold getEvent. rewrite bind_run. simpl. rewrite H. reflexivity. Qed.

Lemma setPoint_run p d v0 v :
  points (heap d) !! p = Some v0 ->
  setPoint p v d = (set_heap (set_points (<[p := v]>)) d, Ok tt).
Proof. intros H. unfold setPoint. rewrite bind_run, (getPoint_run _ _ _ H). reflexivity. Qed.

Lemma setSegment_run s d v0 v :
  segments (heap d) !! s = Some v0 ->
  setSegment s v d = (set_heap (set_segments (<[s := v]>)) d, Ok tt).
Proof.
  intros H. unfold setSegment. rewrite bind_run, (getSegment_run _ _ _ H). reflexivity.
Qed.

Lemma setArray_run a d v0 v :
  arrays (heap d) !! a = Some v0 ->
  setArray a v d = (set_heap (set_arrays (<[a := v]>)) d, Ok tt).
Proof. intros H. unfold setArray. rewrite bind_run, (getArray_run _ _ _ H). reflexivity. Qed.

Lemma setEvent_run e d v0 v :
  events (heap d) !! e = Some v0 ->
  setEvent e v d = (set_heap (set_events (<[e := v]>)) d, Ok tt).
Proof. intros H. unfold setEvent. rewrite bind_run, (getEvent_run _ _ _ H). reflexivity. Qed.

Lemma allocPoint_run v d :
  allocPoint v d
  = (set_heap (set_points (fun l => l ++ [v])) d, Ok (length (points (heap d)))).
Proof. reflexivity. Qed.

Lemma allocArray_run v d :
  allocArray v d
  = (set_heap (set_arrays (fun l => l ++ [v])) d, Ok (length (arrays (heap d)))).
Proof. reflexivity. Qed.

Lemma allocEvent_run v d :
  allocEvent v d
  = (set_heap (set_events (fun l => l ++ [v])) d, Ok (length (events (heap d)))).
Proof. reflexivity. Qed.

Lemma log_run c d : log c d = (set_calls (fun l => l ++ [c]) d, Ok tt).
Proof. reflexivity. Qed.

(** *** Frames: what a computation leaves as it was *)

Lemma keeps_ret {A X} (π : Driver (U:=U) -> X) (a : A) : keeps π (mret a).
Proof. intros d. reflexivity. Qed.

Lemma keeps_throw {A X} (π : Driver (U:=U) -> X) (e : Exn) : keeps π (throw (A:=A) e).
Proof. intros d. reflexivity. Qed.

Lemma keeps_get {X} (π : Driver (U:=U) -> X) : keeps π get.
Proof. intros d. reflexivity. Qed.

Lemma keeps_deref {A X} (π : Driver (U:=U) -> X) (o : option A) : keeps π (deref o).
Proof. intros d. destruct o; reflexivity. Qed.

Lemma keeps_modify {X} (π : Driver (U:=U) -> X) (f : Driver -> Driver) :
  (forall d, π (f d) = π d) -> keeps π (modify f).
Proof. intros E d. apply E. Qed.

Lemma keeps_bind {A B X} (π : Driver (U:=U) -> X) (m : M A) (f : A -> M B) :
  keeps π m -> (forall a, keeps π (f a)) -> keeps π (m ≫= f).
Proof.
  intros Hm Hf d. rewrite bind_run. specialize (Hm d).
  destruct (m d) as [d' [a|e]]; simpl in *; [|exact Hm].
  rewrite Hf. exact Hm.
Qed.

Lemma keeps_forEach {A X} (π : Driver (U:=U) -> X) (f : A -> M unit) (l : list A) :
  (forall a, keeps π (f a)) -> keeps π (forEach f l).
Proof.
  intros Hf. induction l as [|a l IH]; simpl.
  - apply keeps_ret.
  - apply keeps_bind; [apply Hf | intros _; exact IH].
Qed.

Lemma keeps_found_log (c : Call) :
  (if c is CallOnFound _ _ then False else True) ->
  keeps (fun d => foundCalls (calls d)) (log c).
Proof.
  intros Hc d. simpl. rewrite foundCalls_app.
  destruct c; simpl in *; try contradiction; apply app_nil_r.
Qed.

Lemma keeps_runStatus {A X} (π : Driver (U:=U) -> X) (o : Outcome SS A) :
  (forall s d, π (set_sweepStatus s d) = π d) ->
  (forall msg, keeps π (onError options msg)) ->
  keeps π (runStatus options o).
Proof.
  intros Hs He. induction o as [s a|msg s k IH]; simpl.
  - apply keeps_bind; [apply keeps_modify; intros; apply Hs | intros; apply keeps_ret].
  - apply keeps_bind; [apply keeps_modify; intros; apply Hs | intros].
    apply keeps_bind; [apply He | intros; exact IH].
Qed.

End Facts.

#[global] Hint Unfold getPoint getSegment getArray getEvent setPoint setSegment
  setArray setEvent allocPoint allocArray allocEvent newSweepEvent
  defaultIntersectionReporter defaultErrorReporter reportIntersection onError
  sweepStatus_findSegmentsWithPoint sweepStatus_deleteSegments
  sweepStatus_insertSegments sweepStatus_getLeftRightPoint
  sweepStatus_getBoundarySegments eventQueue_isEmpty eventQueue_pop
  eventQueue_find eventQueue_insert roundNearZero union pushOnto
  addLowerOrInterior findNewEvent classify report updateAndProbe handleEventPoint
  canonicalize register addSegment popAndHandle step log : driver.

(** The side condition of [keeps_modify]: the update does not touch the
    view. *)
Ltac keeps_side :=
  intros; cbn;
  first [ reflexivity
        | rewrite foundCalls_app; cbn; apply app_nil_r
        | rewrite insertCalls_app; cbn; apply app_nil_r
        | apply list_lookup_insert_ne; solve [auto] ].

Ltac keeps_step :=
  first
    [ apply keeps_ret
    | apply keeps_throw
    | apply keeps_get
    | apply keeps_deref
    | apply keeps_modify; solve [keeps_side]
    | solve [eauto with keeps]
    | apply keeps_forEach; intros
    | apply keeps_runStatus; [solve [keeps_side] | intros]
    | apply keeps_bind; [|intros]
    | match goal with
      | |- keeps _ (match ?x with _ => _ end) => destruct x
      end
    | progress autounfold with driver ].

Ltac keeps_auto := intros; repeat keeps_step.

(** Inversion of a hypothesis that says a computation returned. *)
Ltac ok_inv_step :=
  match goal with
  | H : (_ ≫= _) _ = (_, Ok _) |- _ =>
      apply bind_ok_inv in H; destruct H as (? & ? & ? & H); cbn beta in H
  | H : mret _ _ = (_, Ok _) |- _ => apply ret_ok_inv in H; destruct H; subst
  | H : get _ = (_, Ok _) |- _ => apply get_ok_inv in H; destruct H; subst
  | H : modify _ _ = (_, Ok _) |- _ => apply modify_ok_inv in H; subst
  | H : deref _ _ = (_, Ok _) |- _ => apply deref_ok_inv in H; destruct H; subst
  | H : getPoint _ _ = (_, Ok _) |- _ => apply getPoint_ok_inv in H; destruct H; subst
  | H : getSegment _ _ = (_, Ok _) |- _ => apply getSegment_ok_inv in H; destruct H; subst
  | H : getArray _ _ = (_, Ok _) |- _ => apply getArray_ok_inv in H; destruct H; subst
  | H : getEvent _ _ = (_, Ok _) |- _ => apply getEvent_ok_inv in H; destruct H; subst
  | H : setPoint _ _ _ = (_, Ok _) |- _ => apply setPoint_ok_inv in H; destruct H; subst
  | H : setSegment _ _ _ = (_, Ok _) |- _ =>
      apply setSegment_ok_inv in H; destruct H; subst
  | H : setArray _ _ _ = (_, Ok _) |- _ => apply setArray_ok_inv in H; destruct H; subst
  | H : setEvent _ _ _ = (_, Ok _) |- _ => apply setEvent_ok_inv in H; destruct H; subst
  | H : throw _ _ = (_, Ok _) |- _ => discriminate H
  end.

Ltac ok_inv := repeat ok_inv_step.

Section Frames.

Context {geom : Geom} {queue : EventQueue} {status : SweepStatus} {U : Type}.
Variable options : option (ISectOptions U).

Implicit Types d : Driver (U:=U).
Abbreviation M := (Sweep.M (U:=U)).

Lemma onError_keeps_found msg : keeps foundView (onError options msg).
Proof. unfold foundView. keeps_auto. Qed.

Lemma onError_keeps_arrays msg : keeps arraysView (onError options msg).
Proof. unfold arraysView. keeps_auto. Qed.

End Frames.

End SweepFacts.

(* ====================================================================== *)
(** ** Properties of the comparison helpers *)
(* ====================================================================== *)

Module ComparableFacts.

Import Comparable Examples.

Lemma num_lt_irrefl (n : Number) : num_lt n n = false.
Proof.
  destruct n as [q| | |]; simpl; try reflexivity.
  apply negb_false_iff, Qle_bool_iff, Qle_refl.
Qed.

(** C10.  When the two operands do not both carry the capability flag, and
    their flags can be read ([lhs] is neither [undefined] nor [null], and
    neither is [rhs] if [lhs] carries the flag), [greaterThan lhs rhs] ends
    as the expression [lhs > lhs] does, whatever [rhs] is; so it returns
    false whenever [lhs] is a plain number. *)
Theorem greaterThan_compares_lhs_with_itself
    (Obj : Type) (comparableFlag : Obj -> bool)
    (m_lessThan : Obj -> Value Obj -> bool)
    (m_lessThanOrEqual m_greaterThan : Obj -> option (Value Obj -> bool))
    (equality : Value Obj -> Value Obj -> bool)
    (toPrimitive : Obj -> Completion Prim) (toNumber : string -> Number)
    (toBigInt : string -> option Z) :
  (forall lhs rhs : Value Obj,
      nullish lhs = false ->
      (flag comparableFlag lhs = true -> nullish rhs = false) ->
      flag comparableFlag lhs && flag comparableFlag rhs = false ->
      greaterThan comparableFlag m_lessThan m_lessThanOrEqual m_greaterThan
                  equality toPrimitive toNumber toBigInt lhs rhs
      = js_gt toPrimitive toNumber toBigInt lhs lhs)
  /\ (forall (a : Number) (rhs : Value Obj),
      greaterThan comparableFlag m_lessThan m_lessThanOrEqual m_greaterThan
                  equality toPrimitive toNumber toBigInt (VNum a) rhs
      = Normal false).
Proof.
  split.
  - intros lhs rhs Hl Hr Hflags. unfold greaterThan, bothFlagged, readFlag.
    rewrite Hl. cbn [andThen].
    destruct (flag comparableFlag lhs) eqn:El; [|reflexivity].
    rewrite (Hr eq_refl). cbn [andThen]. cbn [andb] in Hflags.
    rewrite Hflags. reflexivity.
  - intros a rhs. cbn. rewrite num_lt_irrefl. reflexivity.
Qed.

(** [greaterThan(3, 1)] ends as [3 > 3] does: it returns false. *)
Lemma greaterThan_compares_lhs_with_itself_witness :
  greaterThan demoFlag demoLessThan demoOptional demoOptional demoEquality
              demoToPrimitive demoToNumber demoToBigInt
              (VNum (Finite 3)) (VNum (Finite 1))
  = js_gt demoToPrimitive demoToNumber demoToBigInt
          (VNum (Finite 3)) (VNum (Finite 3))
  /\ greaterThan demoFlag demoLessThan demoOptional demoOptional demoEquality
                 demoToPrimitive demoToNumber demoToBigInt
                 (VNum (Finite 3)) (VNum (Finite 1))
     = Normal false.
Proof.
  split.
  - apply (proj1 (greaterThan_compares_lhs_with_itself bool demoFlag demoLessThan
                    demoOptional demoOptional demoEquality demoToPrimitive
                    demoToNumber demoToBigInt)).
    + reflexivity.
    + discriminate.
    + reflexivity.
  - apply (proj2 (greaterThan_compares_lhs_with_itself bool demoFlag demoLessThan
                    demoOptional demoOptional demoEquality demoToPrimitive
                    demoToNumber demoToBigInt)).
Defined.

(** C10 as stated fails: [null] and 1 do not both carry the flag, and
    [greaterThan(null, 1)] throws a [TypeError] at the read of the flag of
    [null], where [null > null] is false; so does [greaterThan(o, undefined)]
    for an object [o] that carries the flag, where [o > o] is false. *)
Lemma greaterThan_compares_lhs_with_itself_counterexample :
  flag demoFlag (VPrim PNull) && flag demoFlag (VNum (Finite 1)) = false
  /\ greaterThan demoFlag demoLessThan demoOptional demoOptional demoEquality
                 demoToPrimitive demoToNumber demoToBigInt
                 (VPrim PNull) (VNum (Finite 1))
     = Thrown TypeError
  /\ js_gt demoToPrimitive demoToNumber demoToBigInt (VPrim PNull) (VPrim PNull)
     = Normal false
  /\ flag demoFlag (VObj true) && flag demoFlag (VPrim PUndefined) = false
  /\ greaterThan demoFlag demoLessThan demoOptional demoOptional demoEquality
                 demoToPrimitive demoToNumber demoToBigInt
                 (VObj true) (VPrim PUndefined)
     = Thrown TypeError
  /\ js_gt demoToPrimitive demoToNumber demoToBigInt (VObj true) (VObj true)
     = Normal false.
Proof. repeat split; reflexivity. Qed.

End ComparableFacts.

(* ====================================================================== *)
(** ** Properties of [handleEventPoint] *)
(* ====================================================================== *)

Module HandleFacts.

Import Sweep Spec SweepFacts.
Local Open Scope list_scope.

Section Handle.

Context {geom : Geom} {queue : EventQueue} {status : SweepStatus} {U : Type}.
Variable options : option (ISectOptions U).

Implicit Types d : Driver (U:=U).
Abbreviation M := (Sweep.M (U:=U)).

Lemma classify_keeps_found p : keeps foundView (classify options p).
Proof. unfold foundView. keeps_auto. Qed.

Lemma classify_keeps_events p : keeps eventsView (classify options p).
Proof. unfold eventsView. keeps_auto. Qed.

Lemma updateAndProbe_keeps_found p c : keeps foundView (updateAndProbe options p c).
Proof. unfold foundView. keeps_auto. Qed.

Lemma updateAndProbe_keeps_arrays p c : keeps arraysView (updateAndProbe options p c).
Proof. unfold arraysView. keeps_auto. Qed.

(** What [classify] has established when it returns. *)
Lemma classify_post p d d1 c :
  classify options p d = (d1, Ok c) ->
  exists ev vu vi vl,
    events (heap d) !! p = Some ev /\
    c_point c = point ev /\
    c_upper c = default EMPTY (ev_from ev) /\
    arrays (heap d1) !! c_upper c = Some vu /\
    arrays (heap d1) !! c_interior c = Some vi /\
    arrays (heap d1) !! c_lower c = Some vl /\
    uLength c = length vu /\ iLength c = length vi /\ lLength c = length vl.
Proof.
  intros H. unfold classify in H.
  ok_inv.
  match goal with
  | Hu : arrays _ !! default EMPTY _ = Some ?vu,
    Hi : interior _ = Some ?i, Hvi : arrays _ !! ?i = Some ?vi,
    Hl : lower _ = Some ?l, Hvl : arrays _ !! ?l = Some ?vl |- _ =>
      exists x1, vu, vi, vl
  end.
  simpl. repeat split; assumption.
Qed.

Lemma union_run a b d va vb :
  arrays (heap d) !! a = Some va ->
  arrays (heap d) !! b = Some vb ->
  union (Some a) (Some b) d
  = (set_heap (set_arrays (fun l => l ++ [va ++ vb])) d,
     Ok (Some (length (arrays (heap d))))).
Proof.
  intros Ha Hb. unfold union.
  rewrite bind_run, (getArray_run _ _ _ Ha).
  rewrite bind_run, (getArray_run _ _ _ Hb).
  reflexivity.
Qed.

(** The run of the report, lines 152-157, when an intersection is to be
    reported: the event is marked, the two unions are allocated and the
    handler is called with the second one. *)
Lemma report_run p c d ev vu vi vl :
  hasIntersection c || hasPointIntersection c = true ->
  events (heap d) !! p = Some ev ->
  arrays (heap d) !! c_upper c = Some vu ->
  arrays (heap d) !! c_interior c = Some vi ->
  arrays (heap d) !! c_lower c = Some vl ->
  let d' :=
    set_calls (fun l => l ++ [CallOnFound (c_point c) (S (length (arrays (heap d))))])
      (set_heap (set_arrays (fun l => l ++ [vi ++ vl ++ vu]))
         (set_heap (set_arrays (fun l => l ++ [vl ++ vu]))
            (set_heap (set_events (<[p := mkSweepEvent (point ev) (ev_from ev) true]>))
               d))) in
  report options p c d
  = match options ≫= opt_onFound with
    | Some f =>
        let '(u, stop) := f (heap d') (c_point c) (S (length (arrays (heap d)))) (user d') in
        (set_user u d', Ok stop)
    | None =>
        (set_results
           (fun l => l ++ [mkResult (c_point c) (S (length (arrays (heap d))))]) d',
         Ok false)
    end.
Proof.
  intros Hc He Hu Hi Hl d'. unfold report. rewrite Hc.
  rewrite bind_run, (getEvent_run _ _ _ He).
  rewrite bind_run, (setEvent_run _ _ _ _ He).
  rewrite bind_run, (union_run _ _ _ vl vu) by assumption.
  rewrite bind_run, (union_run _ _ _ vi (vl ++ vu));
    [| cbn; apply lookup_snoc_old; assumption | cbn; apply lookup_snoc_new ].
  cbn [heap set_heap arrays set_arrays].
  rewrite length_app. cbn [length]. rewrite Nat.add_1_r.
  unfold reportIntersection.
  destruct (options ≫= opt_onFound) as [f|]; [|reflexivity].
  subst d'. unfold mbind, M_bind, mret, M_ret, log, get, modify. cbn.
  destruct (f _ _ _ _) as [u stop]. reflexivity.
Qed.

Lemma report_quiet p c d :
  hasIntersection c || hasPointIntersection c = false ->
  report options p c d = (d, Ok false).
Proof. intros Hc. unfold report. rewrite Hc. reflexivity. Qed.

Lemma reportable_iff c :
  hasIntersection c || hasPointIntersection c = true
  <-> reportable (uLength c) (iLength c) (lLength c).
Proof.
  unfold hasPointIntersection, hasIntersection, reportable.
  destruct (Nat.ltb_spec 1 (uLength c + iLength c + lLength c)); simpl.
  - split; [intros _; left; assumption | reflexivity].
  - rewrite !andb_true_iff, !Nat.eqb_eq, Nat.ltb_lt. split.
    + intros [[Hu Hl] Hi]. right. repeat split; assumption.
    + intros [Hgt|(Hu & Hl & Hi)]; [lia | repeat split; assumption].
Qed.

Lemma handleEventPoint_run p d d1 c :
  classify options p d = (d1, Ok c) ->
  handleEventPoint options p d
  = match report options p c d1 with
    | (d2, Ok true) => (d2, Ok (Some true))
    | (d2, Ok false) => updateAndProbe options p c d2
    | (d2, Throw e) => (d2, Throw e)
    end.
Proof.
  intros H. unfold handleEventPoint. rewrite bind_run, H, bind_run.
  destruct (report options p c d1) as [d2 [[|]|e]]; reflexivity.
Qed.

(** The calls of the handler and the arrays after [handleEventPoint], from
    the state [classify] leaves. *)
Lemma handleEventPoint_shape p d d1 c :
  classify options p d = (d1, Ok c) ->
  exists vu vi vl,
    arrays (heap d1) !! c_upper c = Some vu /\
    arrays (heap d1) !! c_interior c = Some vi /\
    arrays (heap d1) !! c_lower c = Some vl /\
    (hasIntersection c || hasPointIntersection c = true
     <-> reportable (length vu) (length vi) (length vl)) /\
    if hasIntersection c || hasPointIntersection c then
      foundCalls (calls (fst (handleEventPoint options p d)))
      = foundCalls (calls d) ++ [(c_point c, S (length (arrays (heap d1))))]
      /\ arrays (heap (fst (handleEventPoint options p d)))
         = arrays (heap d1) ++ [vl ++ vu; vi ++ vl ++ vu]
    else
      foundCalls (calls (fst (handleEventPoint options p d))) = foundCalls (calls d)
      /\ arrays (heap (fst (handleEventPoint options p d))) = arrays (heap d1).
Proof.
  intros H.
  destruct (classify_post _ _ _ _ H)
    as (ev & vu & vi & vl & Hev & Hpt & Hup & Hvu & Hvi & Hvl & Hu & Hi & Hl).
  pose proof (classify_keeps_found p d) as Hfound.
  pose proof (classify_keeps_events p d) as Hevents.
  rewrite H in Hfound, Hevents. unfold foundView, eventsView in *. simpl in *.
  rewrite <- Hevents in Hev.
  exists vu, vi, vl. repeat (split; [assumption|]).
  split; [rewrite reportable_iff, Hu, Hi, Hl; reflexivity|].
  rewrite (handleEventPoint_run _ _ _ _ H).
  assert (Hrest : forall d2,
    foundCalls (calls (fst (updateAndProbe options p c d2))) = foundCalls (calls d2)
    /\ arrays (heap (fst (updateAndProbe options p c d2))) = arrays (heap d2)).
  { intros d2. split.
    - apply (updateAndProbe_keeps_found p c d2).
    - apply (updateAndProbe_keeps_arrays p c d2). }
  destruct (hasIntersection c || hasPointIntersection c) eqn:Hc.
  - rewrite (report_run _ _ _ ev vu vi vl) by assumption.
    destruct (options ≫= opt_onFound) as [f|].
    + destruct (f _ _ _ _) as [u [|]]; cbn.
      * rewrite foundCalls_app, Hfound, <- app_assoc. split; reflexivity.
      * destruct (Hrest (set_user u (set_calls
            (fun l => l ++ [CallOnFound (c_point c) (S (length (arrays (heap d1))))])
            (set_heap (set_arrays (fun l => l ++ [vi ++ vl ++ vu]))
               (set_heap (set_arrays (fun l => l ++ [vl ++ vu]))
                  (set_heap (set_events
                     (<[p := mkSweepEvent (point ev) (ev_from ev) true]>)) d1))))))
          as [-> ->].
        cbn. rewrite foundCalls_app, Hfound, <- app_assoc. split; reflexivity.
    + destruct (Hrest (set_results
            (fun l => l ++ [mkResult (c_point c) (S (length (arrays (heap d1))))])
            (set_calls
            (fun l => l ++ [CallOnFound (c_point c) (S (length (arrays (heap d1))))])
            (set_heap (set_arrays (fun l => l ++ [vi ++ vl ++ vu]))
               (set_heap (set_arrays (fun l => l ++ [vl ++ vu]))
                  (set_heap (set_events
                     (<[p := mkSweepEvent (point ev) (ev_from ev) true]>)) d1))))))
          as [-> ->].
      cbn. rewrite foundCalls_app, Hfound, <- app_assoc. split; reflexivity.
  - rewrite (report_quiet _ _ _ Hc). destruct (Hrest d1) as [-> ->].
    split; [assumption | reflexivity].
Qed.

(** C1.  When [handleEventPoint] has found [U] upper, [I] interior and [L]
    lower segments at the event point, it calls the intersection handler if
    and only if [U + I + L > 1], or [U = 0], [L = 0] and [I > 0]; it then
    calls it once, with the point and an array that holds the interior, the
    lower and the upper segments. *)
Theorem handleEventPoint_reports_iff p d d1 c :
  classify options p d = (d1, Ok c) ->
  exists vu vi vl new,
    arrays (heap d1) !! c_upper c = Some vu /\
    arrays (heap d1) !! c_interior c = Some vi /\
    arrays (heap d1) !! c_lower c = Some vl /\
    foundCalls (calls (fst (handleEventPoint options p d)))
    = foundCalls (calls d) ++ new /\
    (reportable (length vu) (length vi) (length vl) <-> new <> []) /\
    (new <> [] ->
     exists segs,
       new = [(c_point c, segs)] /\
       arrays (heap (fst (handleEventPoint options p d))) !! segs
       = Some (vi ++ vl ++ vu)).
Proof.
  intros H.
  destruct (handleEventPoint_shape _ _ _ _ H)
    as (vu & vi & vl & Hvu & Hvi & Hvl & Hrep & Hshape).
  exists vu, vi, vl.
  destruct (hasIntersection c || hasPointIntersection c).
  - destruct Hshape as [Hf Ha].
    exists [(c_point c, S (length (arrays (heap d1))))].
    repeat (split; [assumption|]). split; [split|].
    + intros _. discriminate.
    + intros _. apply Hrep. reflexivity.
    + intros _. eexists. split; [reflexivity|]. rewrite Ha.
      replace (S (length (arrays (heap d1))))
        with (length (arrays (heap d1) ++ [vl ++ vu])).
      * change [vl ++ vu; vi ++ vl ++ vu] with ([vl ++ vu] ++ [vi ++ vl ++ vu]).
        rewrite app_assoc. apply lookup_snoc_new.
      * rewrite length_app. simpl. lia.
  - destruct Hshape as [Hf Ha].
    exists []. rewrite app_nil_r.
    repeat (split; [assumption|]). split; [split|].
    + intros Hr. apply Hrep in Hr. discriminate.
    + intros Hn. congruence.
    + intros Hn. congruence.
Qed.

(** C9.  The array the handler receives at a processed event point is
    allocated by the report: it is no array of the heap [classify] leaves,
    so none of the arrays of the driver (the upper, interior and lower
    arrays, [EMPTY], the lists of the events, the arrays of earlier
    results), which all keep their contents; and it holds the interior
    segments, then the lower ones, then the upper ones. *)
Theorem reported_array_is_fresh p d d1 c pt segs :
  classify options p d = (d1, Ok c) ->
  foundCalls (calls (fst (handleEventPoint options p d)))
  = foundCalls (calls d) ++ [(pt, segs)] ->
  exists vu vi vl,
    arrays (heap d1) !! c_upper c = Some vu /\
    arrays (heap d1) !! c_interior c = Some vi /\
    arrays (heap d1) !! c_lower c = Some vl /\
    arrays (heap (fst (handleEventPoint options p d))) !! segs
    = Some (vi ++ vl ++ vu) /\
    arrays (heap d1) !! segs = None /\
    segs <> c_upper c /\ segs <> c_interior c /\ segs <> c_lower c /\
    segs <> EMPTY /\
    (forall a v, arrays (heap d1) !! a = Some v ->
                 arrays (heap (fst (handleEventPoint options p d))) !! a = Some v).
Proof.
  intros H Hcalls.
  destruct (handleEventPoint_shape _ _ _ _ H)
    as (vu & vi & vl & Hvu & Hvi & Hvl & Hrep & Hshape).
  exists vu, vi, vl. repeat (split; [assumption|]).
  destruct (hasIntersection c || hasPointIntersection c).
  - destruct Hshape as [Hf Ha]. rewrite Hf in Hcalls.
    apply app_inv_head in Hcalls. injection Hcalls as <- <-.
    assert (Hnone : arrays (heap d1) !! S (length (arrays (heap d1))) = None).
    { apply lookup_ge_None. lia. }
    assert (Hne : forall a v, arrays (heap d1) !! a = Some v ->
                              S (length (arrays (heap d1))) <> a).
    { intros a v Hav Heq. rewrite <- Heq, Hnone in Hav. discriminate. }
    rewrite Ha. split; [|split; [exact Hnone|]].
    + replace (S (length (arrays (heap d1))))
        with (length (arrays (heap d1) ++ [vl ++ vu])).
      * change [vl ++ vu; vi ++ vl ++ vu] with ([vl ++ vu] ++ [vi ++ vl ++ vu]).
        rewrite app_assoc. apply lookup_snoc_new.
      * rewrite length_app. simpl. lia.
    + repeat split; eauto.
      intros a v Hav. rewrite lookup_app_l; [exact Hav|].
      eapply lookup_lt_Some, Hav.
  - destruct Hshape as [Hf Ha]. rewrite Hf in Hcalls.
    rewrite <- (app_nil_r (foundCalls (calls d))) in Hcalls at 1.
    apply app_inv_head in Hcalls. discriminate.
Qed.

(** A report that returns [true] has called the handler, and has left the
    status and the schedule alone. *)
Lemma report_true_shape p c d d2 ev vu vi vl :
  events (heap d) !! p = Some ev ->
  arrays (heap d) !! c_upper c = Some vu ->
  arrays (heap d) !! c_interior c = Some vi ->
  arrays (heap d) !! c_lower c = Some vl ->
  report options p c d = (d2, Ok true) ->
  sweepStatus d2 = sweepStatus d /\ eventQueue d2 = eventQueue d /\
  results d2 = results d /\
  calls d2 = calls d ++ [CallOnFound (c_point c) (S (length (arrays (heap d))))].
Proof.
  intros He Hu Hi Hl H.
  destruct (hasIntersection c || hasPointIntersection c) eqn:Hc.
  - rewrite (report_run _ _ _ ev vu vi vl) in H by assumption.
    destruct (options ≫= opt_onFound) as [f|]; [|discriminate].
    destruct (f _ _ _ _) as [u stop]. injection H as <- _.
    repeat split; reflexivity.
  - rewrite (report_quiet _ _ _ Hc) in H. discriminate.
Qed.

(** C5, as the code has it.  When the handler returns a truthy value at an
    event point, [handleEventPoint] returns [true] at once: the call of the
    handler is the last call it makes, so no segment is removed from or
    inserted into the status and no probe is made for that point, and the
    status and the schedule are as [classify] left them. *)
Theorem stop_skips_the_rest_of_the_event p d d1 c d2 :
  classify options p d = (d1, Ok c) ->
  report options p c d1 = (d2, Ok true) ->
  handleEventPoint options p d = (d2, Ok (Some true)) /\
  sweepStatus d2 = sweepStatus d1 /\
  eventQueue d2 = eventQueue d1 /\
  exists segs, calls d2 = calls d1 ++ [CallOnFound (c_point c) segs].
Proof.
  intros H Hr.
  destruct (classify_post _ _ _ _ H)
    as (ev & vu & vi & vl & Hev & Hpt & Hup & Hvu & Hvi & Hvl & Hu & Hi & Hl).
  pose proof (classify_keeps_events p d) as Hevents.
  rewrite H in Hevents. unfold eventsView in Hevents. simpl in Hevents.
  rewrite <- Hevents in Hev.
  destruct (report_true_shape _ _ _ _ _ _ _ _ Hev Hvu Hvi Hvl Hr)
    as (Hs & Hq & _ & Hc).
  split; [rewrite (handleEventPoint_run _ _ _ _ H), Hr; reflexivity|].
  repeat split; try assumption. eexists. exact Hc.
Qed.

End Handle.

End HandleFacts.

(* ====================================================================== *)
(** ** Properties of [run] and [step] *)
(* ====================================================================== *)

Module RunFacts.

Import Sweep Spec SweepFacts HandleFacts.
Local Open Scope list_scope.

Section Run.

Context {geom : Geom} {queue : EventQueue} {status : SweepStatus} {U : Type}.
Variable options : option (ISectOptions U).

Implicit Types d : Driver (U:=U).
Abbreviation M := (Sweep.M (U:=U)).

Lemma run_nonempty fuel d :
  eq_isEmpty (eventQueue d) = false ->
  run options (S fuel) d
  = match popAndHandle options d with
    | (d', Throw e) => Some (d', Throw e)
    | (d', Ok v) => if truthy v then Some (d', Ok None) else run options fuel d'
    end.
Proof. intros He. simpl. rewrite He. reflexivity. Qed.

Lemma run_empty fuel d :
  eq_isEmpty (eventQueue d) = true ->
  run options (S fuel) d = Some (d, Ok (Some (results d))).
Proof. intros He. simpl. rewrite He. reflexivity. Qed.

Lemma step_nonempty d :
  eq_isEmpty (eventQueue d) = false ->
  step options d
  = match popAndHandle options d with
    | (d', Throw e) => (d', Throw e)
    | (d', Ok _) => (d', Ok true)
    end.
Proof.
  intros He. unfold step. rewrite bind_run. cbn [get]. rewrite He. cbn [negb].
  rewrite bind_run. destruct (popAndHandle options d) as [d' [v|e]]; reflexivity.
Qed.

Lemma step_empty d :
  eq_isEmpty (eventQueue d) = true -> step options d = (d, Ok false).
Proof. intros He. unfold step. rewrite bind_run. cbn [get]. rewrite He. reflexivity. Qed.

(** The bound only cuts runs short: a run that ends within a bound ends the
    same way within every larger one. *)
Lemma run_more_fuel fuel d r :
  run options fuel d = Some r -> run options (S fuel) d = Some r.
Proof.
  revert d. induction fuel as [|fuel IH]; intros d H; [discriminate|].
  destruct (eq_isEmpty (eventQueue d)) eqn:He.
  - rewrite (run_empty _ _ He) in H. rewrite (run_empty _ _ He). exact H.
  - rewrite (run_nonempty _ _ He) in H. rewrite (run_nonempty _ _ He).
    destruct (popAndHandle options d) as [d' [v|e]]; [|exact H].
    destruct (truthy v); [exact H | apply IH, H].
Qed.

Lemma stepUntilFalse_more_fuel fuel d r :
  stepUntilFalse options fuel d = Some r -> stepUntilFalse options (S fuel) d = Some r.
Proof.
  revert d. induction fuel as [|fuel IH]; intros d H; [discriminate|].
  cbn [stepUntilFalse] in H |- *.
  destruct (step options d) as [d' [[|]|e]]; [apply IH, H | exact H | exact H].
Qed.

(** The default handler never asks to stop. *)
Lemma report_default_false p c d d' stop :
  options ≫= opt_onFound = None ->
  report options p c d = (d', Ok stop) -> stop = false.
Proof.
  intros Ho H. unfold report in H.
  destruct (hasIntersection c || hasPointIntersection c).
  - ok_inv. unfold reportIntersection in H. rewrite Ho in H.
    unfold defaultIntersectionReporter in H. ok_inv. reflexivity.
  - ok_inv. reflexivity.
Qed.

Lemma handleEventPoint_default_falsy p d d' v :
  options ≫= opt_onFound = None ->
  handleEventPoint options p d = (d', Ok v) -> truthy v = false.
Proof.
  intros Ho H. unfold handleEventPoint in H. ok_inv.
  match goal with
  | Hr : report _ _ _ _ = (_, Ok ?s) |- _ =>
      pose proof (report_default_false _ _ _ _ _ Ho Hr); subst s
  end.
  unfold updateAndProbe in H. ok_inv.
  destruct (_ =? _)%nat; ok_inv.
  - destruct (left _); ok_inv; [|reflexivity].
    destruct (right _); ok_inv; reflexivity.
  - reflexivity.
Qed.

Lemma popAndHandle_default_falsy d d' v :
  options ≫= opt_onFound = None ->
  popAndHandle options d = (d', Ok v) -> truthy v = false.
Proof.
  intros Ho H. unfold popAndHandle in H. ok_inv.
  eapply handleEventPoint_default_falsy; eassumption.
Qed.

(** With the default handler, the client's loop over [step] and [run] go
    through the same states. *)
Lemma stepUntilFalse_run fuel d :
  options ≫= opt_onFound = None ->
  stepUntilFalse options fuel d
  = option_map (fun '(d', r) => (d', outcomeOnly r)) (run options fuel d).
Proof.
  intros Ho. revert d. induction fuel as [|fuel IH]; intros d; [reflexivity|].
  destruct (eq_isEmpty (eventQueue d)) eqn:He.
  - rewrite (run_empty _ _ He). cbn [stepUntilFalse]. rewrite (step_empty _ He).
    reflexivity.
  - rewrite (run_nonempty _ _ He). cbn [stepUntilFalse]. rewrite (step_nonempty _ He).
    destruct (popAndHandle options d) as [d' [v|e]] eqn:Hp; [|reflexivity].
    rewrite (popAndHandle_default_falsy _ _ _ Ho Hp). apply IH.
Qed.

Lemma run_default_returns_results fuel d d' v :
  options ≫= opt_onFound = None ->
  run options fuel d = Some (d', Ok v) -> v = Some (results d').
Proof.
  intros Ho. revert d. induction fuel as [|fuel IH]; intros d H; [discriminate|].
  destruct (eq_isEmpty (eventQueue d)) eqn:He.
  - rewrite (run_empty _ _ He) in H. injection H as <- <-. reflexivity.
  - rewrite (run_nonempty _ _ He) in H.
    destruct (popAndHandle options d) as [d1 [w|e]] eqn:Hp; [|discriminate].
    rewrite (popAndHandle_default_falsy _ _ _ Ho Hp) in H. eapply IH, H.
Qed.

(** C3.  With the default handler, calling [step] until it returns false
    leaves the driver [isect] made in the state in which one call of [run]
    leaves it, whatever bound is put on the number of events: both end, both
    with a thrown exception or both without, in the same state, so with the
    same list of results, or both reach the bound; and the list [run]
    returns is that list of results. *)
Theorem step_until_false_is_run h segments_ u fuel :
  options ≫= opt_onFound = None ->
  stepUntilFalse options fuel (fst (isect options h segments_ u))
  = option_map (fun '(d', r) => (d', outcomeOnly r))
               (run options fuel (fst (isect options h segments_ u)))
  /\ (forall d' v,
        run options fuel (fst (isect options h segments_ u)) = Some (d', Ok v) ->
        v = Some (results d')).
Proof.
  intros Ho. split.
  - apply stepUntilFalse_run, Ho.
  - intros d' v. apply run_default_returns_results, Ho.
Qed.

(** *** Early stop *)

Section Custom.

Variable f : Heap -> loc -> loc -> U -> U * bool.
Hypothesis Hf : options ≫= opt_onFound = Some f.

Lemma reportIntersection_keeps_results p s :
  keeps (fun d => results d) (reportIntersection options p s).
Proof. unfold reportIntersection. rewrite Hf. keeps_auto. Qed.

Local Hint Resolve reportIntersection_keeps_results : keeps.



Hypothesis Hstop : forall h p s u, snd (f h p s u) = true.




End Custom.


End Run.

End RunFacts.

(* ====================================================================== *)
(** ** Properties of [findNewEvent] *)
(* ====================================================================== *)

Module ProbeFacts.

Import Sweep Spec SweepFacts.
Local Open Scope list_scope.

Section Probe.

Context {geom : Geom} {queue : EventQueue} {status : SweepStatus} {U : Type}.
Variable options : option (ISectOptions U).

Implicit Types d : Driver (U:=U).
Abbreviation M := (Sweep.M (U:=U)).

Lemma set_points_id d p v :
  points (heap d) !! p = Some v ->
  set_heap (set_points (<[p := v]>)) d = d.
Proof.
  intros H. destruct d as [[ps ss as_ es] rs q s lo it lp u cs]. simpl in *.
  unfold set_heap, set_points. simpl. rewrite list_insert_id by assumption.
  reflexivity.
Qed.

Lemma set_points_twice d p v w :
  set_heap (set_points (<[p := w]>)) (set_heap (set_points (<[p := v]>)) d)
  = set_heap (set_points (<[p := w]>)) d.
Proof.
  destruct d as [[ps ss as_ es] rs q s lo it lp u cs].
  unfold set_heap, set_points. simpl. rewrite list_insert_insert_eq. reflexivity.
Qed.

Lemma roundNearZero_run p d v :
  points (heap d) !! p = Some v ->
  roundNearZero p d = (set_heap (set_points (<[p := rounded v]>)) d, Ok tt).
Proof.
  intros H. unfold roundNearZero, rounded.
  rewrite bind_run, (getPoint_run _ _ _ H).
  destruct (Qabs (x v) <? EPS)%Q.
  - rewrite bind_run, (setPoint_run _ _ _ _ H).
    rewrite bind_run, (getPoint_run _ _ (mkPoint 0 (y v)));
      [| cbn; apply list_lookup_insert_eq; eapply lookup_lt_Some, H ].
    cbn [x y]. destruct (Qabs (y v) <? EPS)%Q.
    + erewrite setPoint_run;
        [| cbn; apply list_lookup_insert_eq; eapply lookup_lt_Some, H ].
      rewrite set_points_twice. reflexivity.
    + reflexivity.
  - rewrite bind_run. change ((mret tt : M unit) d) with (d, Ok tt). cbn iota.
    rewrite bind_run, (getPoint_run _ _ _ H).
    destruct (Qabs (y v) <? EPS)%Q.
    + rewrite (setPoint_run _ _ _ _ H). destruct v; reflexivity.
    + change ((mret tt : M unit) d) with (d, Ok tt).
      destruct v as [vx vy]. cbn [x y]. rewrite set_points_id by assumption.
      reflexivity.
Qed.

Lemma set_points_fresh d n v w :
  n = length (points (heap d)) ->
  set_heap (set_points (<[n := w]>))
    (set_heap (set_points (fun l => l ++ [v])) d)
  = set_heap (set_points (fun l => l ++ [w])) d.
Proof.
  intros ->. destruct d as [[ps ss as_ es] rs q s lo it lp u cs].
  unfold set_heap, set_points. simpl.
  rewrite insert_app_r_alt by lia. rewrite Nat.sub_diag. reflexivity.
Qed.

(** The run of [findNewEvent] on two segments, for an event [p] whose point
    is [pp]. *)
Lemma findNewEvent_run l r p d pe pp :
  events (heap d) !! p = Some pe ->
  points (heap d) !! point pe = Some pp ->
  findNewEvent options (Some l) (Some r) p d
  = match intersectSegments (heap d) l r with
    | None => (set_calls (fun cs => cs ++ [CallIntersectSegments l r]) d, Ok tt)
    | Some v =>
        if ((y pp - y v <? - EPS) || ((Qabs (y pp - y v) <? EPS) && (x v <=? x pp)))%Q
        then (set_heap (set_points (fun ps => ps ++ [v]))
                (set_calls (fun cs => cs ++ [CallIntersectSegments l r]) d), Ok tt)
        else
          let q := length (points (heap d)) in
          let d2 := set_calls (fun cs => cs ++ [CallFind q]) (probed l r v d) in
          match eq_find (heap d2) q (eventQueue d) with
          | Some n =>
              if node_isReported (heap d2) n
              then onError options "We already reported this event." d2
              else (d2, Ok tt)
          | None =>
              let e := length (events (heap d)) in
              let d3 :=
                set_calls (fun cs => cs ++ [CallInsert e])
                  (set_heap (set_events (fun es => es ++ [mkSweepEvent q None false])) d2) in
              (set_eventQueue (eq_insert (heap d3) e (eventQueue d)) d3, Ok tt)
          end
    end.
Proof.
  intros He Hp. unfold findNewEvent.
  rewrite bind_run, log_run. rewrite bind_run. cbn [get heap set_calls].
  destruct (intersectSegments (heap d) l r) as [v|]; [|reflexivity].
  rewrite bind_run, allocPoint_run.
  rewrite bind_run, (getEvent_run _ _ pe) by (cbn; assumption).
  rewrite bind_run, (getPoint_run _ _ pp) by (cbn; apply lookup_snoc_old; assumption).
  rewrite bind_run, (getPoint_run _ _ v) by (cbn; apply lookup_snoc_new).
  cbn zeta.
  destruct (y pp - y v <? - EPS)%Q; [reflexivity|].
  destruct ((Qabs (y pp - y v) <? EPS) && (x v <=? x pp))%Q; [reflexivity|].
  cbn [orb].
  rewrite bind_run, (roundNearZero_run _ _ v) by (cbn; apply lookup_snoc_new).
  cbn [heap set_heap set_calls points set_points].
  rewrite set_points_fresh by reflexivity.
  fold (probed l r v d).
  unfold eventQueue_find. rewrite bind_run, bind_run, log_run, bind_run.
  cbn [get].
  change (eventQueue (set_calls _ (probed l r v d))) with (eventQueue d).
  destruct (eq_find _ _ _) as [n|].
  - unfold mbind, M_bind, get. cbn.
    destruct (node_isReported _ n); reflexivity.
  - reflexivity.
Qed.




End Probe.

End ProbeFacts.

(* ====================================================================== *)
(** ** Properties of [addSegment] *)
(* ====================================================================== *)

Module AddFacts.

Import Sweep Spec SweepFacts.
Local Open Scope list_scope.

Section Add.

Context {geom : Geom} {queue : EventQueue} {status : SweepStatus} {U : Type}.
Variable options : option (ISectOptions U).

Implicit Types d : Driver (U:=U).
Abbreviation M := (Sweep.M (U:=U)).

Lemma roundNearZero_keeps_segments p :
  keeps (fun d => segments (heap d)) (roundNearZero p).
Proof. keeps_auto. Qed.

Lemma Qeq_bool_true (a b : Q) : Qeq_bool a b = true -> (a == b)%Q.
Proof. apply Qeq_bool_iff. Qed.

Lemma Qeq_bool_false (a b : Q) : Qeq_bool a b = false -> ~ (a == b)%Q.
Proof. intros H E. apply Qeq_bool_iff in E. congruence. Qed.

(** The outcome of the test of line 262, on the endpoints it leaves as
    [from] and [to]. *)
Lemma oriented_after_swap (a b : Point) :
  ((y a <? y b) || ((y a =? y b) && (x b <? x a)))%Q = true ->
  (y a < y b)%Q \/ (y b == y a /\ x b <= x a)%Q.
Proof.
  intros H. apply orb_true_iff in H. destruct H as [H|H].
  - left. apply Qlt_bool_iff, H.
  - right. apply andb_true_iff in H. destruct H as [H1 H2].
    apply Qeq_bool_true in H1. apply Qlt_bool_iff in H2.
    split; [symmetry; exact H1 | apply Qlt_le_weak, H2].
Qed.

Lemma oriented_without_swap (a b : Point) :
  ((y a <? y b) || ((y a =? y b) && (x b <? x a)))%Q = false ->
  (y b < y a)%Q \/ (y a == y b /\ x a <= x b)%Q.
Proof.
  intros H. apply orb_false_iff in H. destruct H as [H1 H2].
  apply Qlt_bool_false_iff in H1.
  apply andb_false_iff in H2.
  destruct (Qeq_bool (y a) (y b)) eqn:E.
  - right. destruct H2 as [H2|H2]; [discriminate|].
    apply Qlt_bool_false_iff in H2. split; [apply Qeq_bool_true, E | exact H2].
  - left. apply Qeq_bool_false in E.
    apply Qle_lt_or_eq in H1. destruct H1 as [H1|H1]; [exact H1|].
    exfalso. apply E. symmetry. exact H1.
Qed.

Lemma canonicalize_post segment d d1 k :
  canonicalize segment d = (d1, Ok k) ->
  exists pf pt,
    segments (heap d1) !! segment
    = Some (mkSegment (k_from k) (k_to k) (Some (y pf - y pt)%Q)
              (Some (x pf - x pt)%Q) (Some (angle (y pf - y pt) (x pf - x pt))%Q)) /\
    points (heap d1) !! k_from k = Some pf /\
    points (heap d1) !! k_to k = Some pt /\
    isPoint k = ((y pf - y pt =? x pf - x pt) && (y pf - y pt =? 0))%Q /\
    ((y pt < y pf)%Q \/ (y pf == y pt /\ x pf <= x pt)%Q).
Proof.
  intros H. unfold canonicalize in H.
  apply bind_ok_inv in H. destruct H as (d0 & seg & Hseg & H). cbn beta zeta in H.
  apply getSegment_ok_inv in Hseg. destruct Hseg as [-> Hseg].
  apply bind_ok_inv in H. destruct H as (d2 & [] & Hr1 & H).
  apply bind_ok_inv in H. destruct H as (d3 & [] & Hr2 & H).
  assert (Hseg3 : segments (heap d3) !! segment = Some seg).
  { pose proof (roundNearZero_keeps_segments (from seg) d) as K1.
    pose proof (roundNearZero_keeps_segments (to seg) d2) as K2.
    rewrite Hr1 in K1. rewrite Hr2 in K2. simpl in K1, K2. congruence. }
  clear Hr1 Hr2.
  apply bind_ok_inv in H. destruct H as (? & pf0 & Hpf0 & H).
  apply getPoint_ok_inv in Hpf0. destruct Hpf0 as [-> Hpf0].
  apply bind_ok_inv in H. destruct H as (? & pt0 & Hpt0 & H).
  apply getPoint_ok_inv in Hpt0. destruct Hpt0 as [-> Hpt0]. cbn beta zeta in H.
  apply bind_ok_inv in H. destruct H as (d4 & [] & Hsnap & H).
  assert (Hseg4 : exists sg, segments (heap d4) !! segment = Some sg
                             /\ from sg = from seg /\ to sg = to seg).
  { clear H. destruct (Qabs _ <? _)%Q.
    - ok_inv. cbn in *.
      match goal with
      | Hs : segments (heap d3) !! segment = Some ?s |- _ =>
          rewrite Hseg3 in Hs; injection Hs as <-
      end.
      eexists. split; [apply list_lookup_insert_eq; eapply lookup_lt_Some, Hseg3|].
      split; reflexivity.
    - ok_inv. exists seg. repeat split; assumption. }
  destruct Hseg4 as (sg & Hsg & Hsgf & Hsgt). clear Hsnap Hseg3 Hpf0 Hpt0 pf0 pt0.
  apply bind_ok_inv in H. destruct H as (? & pa & Hpa & H).
  apply getPoint_ok_inv in Hpa. destruct Hpa as [-> Hpa].
  apply bind_ok_inv in H. destruct H as (? & pb & Hpb & H).
  apply getPoint_ok_inv in Hpb. destruct Hpb as [-> Hpb].
  apply bind_ok_inv in H. destruct H as (d5 & [f t] & Hswap & H). cbn beta iota in H.
  assert (Hswapped : exists sg' pf pt,
             segments (heap d5) !! segment = Some sg' /\
             from sg' = f /\ to sg' = t /\
             points (heap d5) !! f = Some pf /\ points (heap d5) !! t = Some pt /\
             ((y pt < y pf)%Q \/ (y pf == y pt /\ x pf <= x pt)%Q)).
  { clear H.
    destruct ((y pa <? y pb) || ((y pa =? y pb) && (x pb <? x pa)))%Q eqn:Hc.
    - ok_inv. cbn in *.
      match goal with E : (_, _) = (_, _) |- _ => injection E as -> -> end.
      eexists _, pb, pa.
      split; [apply list_lookup_insert_eq; eapply lookup_lt_Some, Hsg|].
      repeat (split; [first [reflexivity | assumption]|]).
      apply oriented_after_swap, Hc.
    - ok_inv.
      match goal with E : (_, _) = (_, _) |- _ => injection E as -> -> end.
      exists sg, pa, pb. repeat (split; [assumption|]).
      apply oriented_without_swap, Hc. }
  destruct Hswapped as (sg' & pf & pt & Hsg' & Hf & Ht & Hpf & Hpt & Hor).
  ok_inv. cbn in *.
  match goal with
  | Ha : points _ !! from sg' = Some ?a, Hb : points _ !! to sg' = Some ?b,
    Hc : segments _ !! segment = Some ?c |- context [y ?a] =>
      rewrite Hpf in Ha; injection Ha as <-;
      rewrite Hpt in Hb; injection Hb as <-;
      rewrite Hsg' in Hc; injection Hc as <-
  end.
  exists pf, pt.
  split; [apply list_lookup_insert_eq; eapply lookup_lt_Some, Hsg'|].
  repeat split; assumption.
Qed.

(** The run of [register] for a segment that is a point: one event, with
    no list of segments, is made for its point and inserted. *)
Lemma register_point_run segment k d :
  isPoint k = true ->
  let e := length (events (heap d)) in
  let d' :=
    set_calls (fun cs => cs ++ [CallInsert e])
      (set_heap (set_events (fun es => es ++ [mkSweepEvent (k_to k) None false]))
         (set_calls (fun cs => cs ++ [CallFind (k_from k)]) d)) in
  register options segment k d
  = (set_eventQueue (eq_insert (heap d') e (eventQueue d)) d', Ok tt).
Proof.
  intros Hk e d'. unfold register. rewrite Hk.
  unfold eventQueue_find. rewrite bind_run, bind_run, log_run, bind_run.
  cbn [get negb].
  destruct (eq_find _ _ _) as [n|]; reflexivity.
Qed.

(** A call of the intersection handler always returns; it touches neither
    the heap, nor the schedule, nor the status. *)
Lemma reportIntersection_shape p segs d :
  exists d' stop,
    reportIntersection options p segs d = (d', Ok stop) /\
    heap d' = heap d /\ eventQueue d' = eventQueue d /\
    sweepStatus d' = sweepStatus d /\
    calls d' = calls d ++ [CallOnFound p segs].
Proof.
  unfold reportIntersection. rewrite bind_run, log_run.
  destruct (options ≫= opt_onFound) as [f|].
  - rewrite bind_run. cbn [get].
    destruct (f _ _ _ _) as [u stop]. eexists _, stop.
    split; [reflexivity|]. repeat split; reflexivity.
  - eexists _, false. split; [reflexivity|]. repeat split; reflexivity.
Qed.

(** The loop of lines 286-295 when the list holds a segment that ends at
    [to_]: the first one is reported twice. *)
Lemma reportIdentical_found v to_ d pt :
  points (heap d) !! to_ = Some pt ->
  Forall (fun r => exists same, comparable (heap d) pt r same) v ->
  Exists (fun r => comparable (heap d) pt r true) v ->
  exists d' s sg,
    reportIdentical options v to_ d = (d', Ok true) /\
    SegRef s ∈ v /\ comparable (heap d) pt (SegRef s) true /\
    segments (heap d) !! s = Some sg /\
    calls d'
    = calls d ++ [CallOnFound (from sg) (length (arrays (heap d)));
                  CallOnFound (to sg) (S (length (arrays (heap d))))] /\
    arrays (heap d')
    = arrays (heap d) ++ [[PointRef (from sg); PointRef (to sg)];
                          [PointRef (from sg); PointRef (to sg)]] /\
    points (heap d') = points (heap d) /\
    segments (heap d') = segments (heap d) /\
    events (heap d') = events (heap d) /\
    eventQueue d' = eventQueue d /\
    sweepStatus d' = sweepStatus d.
Proof.
  intros Hpt Hall Hex. induction v as [|r v IH]; [inversion Hex|].
  apply Forall_cons in Hall. destruct Hall as [(same & s & sg & ps & -> & Hs & Hps & Hsame) Hall].
  cbn [reportIdentical].
  rewrite bind_run, (getSegment_run _ _ _ Hs).
  rewrite bind_run, (getPoint_run _ _ _ Hps).
  rewrite bind_run, (getPoint_run _ _ _ Hpt).
  rewrite Hsame. destruct same.
  - clear IH Hex.
    rewrite bind_run, allocArray_run.
    destruct (reportIntersection_shape (from sg) (length (arrays (heap d)))
                (set_heap (set_arrays (fun l => l ++ [[PointRef (from sg); PointRef (to sg)]])) d))
      as (d1 & stop1 & E1 & Hh1 & Hq1 & Hs1 & Hc1).
    rewrite bind_run, E1, bind_run, allocArray_run.
    destruct (reportIntersection_shape (to sg) (length (arrays (heap d1)))
                (set_heap (set_arrays (fun l => l ++ [[PointRef (from sg); PointRef (to sg)]])) d1))
      as (d2 & stop2 & E2 & Hh2 & Hq2 & Hs2 & Hc2).
    rewrite bind_run, E2.
    exists d2, s, sg. split; [reflexivity|].
    split; [apply list_elem_of_here|].
    split; [exists s, sg, ps; repeat split; assumption|].
    split; [assumption|].
    rewrite Hc2, Hh2, Hq2, Hs2. cbn. rewrite Hc1, Hh1, Hq1, Hs1. cbn.
    rewrite length_app. cbn. rewrite Nat.add_1_r, <- !app_assoc.
    repeat split; reflexivity.
  - apply Exists_cons in Hex. destruct Hex as [Hex|Hex].
    { destruct Hex as (s' & sg' & p' & E & Hs' & Hp' & Hsame').
      injection E as <-. rewrite Hs in Hs'. injection Hs' as <-.
      rewrite Hps in Hp'. injection Hp' as <-. congruence. }
    destruct (IH Hall Hex) as (d' & s' & sg' & Hrun & Hin & Hrest).
    exists d', s', sg'. split; [exact Hrun|].
    split; [apply list_elem_of_further, Hin | exact Hrest].
Qed.

Lemma reportIntersection_keeps_objects p s :
  keeps (fun d => (points (heap d), segments (heap d)))
        (reportIntersection options p s).
Proof.
  unfold reportIntersection. destruct (options ≫= opt_onFound); keeps_auto.
Qed.

Lemma reportIdentical_keeps_objects v to_ :
  keeps (fun d => (points (heap d), segments (heap d)))
        (reportIdentical options v to_).
Proof.
  induction v as [|[s|p] v IH]; cbn [reportIdentical].
  - keeps_auto.
  - pose proof reportIntersection_keeps_objects. keeps_auto.
  - keeps_auto.
Qed.

Lemma register_keeps_objects segment k :
  keeps (fun d => (points (heap d), segments (heap d)))
        (register options segment k).
Proof.
  pose proof reportIdentical_keeps_objects. unfold register. keeps_auto.
Qed.

(** The invariant holds in every heap that has the same segments and keeps
    the points. *)
Lemma canonicalAt_mono (h h' : Heap) s :
  segments h' !! s = segments h !! s ->
  (forall i v, points h !! i = Some v -> points h' !! i = Some v) ->
  canonicalAt h s -> canonicalAt h' s.
Proof.
  intros Hs Hp (seg & pf & pt & Hseg & Hpf & Hpt & Hrest).
  exists seg, pf, pt. rewrite Hs. split; [exact Hseg|].
  split; [apply Hp, Hpf|]. split; [apply Hp, Hpt | exact Hrest].
Qed.

(** After [addSegment] has returned, the segment satisfies the invariant. *)
Lemma addSegment_establishes segment d d' :
  addSegment options segment d = (d', Ok tt) -> canonicalAt (heap d') segment.
Proof.
  intros H. unfold addSegment in H. apply bind_ok_inv in H.
  destruct H as (d1 & k & Hcan & Hreg).
  destruct (canonicalize_post _ _ _ _ Hcan) as (pf & pt & Hseg & Hpf & Hpt & _ & Hor).
  pose proof (register_keeps_objects segment k d1) as K.
  rewrite Hreg in K. simpl in K. injection K as Kp Ks.
  exists (mkSegment (k_from k) (k_to k) (Some (y pf - y pt)%Q)
            (Some (x pf - x pt)%Q) (Some (angle (y pf - y pt) (x pf - x pt))%Q)),
         pf, pt.
  rewrite Kp, Ks. cbn [from to dy dx seg_angle].
  repeat (split; [first [assumption | reflexivity]|]).
  intros Hne. destruct Hor as [Hlt|[Heq Hle]]; [left; exact Hlt|].
  right. split; [exact Heq|].
  apply Qle_lt_or_eq in Hle. destruct Hle as [Hlt|Hxe]; [exact Hlt|].
  exfalso. apply Hne. split; assumption.
Qed.

(** [canonicalize] writes to the two endpoints and to the segment only. *)
Lemma canonicalize_keeps_rest segment :
  keeps (fun d => (calls d, eventQueue d, sweepStatus d, events (heap d),
                   arrays (heap d)))
        (canonicalize segment).
Proof. keeps_auto. Qed.

Lemma canonicalize_rest segment d d1 r :
  canonicalize segment d = (d1, r) ->
  calls d1 = calls d /\ eventQueue d1 = eventQueue d /\
  sweepStatus d1 = sweepStatus d /\ events (heap d1) = events (heap d) /\
  arrays (heap d1) = arrays (heap d).
Proof.
  intros H. pose proof (canonicalize_keeps_rest segment d) as K.
  rewrite H in K. simpl in K. injection K as -> -> -> -> ->.
  repeat split; reflexivity.
Qed.

Lemma isPoint_iff k pf pt :
  isPoint k = ((y pf - y pt =? x pf - x pt) && (y pf - y pt =? 0))%Q ->
  isPoint k = true <-> (x pf == x pt /\ y pf == y pt)%Q.
Proof.
  intros ->. rewrite andb_true_iff. split.
  - intros [H1 H2]. apply Qeq_bool_true in H1, H2. split; lra.
  - intros [H1 H2]. split; apply Qeq_bool_iff; lra.
Qed.

(** C8, as the code has it.  A segment whose endpoints coincide exactly once
    they are snapped (same x, same y) raises no error in [addSegment], which
    inserts exactly one event into the schedule, new, for the point and with
    no list of starting segments; the handler is not called and the status
    is not touched. *)
Theorem point_segment_adds_one_event segment d d1 k pf pt :
  canonicalize segment d = (d1, Ok k) ->
  points (heap d1) !! k_from k = Some pf ->
  points (heap d1) !! k_to k = Some pt ->
  (x pf == x pt)%Q -> (y pf == y pt)%Q ->
  snd (addSegment options segment d) = Ok tt /\
  insertCalls (calls (fst (addSegment options segment d)))
  = insertCalls (calls d) ++ [length (events (heap d))] /\
  events (heap d) !! length (events (heap d)) = None /\
  events (heap (fst (addSegment options segment d))) !! length (events (heap d))
  = Some (mkSweepEvent (k_to k) None false) /\
  eventQueue (fst (addSegment options segment d))
  = eq_insert (heap (fst (addSegment options segment d)))
              (length (events (heap d))) (eventQueue d) /\
  foundCalls (calls (fst (addSegment options segment d))) = foundCalls (calls d) /\
  sweepStatus (fst (addSegment options segment d)) = sweepStatus d.
Proof.
  intros Hcan Hpf Hpt Hx Hy.
  destruct (canonicalize_post _ _ _ _ Hcan) as (pf' & pt' & _ & Hpf' & Hpt' & Hk & _).
  rewrite Hpf in Hpf'. injection Hpf' as <-. rewrite Hpt in Hpt'. injection Hpt' as <-.
  assert (Hpoint : isPoint k = true) by (apply (isPoint_iff _ _ _ Hk); split; assumption).
  destruct (canonicalize_rest _ _ _ _ Hcan) as (Hc & Hq & Hs & He & Ha).
  unfold addSegment. rewrite bind_run, Hcan, (register_point_run _ _ _ Hpoint).
  cbn. rewrite He, Hc, Hq, Hs.
  rewrite !insertCalls_app, !foundCalls_app. cbn. rewrite !app_nil_r.
  repeat split; try reflexivity.
  - apply lookup_ge_None. lia.
  - apply lookup_snoc_new.
Qed.

(** C7.  When [addSegment] is called with a segment that is not a point
    and the schedule already has an event at its [from] whose list holds a
    segment with the same [to] within the tolerance, the handler is called
    exactly twice, at the [from] and at the [to] of the first such segment,
    each time with a new array of these two points; nothing is inserted into
    the schedule, which stays as it was, and the list of the event does not
    get the segment. *)
Theorem identical_segment_is_reported_twice segment d d1 k n ev a v pt :
  canonicalize segment d = (d1, Ok k) ->
  isPoint k = false ->
  eq_find (heap d1) (k_from k) (eventQueue d1) = Some n ->
  events (heap d1) !! node_data n = Some ev ->
  ev_from ev = Some a ->
  arrays (heap d1) !! a = Some v ->
  points (heap d1) !! k_to k = Some pt ->
  Forall (fun r => exists same, comparable (heap d1) pt r same) v ->
  Exists (fun r => comparable (heap d1) pt r true) v ->
  exists s sg a1 a2,
    SegRef s ∈ v /\ comparable (heap d1) pt (SegRef s) true /\
    segments (heap d1) !! s = Some sg /\
    snd (addSegment options segment d) = Ok tt /\
    foundCalls (calls (fst (addSegment options segment d)))
    = foundCalls (calls d) ++ [(from sg, a1); (to sg, a2)] /\
    arrays (heap d1) !! a1 = None /\ arrays (heap d1) !! a2 = None /\
    arrays (heap (fst (addSegment options segment d))) !! a1
    = Some [PointRef (from sg); PointRef (to sg)] /\
    arrays (heap (fst (addSegment options segment d))) !! a2
    = Some [PointRef (from sg); PointRef (to sg)] /\
    insertCalls (calls (fst (addSegment options segment d))) = insertCalls (calls d) /\
    eventQueue (fst (addSegment options segment d)) = eventQueue d /\
    arrays (heap (fst (addSegment options segment d))) !! a = Some v /\
    events (heap (fst (addSegment options segment d))) = events (heap d) /\
    sweepStatus (fst (addSegment options segment d)) = sweepStatus d.
Proof.
  intros Hcan Hk Hfind Hev Hfrom Ha Hpt Hall Hex.
  destruct (canonicalize_rest _ _ _ _ Hcan) as (Hc & Hq & Hs & He & Harr).
  destruct (reportIdentical_found v (k_to k)
              (set_calls (fun l => l ++ [CallFind (k_from k)]) d1) pt Hpt Hall Hex)
    as (d' & s & sg & Hrun & Hin & Hcmp & Hsg & Hcalls & Harrays & Hpoints & Hsegs
        & Hevents & Hqueue & Hstatus).
  assert (Hadd : addSegment options segment d = (d', Ok tt)).
  { unfold addSegment. rewrite bind_run, Hcan. unfold register.
    unfold eventQueue_find. rewrite bind_run, bind_run, log_run, bind_run.
    cbn [get heap eventQueue set_calls]. rewrite Hfind, Hk. cbn [negb].
    change ((mret (Some n) : M (option Node)) ?st) with (st, Ok (A:=option Node) (Some n)).
    cbn iota.
    rewrite bind_run, bind_run, (getEvent_run _ _ ev) by exact Hev.
    rewrite Hfrom.
    rewrite bind_run, (getArray_run _ _ v) by exact Ha.
    rewrite Hrun. reflexivity. }
  rewrite Hadd. cbn [fst snd].
  exists s, sg, (length (arrays (heap d1))), (S (length (arrays (heap d1)))).
  cbn in Hcalls, Harrays, Hevents, Hqueue, Hstatus.
  rewrite Hcalls, Harrays, Hevents, Hqueue, Hstatus, Hc, Hq, Hs, He.
  rewrite !foundCalls_app, !insertCalls_app. cbn. rewrite !app_nil_r.
  repeat split; try assumption; try reflexivity.
  - apply lookup_ge_None. lia.
  - apply lookup_ge_None. lia.
  - change [[PointRef (from sg); PointRef (to sg)]; [PointRef (from sg); PointRef (to sg)]]
      with ([[PointRef (from sg); PointRef (to sg)]] ++ [[PointRef (from sg); PointRef (to sg)]]).
    rewrite app_assoc. apply lookup_snoc_old, lookup_snoc_new.
  - change [[PointRef (from sg); PointRef (to sg)]; [PointRef (from sg); PointRef (to sg)]]
      with ([[PointRef (from sg); PointRef (to sg)]] ++ [[PointRef (from sg); PointRef (to sg)]]).
    rewrite app_assoc.
    replace (S (length (arrays (heap d1))))
      with (length (arrays (heap d1) ++ [[PointRef (from sg); PointRef (to sg)]])).
    + apply lookup_snoc_new.
    + rewrite length_app. cbn. lia.
  - apply lookup_app_l_Some. exact Ha.
Qed.

End Add.

End AddFacts.

(* ====================================================================== *)
(** ** The invariant of the segments under the later operations *)
(* ====================================================================== *)

Module InvariantFacts.

Import Sweep Spec SweepFacts HandleFacts RunFacts ProbeFacts AddFacts.
Local Open Scope list_scope.

Section Invariant.

Context {geom : Geom} {queue : EventQueue} {status : SweepStatus} {U : Type}.
Variable options : option (ISectOptions U).

Implicit Types d : Driver (U:=U).
Abbreviation M := (Sweep.M (U:=U)).

Lemma pointsKept_refl d : pointsKept d d.
Proof. intros i v H. exact H. Qed.

Lemma pointsKept_trans d1 d2 d3 :
  pointsKept d1 d2 -> pointsKept d2 d3 -> pointsKept d1 d3.
Proof. intros H1 H2 i v H. apply H2, H1, H. Qed.

Lemma respects_of_keeps {A} (m : M A) :
  keeps (fun d => points (heap d)) m -> respects m.
Proof. intros K d i v H. rewrite (K d). exact H. Qed.

Lemma respects_bind {A B} (m : M A) (f : A -> M B) :
  respects m -> (forall a, respects (f a)) -> respects (m ≫= f).
Proof.
  intros Hm Hf d. rewrite bind_run. specialize (Hm d).
  destruct (m d) as [d' [a|e]]; simpl in *; [|exact Hm].
  eapply pointsKept_trans; [exact Hm | apply Hf].
Qed.

Lemma getEvent_state e d : fst (getEvent e d) = d.
Proof. unfold getEvent. rewrite bind_run. cbn [get]. destruct (_ !! _); reflexivity. Qed.

Lemma getPoint_state p d : fst (getPoint p d) = d.
Proof. unfold getPoint. rewrite bind_run. cbn [get]. destruct (_ !! _); reflexivity. Qed.

(** The probe allocates the intersection and rounds that new point only. *)
Lemma findNewEvent_respects l r p : respects (findNewEvent options l r p).
Proof.
  intros d i w Hi. unfold findNewEvent.
  destruct l as [l|]; [|exact Hi]. destruct r as [r|]; [|exact Hi].
  rewrite bind_run, log_run, bind_run. cbn [get heap set_calls].
  destruct (intersectSegments (heap d) l r) as [v|]; [|exact Hi].
  rewrite bind_run, allocPoint_run.
  cbn [heap set_calls].
  set (d1 := set_heap (set_points (fun ps => ps ++ [v]))
               (set_calls (fun cs => cs ++ [CallIntersectSegments l r]) d)).
  assert (H1 : points (heap d1) !! i = Some w) by (cbn; apply lookup_snoc_old, Hi).
  assert (Hq : points (heap d1) !! length (points (heap d)) = Some v)
    by (cbn; apply lookup_snoc_new).
  rewrite bind_run.
  pose proof (getEvent_state p d1) as R1.
  destruct (getEvent p d1) as [dx [ev|e]]; simpl in R1; subst dx; [|exact H1].
  rewrite bind_run.
  pose proof (getPoint_state (point ev) d1) as R2.
  destruct (getPoint (point ev) d1) as [dx [pp|e]]; simpl in R2; subst dx; [|exact H1].
  rewrite bind_run, (getPoint_run _ _ _ Hq). cbn zeta.
  destruct (_ <? _)%Q; [exact H1|].
  destruct (_ && _); [exact H1|].
  rewrite bind_run, (roundNearZero_run _ _ _ Hq).
  match goal with
  | |- context [fst (?rest ?st)] =>
      assert (K : keeps (fun d => points (heap d)) rest) by keeps_auto;
      rewrite (K st)
  end.
  cbn. rewrite list_lookup_insert_ne.
  - apply lookup_snoc_old, Hi.
  - apply lookup_lt_Some in Hi. lia.
Qed.

Lemma updateAndProbe_respects p c : respects (updateAndProbe options p c).
Proof.
  unfold updateAndProbe.
  repeat first
    [ apply findNewEvent_respects
    | apply respects_bind; [|intros]
    | match goal with
      | |- respects (match ?x with _ => _ end) => destruct x
      end
    | apply respects_of_keeps; solve [keeps_auto] ].
Qed.

Lemma handleEventPoint_respects p : respects (handleEventPoint options p).
Proof.
  unfold handleEventPoint.
  apply respects_bind; [apply respects_of_keeps; keeps_auto | intros c].
  apply respects_bind; [apply respects_of_keeps; keeps_auto | intros [|]].
  - apply respects_of_keeps. keeps_auto.
  - apply updateAndProbe_respects.
Qed.

Lemma popAndHandle_respects : respects (popAndHandle options).
Proof.
  unfold popAndHandle.
  apply respects_bind; [apply respects_of_keeps; keeps_auto | intros e].
  apply respects_bind; [apply respects_of_keeps; keeps_auto | intros p].
  apply handleEventPoint_respects.
Qed.

Lemma step_respects : respects (step options).
Proof.
  unfold step.
  apply respects_bind; [apply respects_of_keeps; keeps_auto | intros d0].
  destruct (negb _); [|apply respects_of_keeps; keeps_auto].
  apply respects_bind; [apply popAndHandle_respects | intros].
  apply respects_of_keeps. keeps_auto.
Qed.

Lemma handleEventPoint_keeps_segments p :
  keeps (fun d => segments (heap d)) (handleEventPoint options p).
Proof. keeps_auto. Qed.

Lemma step_keeps_segments : keeps (fun d => segments (heap d)) (step options).
Proof. keeps_auto. Qed.

Lemma popAndHandle_keeps_segments :
  keeps (fun d => segments (heap d)) (popAndHandle options).
Proof. keeps_auto. Qed.

Lemma run_keeps_objects fuel d d' r :
  run options fuel d = Some (d', r) ->
  segments (heap d') = segments (heap d) /\ pointsKept d d'.
Proof.
  revert d. induction fuel as [|fuel IH]; intros d H; [discriminate|].
  destruct (eq_isEmpty (eventQueue d)) eqn:He.
  - rewrite (run_empty _ _ _ He) in H. injection H as <- _.
    split; [reflexivity | apply pointsKept_refl].
  - rewrite (run_nonempty _ _ _ He) in H.
    pose proof (popAndHandle_keeps_segments d) as Ks.
    pose proof (popAndHandle_respects d) as Kp.
    destruct (popAndHandle options d) as [d1 [w|e]]; simpl in Ks, Kp.
    + destruct (truthy w).
      * injection H as <- _. split; assumption.
      * destruct (IH _ H) as [Hs Hp]. split; [congruence|].
        eapply pointsKept_trans; eassumption.
    + injection H as <- _. split; assumption.
Qed.

(** [addSegment] writes to the segment it is given and to the two point
    objects that are its endpoints, and to no other segment or point. *)
Lemma canonicalize_keeps_other_segments segment s :
  segment <> s ->
  keeps (fun d => segments (heap d) !! s) (canonicalize segment).
Proof. intros Hne. keeps_auto. Qed.

Lemma canonicalize_keeps_other_points segment d seg i :
  segments (heap d) !! segment = Some seg ->
  from seg <> i -> to seg <> i ->
  points (heap (fst (canonicalize segment d))) !! i = points (heap d) !! i.
Proof.
  intros Hseg Hf Ht. unfold canonicalize.
  rewrite bind_run, (getSegment_run _ _ _ Hseg). cbn zeta.
  match goal with
  | |- context [fst (?rest d)] =>
      assert (K : keeps (fun d => points (heap d) !! i) rest) by keeps_auto;
      apply (K d)
  end.
Qed.

Lemma addSegment_keeps_other s s' d seg seg' :
  canonicalAt (heap d) s ->
  segments (heap d) !! s = Some seg ->
  segments (heap d) !! s' = Some seg' ->
  s' <> s ->
  from seg' <> from seg -> from seg' <> to seg ->
  to seg' <> from seg -> to seg' <> to seg ->
  canonicalAt (heap (fst (addSegment options s' d))) s.
Proof.
  intros Hcan Hs Hs' Hne Hff Hft Htf Htt.
  assert (Hc1 : canonicalAt (heap (fst (canonicalize s' d))) s).
  { destruct Hcan as (sg & pf & pt & Hsg & Hpf & Hpt & Hrest).
    rewrite Hs in Hsg. injection Hsg as <-.
    exists seg, pf, pt.
    rewrite (canonicalize_keeps_other_segments s' s Hne d).
    rewrite !(canonicalize_keeps_other_points s' d seg') by assumption.
    repeat (split; [assumption|]). exact Hrest. }
  unfold addSegment. rewrite bind_run.
  destruct (canonicalize s' d) as [d1 [k|e]]; [|exact Hc1].
  pose proof (register_keeps_objects options s' k d1) as K. simpl in K, Hc1.
  injection K as Kp Ks.
  eapply canonicalAt_mono; [rewrite Ks; reflexivity | | exact Hc1].
  intros i v. rewrite Kp. auto.
Qed.

(** C6, as the code has it.  When [addSegment] returns, its segment
    satisfies the invariant: [dy], [dx] and [angle] are those of its
    endpoints and, unless the endpoints are the same point, [from] is above
    [to], or as high and to its left.  [handleEventPoint], [step] and [run]
    keep the invariant of every segment, and so does [addSegment] of another
    segment that shares no endpoint object with it. *)
Theorem canonical_orientation_invariant :
  (forall segment d d',
      addSegment options segment d = (d', Ok tt) -> canonicalAt (heap d') segment)
  /\ (forall s p d,
        canonicalAt (heap d) s ->
        canonicalAt (heap (fst (handleEventPoint options p d))) s)
  /\ (forall s d,
        canonicalAt (heap d) s -> canonicalAt (heap (fst (step options d))) s)
  /\ (forall s fuel d d' r,
        canonicalAt (heap d) s ->
        run options fuel d = Some (d', r) ->
        canonicalAt (heap d') s)
  /\ (forall s s' d seg seg',
        canonicalAt (heap d) s ->
        segments (heap d) !! s = Some seg ->
        segments (heap d) !! s' = Some seg' ->
        s' <> s ->
        from seg' <> from seg -> from seg' <> to seg ->
        to seg' <> from seg -> to seg' <> to seg ->
        canonicalAt (heap (fst (addSegment options s' d))) s).
Proof.
  split; [|split; [|split; [|split]]].
  - apply addSegment_establishes.
  - intros s p d H. eapply canonicalAt_mono; [| |exact H].
    + rewrite (handleEventPoint_keeps_segments p d). reflexivity.
    + apply handleEventPoint_respects.
  - intros s d H. eapply canonicalAt_mono; [| |exact H].
    + rewrite (step_keeps_segments d). reflexivity.
    + apply step_respects.
  - intros s fuel d d' r H Hrun.
    destruct (run_keeps_objects _ _ _ _ Hrun) as [Hs Hp].
    eapply canonicalAt_mono; [rewrite Hs; reflexivity | exact Hp | exact H].
  - apply addSegment_keeps_other.
Qed.

End Invariant.

End InvariantFacts.

(* ====================================================================== *)
(** ** Runs of the driver on concrete segments *)
(* ====================================================================== *)

Module Scenarios.

Import Sweep Reference Spec Examples SweepFacts HandleFacts RunFacts ProbeFacts
  AddFacts InvariantFacts.
Local Open Scope list_scope.

Example crossing_run_default :
  option_map (fun r => (length (results (fst r)), snd r))
             (run noOptions 20 (crossing noOptions))
  = Some (3%nat, Ok (Some [mkResult 6 6; mkResult 7 9; mkResult 8 12])).
Proof. vm_compute. reflexivity. Qed.

(** C1, on the crossing of A and B. *)
Lemma handleEventPoint_reports_iff_witness :
  classify noOptions 6 (atCrossing noOptions)
  = (fst (classify noOptions 6 (atCrossing noOptions)), Ok crossingClassified)
  /\ exists vu vi vl new,
      arrays (heap (fst (classify noOptions 6 (atCrossing noOptions)))) !! 0%nat = Some vu /\
      arrays (heap (fst (classify noOptions 6 (atCrossing noOptions)))) !! 4%nat = Some vi /\
      arrays (heap (fst (classify noOptions 6 (atCrossing noOptions)))) !! 0%nat = Some vl /\
      foundCalls (calls (fst (handleEventPoint noOptions 6 (atCrossing noOptions))))
      = foundCalls (calls (atCrossing noOptions)) ++ new /\
      (reportable (length vu) (length vi) (length vl) <-> new <> []) /\
      (new <> [] ->
       exists segs,
         new = [(6%nat, segs)] /\
         arrays (heap (fst (handleEventPoint noOptions 6 (atCrossing noOptions)))) !! segs
         = Some (vi ++ vl ++ vu)).
Proof.
  split.
  - apply run_by_value. vm_compute. reflexivity.
  - apply (handleEventPoint_reports_iff noOptions 6 (atCrossing noOptions)
             (fst (classify noOptions 6 (atCrossing noOptions))) crossingClassified).
    apply run_by_value. vm_compute. reflexivity.
Defined.

(** C9, on the crossing of A and B: the handler receives array 6. *)
Lemma reported_array_is_fresh_witness :
  classify noOptions 6 (atCrossing noOptions)
  = (fst (classify noOptions 6 (atCrossing noOptions)), Ok crossingClassified)
  /\ foundCalls (calls (fst (handleEventPoint noOptions 6 (atCrossing noOptions))))
     = foundCalls (calls (atCrossing noOptions)) ++ [(6%nat, 6%nat)]
  /\ exists vu vi vl,
      arrays (heap (fst (classify noOptions 6 (atCrossing noOptions)))) !! 0%nat = Some vu /\
      arrays (heap (fst (classify noOptions 6 (atCrossing noOptions)))) !! 4%nat = Some vi /\
      arrays (heap (fst (classify noOptions 6 (atCrossing noOptions)))) !! 0%nat = Some vl /\
      arrays (heap (fst (handleEventPoint noOptions 6 (atCrossing noOptions)))) !! 6%nat
      = Some (vi ++ vl ++ vu) /\
      arrays (heap (fst (classify noOptions 6 (atCrossing noOptions)))) !! 6%nat = None /\
      6%nat <> 0%nat /\ 6%nat <> 4%nat /\ 6%nat <> 0%nat /\ 6%nat <> EMPTY /\
      (forall a v,
          arrays (heap (fst (classify noOptions 6 (atCrossing noOptions)))) !! a = Some v ->
          arrays (heap (fst (handleEventPoint noOptions 6 (atCrossing noOptions)))) !! a
          = Some v).
Proof.
  split; [apply run_by_value; vm_compute; reflexivity|].
  split; [vm_compute; reflexivity|].
  apply (reported_array_is_fresh noOptions 6 (atCrossing noOptions)
           (fst (classify noOptions 6 (atCrossing noOptions))) crossingClassified 6%nat 6%nat).
  - apply run_by_value. vm_compute. reflexivity.
  - vm_compute. reflexivity.
Defined.

(** C5, where the handler asks to stop at the crossing of A and B. *)
Lemma stop_skips_the_rest_of_the_event_witness :
  classify stopOptions 6 (atCrossing stopOptions)
  = (fst (classify stopOptions 6 (atCrossing stopOptions)), Ok crossingClassified)
  /\ report stopOptions 6 crossingClassified
            (fst (classify stopOptions 6 (atCrossing stopOptions)))
     = (fst (report stopOptions 6 crossingClassified
                    (fst (classify stopOptions 6 (atCrossing stopOptions)))),
        Ok true)
  /\ handleEventPoint stopOptions 6 (atCrossing stopOptions)
     = (fst (report stopOptions 6 crossingClassified
                    (fst (classify stopOptions 6 (atCrossing stopOptions)))),
        Ok (Some true))
  /\ sweepStatus (fst (report stopOptions 6 crossingClassified
                         (fst (classify stopOptions 6 (atCrossing stopOptions)))))
     = sweepStatus (fst (classify stopOptions 6 (atCrossing stopOptions)))
  /\ eventQueue (fst (report stopOptions 6 crossingClassified
                        (fst (classify stopOptions 6 (atCrossing stopOptions)))))
     = eventQueue (fst (classify stopOptions 6 (atCrossing stopOptions)))
  /\ exists segs,
      calls (fst (report stopOptions 6 crossingClassified
                    (fst (classify stopOptions 6 (atCrossing stopOptions)))))
      = calls (fst (classify stopOptions 6 (atCrossing stopOptions)))
        ++ [CallOnFound 6 segs].
Proof.
  split; [apply run_by_value; vm_compute; reflexivity|].
  split; [apply run_by_value; vm_compute; reflexivity|].
  apply (stop_skips_the_rest_of_the_event stopOptions 6 (atCrossing stopOptions)
           (fst (classify stopOptions 6 (atCrossing stopOptions))) crossingClassified).
  - apply run_by_value. vm_compute. reflexivity.
  - apply run_by_value. vm_compute. reflexivity.
Defined.

(** C5 as stated fails: at the crossing of A and B the handler returns true
    and [handleEventPoint] returns at once.  The only calls it has made are
    the query of the status and the call of the handler; A and B are still
    in the status in the order they had above the crossing, where handling
    the event to its end (as with the default handler) swaps them. *)
Lemma stop_skips_the_rest_of_the_event_counterexample :
  snd (handleEventPoint stopOptions 6 (atCrossing stopOptions)) = Ok (Some true)
  /\ calls (fst (handleEventPoint stopOptions 6 (atCrossing stopOptions)))
     = calls (atCrossing stopOptions)
       ++ [CallFindSegmentsWithPoint 6; CallOnFound 6 6]
  /\ rs_segs (sweepStatus (fst (handleEventPoint stopOptions 6 (atCrossing stopOptions))))
     = [0; 1]%nat
  /\ calls (fst (handleEventPoint noOptions 6 (atCrossing noOptions)))
     = calls (atCrossing noOptions)
       ++ [CallFindSegmentsWithPoint 6; CallOnFound 6 6; CallDeleteSegments 0 4 6;
           CallInsertSegments 4 0 6; CallGetBoundarySegments 0 4]
  /\ rs_segs (sweepStatus (fst (handleEventPoint noOptions 6 (atCrossing noOptions))))
     = [1; 0]%nat.
Proof. vm_compute. repeat split; reflexivity. Qed.



(** C3, on the three segments. *)
Lemma step_until_false_is_run_witness :
  noOptions ≫= opt_onFound = None
  /\ stepUntilFalse noOptions 20 (fst (isect noOptions crossingHeap [0; 1; 2]%nat tt))
     = option_map (fun '(d', r) => (d', outcomeOnly r))
                  (run noOptions 20 (fst (isect noOptions crossingHeap [0; 1; 2]%nat tt)))
  /\ (forall d' v,
        run noOptions 20 (fst (isect noOptions crossingHeap [0; 1; 2]%nat tt))
        = Some (d', Ok v) ->
        v = Some (results d')).
Proof.
  split; [reflexivity|].
  apply (step_until_false_is_run noOptions crossingHeap [0; 1; 2]%nat tt 20).
  reflexivity.
Defined.

(** Both end, after the same nine events, with the same three results. *)
Example step_until_false_and_run_end :
  option_map (fun r => (results (fst r), snd r))
             (stepUntilFalse noOptions 20 (crossing noOptions))
  = Some ([mkResult 6 6; mkResult 7 9; mkResult 8 12], Ok tt)
  /\ option_map (fun r => (results (fst r), snd r))
                (run noOptions 20 (crossing noOptions))
     = Some ([mkResult 6 6; mkResult 7 9; mkResult 8 12],
             Ok (Some [mkResult 6 6; mkResult 7 9; mkResult 8 12])).
Proof. vm_compute. split; reflexivity. Qed.



Example probe_inserts_the_crossing :
  insertCalls (calls (fst (findNewEvent noOptions (Some 0%nat) (Some 1%nat) 2
                             (crossing noOptions))))
  = insertCalls (calls (crossing noOptions)) ++ [6%nat]
  /\ points (heap (fst (findNewEvent noOptions (Some 0%nat) (Some 1%nat) 2
                          (crossing noOptions)))) !! 6%nat
     = Some (mkPoint 5 5).
Proof. vm_compute. split; reflexivity. Qed.

(** C6: the first of the three crossing segments after its [addSegment],
    and after the [addSegment] of the second one, which shares no point
    with it. *)
Lemma canonical_orientation_invariant_witness :
  addSegment noOptions 0 (newDriver crossingHeap tt) = (crossingFirst, Ok tt)
  /\ canonicalAt (heap crossingFirst) 0
  /\ segments (heap crossingFirst) !! 0%nat
     = Some (mkSegment 0 1 (Some (10 - 0)%Q) (Some (0 - 10)%Q)
               (Some (angle (10 - 0) (0 - 10))%Q))
  /\ segments (heap crossingFirst) !! 1%nat = Some (mkSegment 2 3 None None None)
  /\ canonicalAt (heap (fst (addSegment noOptions 1 crossingFirst))) 0.
Proof.
  assert (H0 : canonicalAt (heap crossingFirst) 0).
  { apply (proj1 (canonical_orientation_invariant noOptions) 0%nat
                 (newDriver crossingHeap tt) crossingFirst).
    unfold crossingFirst. apply run_by_value. vm_compute. reflexivity. }
  split; [unfold crossingFirst; apply run_by_value; vm_compute; reflexivity|].
  split; [exact H0|].
  split; [vm_compute; reflexivity|].
  split; [vm_compute; reflexivity|].
  apply (proj2 (proj2 (proj2 (proj2 (canonical_orientation_invariant noOptions))))
           0%nat 1%nat crossingFirst
           (mkSegment 0 1 (Some (10 - 0)%Q) (Some (0 - 10)%Q)
              (Some (angle (10 - 0) (0 - 10))%Q))
           (mkSegment 2 3 None None None));
    first [exact H0 | vm_compute; reflexivity | cbn; lia].
Defined.

(** C6 as stated fails: [addSegment] of the second segment snaps the y of
    the shared vertex to 1.000005, so that the first segment, which
    satisfied the invariant, now has its [from] below its [to] and a [dy]
    that is no longer that of its endpoints. *)
Lemma canonical_orientation_invariant_counterexample :
  canonicalAt (heap sharedFirst) 0
  /\ snd (addSegment noOptions 1 sharedFirst) = Ok tt
  /\ segments (heap sharedBoth) !! 0%nat
     = Some (mkSegment 0 1 (Some (1 - 1)%Q) (Some (0 - 1)%Q)
               (Some (angle (1 - 1) (0 - 1))%Q))
  /\ points (heap sharedBoth) !! 0%nat = Some (mkPoint 0 1)
  /\ points (heap sharedBoth) !! 1%nat = Some (mkPoint 1 (1000005 # 1000000))
  /\ (1 < 1000005 # 1000000)%Q
  /\ ~ canonicalAt (heap sharedBoth) 0.
Proof.
  split.
  { apply (addSegment_establishes noOptions 0%nat (newDriver sharedHeap tt) sharedFirst).
    unfold sharedFirst. apply run_by_value. vm_compute. reflexivity. }
  split; [vm_compute; reflexivity|].
  split; [vm_compute; reflexivity|].
  split; [vm_compute; reflexivity|].
  split; [vm_compute; reflexivity|].
  split; [reflexivity|].
  intros (seg & pf & pt & Hs & Hpf & Hpt & _ & _ & _ & Hor).
  vm_compute in Hs. injection Hs as <-.
  vm_compute in Hpf. injection Hpf as <-.
  vm_compute in Hpt. injection Hpt as <-.
  destruct Hor as [H|[H _]].
  - intros [H _]. vm_compute in H. discriminate.
  - vm_compute in H. discriminate.
  - vm_compute in H. discriminate.
Qed.

(** C7: the second copy finds the first one in the list of the event of
    (0,10), and the handler is called at (0,10) and at (10,0). *)
Lemma identical_segment_is_reported_twice_witness :
  canonicalize 1 twiceFirst = (fst (canonicalize 1 twiceFirst), Ok twiceCanonical)
  /\ eq_find (heap (fst (canonicalize 1 twiceFirst))) 2
             (eventQueue (fst (canonicalize 1 twiceFirst)))
     = Some 0%nat
  /\ arrays (heap (fst (canonicalize 1 twiceFirst))) !! 1%nat = Some [SegRef 0]
  /\ exists s sg a1 a2,
      SegRef s ∈ [SegRef 0] /\
      comparable (heap (fst (canonicalize 1 twiceFirst))) (mkPoint 10 0) (SegRef s) true /\
      segments (heap (fst (canonicalize 1 twiceFirst))) !! s = Some sg /\
      snd (addSegment noOptions 1 twiceFirst) = Ok tt /\
      foundCalls (calls (fst (addSegment noOptions 1 twiceFirst)))
      = foundCalls (calls twiceFirst) ++ [(from sg, a1); (to sg, a2)] /\
      arrays (heap (fst (canonicalize 1 twiceFirst))) !! a1 = None /\
      arrays (heap (fst (canonicalize 1 twiceFirst))) !! a2 = None /\
      arrays (heap (fst (addSegment noOptions 1 twiceFirst))) !! a1
      = Some [PointRef (from sg); PointRef (to sg)] /\
      arrays (heap (fst (addSegment noOptions 1 twiceFirst))) !! a2
      = Some [PointRef (from sg); PointRef (to sg)] /\
      insertCalls (calls (fst (addSegment noOptions 1 twiceFirst)))
      = insertCalls (calls twiceFirst) /\
      eventQueue (fst (addSegment noOptions 1 twiceFirst)) = eventQueue twiceFirst /\
      arrays (heap (fst (addSegment noOptions 1 twiceFirst))) !! 1%nat = Some [SegRef 0] /\
      events (heap (fst (addSegment noOptions 1 twiceFirst))) = events (heap twiceFirst) /\
      sweepStatus (fst (addSegment noOptions 1 twiceFirst)) = sweepStatus twiceFirst.
Proof.
  assert (Hcmp : comparable (heap (fst (canonicalize 1 twiceFirst))) (mkPoint 10 0)
                            (SegRef 0) true).
  { exists 0%nat, (mkSegment 0 1 (Some (10 - 0)%Q) (Some (0 - 10)%Q)
                     (Some (angle (10 - 0) (0 - 10))%Q)), (mkPoint 10 0).
    repeat split; vm_compute; reflexivity. }
  split; [apply run_by_value; vm_compute; reflexivity|].
  split; [vm_compute; reflexivity|].
  split; [vm_compute; reflexivity|].
  apply (identical_segment_is_reported_twice noOptions 1%nat twiceFirst
           (fst (canonicalize 1 twiceFirst)) twiceCanonical 0%nat
           (mkSweepEvent 0 (Some 1%nat) false) 1%nat [SegRef 0] (mkPoint 10 0)).
  - apply run_by_value. vm_compute. reflexivity.
  - reflexivity.
  - vm_compute. reflexivity.
  - vm_compute. reflexivity.
  - reflexivity.
  - vm_compute. reflexivity.
  - vm_compute. reflexivity.
  - apply Forall_cons. split; [exists true; exact Hcmp | apply Forall_nil; exact I].
  - apply Exists_cons_hd. exact Hcmp.
Defined.

Example identical_segment_calls :
  foundCalls (calls (fst (addSegment noOptions 1 twiceFirst))) = [(0%nat, 2%nat); (1%nat, 3%nat)]
  /\ insertCalls (calls (fst (addSegment noOptions 1 twiceFirst))) = [0%nat; 1%nat]
  /\ arrays (heap (fst (addSegment noOptions 1 twiceFirst)))
     = [[]; [SegRef 0]; [PointRef 0; PointRef 1]; [PointRef 0; PointRef 1]].
Proof. vm_compute. repeat split; reflexivity. Qed.

(** C8: the segment of length zero gives one event, with no list. *)
Lemma point_segment_adds_one_event_witness :
  canonicalize 0 (newDriver (U:=unit) pointHeap tt)
  = (fst (canonicalize 0 (newDriver (U:=unit) pointHeap tt)), Ok (mkCanonical 0 1 true))
  /\ snd (addSegment noOptions 0 (newDriver pointHeap tt)) = Ok tt
  /\ insertCalls (calls (fst (addSegment noOptions 0 (newDriver pointHeap tt))))
     = insertCalls (calls (newDriver (U:=unit) pointHeap tt))
       ++ [length (events (heap (newDriver (U:=unit) pointHeap tt)))]
  /\ events (heap (newDriver (U:=unit) pointHeap tt))
       !! length (events (heap (newDriver (U:=unit) pointHeap tt))) = None
  /\ events (heap (fst (addSegment noOptions 0 (newDriver pointHeap tt))))
       !! length (events (heap (newDriver (U:=unit) pointHeap tt)))
     = Some (mkSweepEvent 1 None false)
  /\ eventQueue (fst (addSegment noOptions 0 (newDriver pointHeap tt)))
     = eq_insert (heap (fst (addSegment noOptions 0 (newDriver pointHeap tt))))
                 (length (events (heap (newDriver (U:=unit) pointHeap tt))))
                 (eventQueue (newDriver (U:=unit) pointHeap tt))
  /\ foundCalls (calls (fst (addSegment noOptions 0 (newDriver pointHeap tt))))
     = foundCalls (calls (newDriver (U:=unit) pointHeap tt))
  /\ sweepStatus (fst (addSegment noOptions 0 (newDriver pointHeap tt)))
     = sweepStatus (newDriver (U:=unit) pointHeap tt).
Proof.
  split; [apply run_by_value; vm_compute; reflexivity|].
  apply (point_segment_adds_one_event noOptions 0%nat (newDriver pointHeap tt)
           (fst (canonicalize 0 (newDriver (U:=unit) pointHeap tt)))
           (mkCanonical 0 1 true) (mkPoint 3 3) (mkPoint 3 3)).
  - apply run_by_value. vm_compute. reflexivity.
  - vm_compute. reflexivity.
  - vm_compute. reflexivity.
  - reflexivity.
  - reflexivity.
Defined.

(** C8 as stated fails: the endpoints of this segment are the same point
    within the tolerance, and [addSegment] inserts two events, the first of
    them with the segment in its list of starting segments. *)
Lemma point_segment_adds_one_event_counterexample :
  samePoint (mkPoint 1 1) (mkPoint (2000000001 # 2000000000) 1) = true
  /\ snd (addSegment noOptions 0 (newDriver nearHeap tt)) = Ok tt
  /\ points (heap (fst (addSegment noOptions 0 (newDriver nearHeap tt))))
     = [mkPoint 1 1; mkPoint (2000000001 # 2000000000) 1]
  /\ insertCalls (calls (fst (addSegment noOptions 0 (newDriver nearHeap tt))))
     = [0%nat; 1%nat]
  /\ events (heap (fst (addSegment noOptions 0 (newDriver nearHeap tt))))
     = [mkSweepEvent 0 (Some 1%nat) false; mkSweepEvent 1 None false]
  /\ arrays (heap (fst (addSegment noOptions 0 (newDriver nearHeap tt)))) !! 1%nat
     = Some [SegRef 0].
Proof. vm_compute. repeat split; reflexivity. Qed.

(** The scenarios of the specification. *)
Example three_segments_through_one_point :
  reported (run noOptions 20 (fst (isect noOptions starHeap [0; 1; 2]%nat tt)))
  = Some [(Some (mkPoint 5 5), Some [SegRef 0; SegRef 1; SegRef 2])].
Proof. vm_compute. reflexivity. Qed.

Example two_segments_sharing_an_endpoint :
  reported (run noOptions 20 (fst (isect noOptions veeHeap [0; 1]%nat tt)))
  = Some [(Some (mkPoint 5 5), Some [SegRef 0; SegRef 1])].
Proof. vm_compute. reflexivity. Qed.

Example two_segments_apart :
  reported (run noOptions 20 (fst (isect noOptions apartHeap [0; 1]%nat tt))) = Some [].
Proof. vm_compute. reflexivity. Qed.

End Scenarios.
(* ====================================================================== *)
(** ** Relations that every step of a computation follows *)
(* ====================================================================== *)

Module FrameFacts.

Import Sweep Reference Spec Views SweepFacts.
Local Open Scope list_scope.

Section Follows.

Context {geom : Geom} {queue : EventQueue} {status : SweepStatus} {U : Type}.
Variable options : option (ISectOptions U).

Implicit Types d : Driver (U:=U).
Abbreviation M := (Sweep.M (U:=U)).

Context (R : Driver (U:=U) -> Driver (U:=U) -> Prop) `{!PreOrder R}.

Lemma follows_ret {A} (a : A) : follows R (mret a : M A).
Proof. intros d. reflexivity. Qed.

Lemma follows_throw {A} (e : Exn) : follows R (throw (A:=A) e).
Proof. intros d. reflexivity. Qed.

Lemma follows_get : follows R get.
Proof. intros d. reflexivity. Qed.

Lemma follows_deref {A} (o : option A) : follows R (deref o).
Proof. intros d. destruct o; reflexivity. Qed.

Lemma follows_modify (f : Driver -> Driver) :
  (forall d, R d (f d)) -> follows R (modify f).
Proof. intros H d. apply H. Qed.

Lemma follows_bind {A B} (m : M A) (f : A -> M B) :
  follows R m -> (forall a, follows R (f a)) -> follows R (m ≫= f).
Proof.
  intros Hm Hf d. rewrite bind_run. specialize (Hm d).
  destruct (m d) as [d' [a|e]]; simpl in *; [|exact Hm].
  etransitivity; [exact Hm | apply Hf].
Qed.

Lemma follows_forEach {A} (f : A -> M unit) (l : list A) :
  (forall a, follows R (f a)) -> follows R (forEach f l).
Proof.
  intros Hf. induction l as [|a l IH]; simpl.
  - apply follows_ret.
  - apply follows_bind; [apply Hf | intros _; exact IH].
Qed.

Lemma follows_of_keeps {A X} (π : Driver (U:=U) -> X) (m : M A) :
  (forall d d', π d' = π d -> R d d') -> keeps π m -> follows R m.
Proof. intros H K d. apply H, K. Qed.

Lemma follows_runStatus {A} (o : Outcome SS A) :
  (forall s d, R d (set_sweepStatus s d)) ->
  (forall msg, follows R (onError options msg)) ->
  follows R (runStatus options o).
Proof.
  intros Hs He. induction o as [s a|msg s k IH]; simpl.
  - apply follows_bind; [apply follows_modify; intros; apply Hs | intros; apply follows_ret].
  - apply follows_bind; [apply follows_modify; intros; apply Hs | intros].
    apply follows_bind; [apply He | intros; exact IH].
Qed.

(** [run] follows what [popAndHandle] follows. *)
Lemma follows_run fuel d d' r :
  follows R (popAndHandle options) ->
  run options fuel d = Some (d', r) -> R d d'.
Proof.
  intros Hp. revert d. induction fuel as [|fuel IH]; intros d H; [discriminate|].
  cbn [run] in H. destruct (eq_isEmpty (eventQueue d)).
  - injection H as <- _. reflexivity.
  - specialize (Hp d). destruct (popAndHandle options d) as [d1 [w|e]]; simpl in Hp.
    + destruct (truthy w).
      * injection H as <- _. exact Hp.
      * etransitivity; [exact Hp | apply IH, H].
    + injection H as <- _. exact Hp.
Qed.

End Follows.

(** The head constant of a term. *)
Ltac head_of t :=
  lazymatch t with
  | ?f _ => head_of f
  | _ => t
  end.

(** [follows_with leaf side]: decomposes a goal [follows R m] along the
    structure of [m]; [leaf] is tried first on every computation, [side]
    proves that an update or the reading of a view yields related states. *)
Ltac follows_with leaf side :=
  intros;
  repeat first
    [ solve [leaf]
    | lazymatch goal with
      | |- follows _ (mbind _ _) => apply follows_bind; [exact _ | | intros]
      | |- follows _ (mret _) => apply follows_ret; exact _
      | |- follows _ (throw _) => apply follows_throw; exact _
      | |- follows _ get => apply follows_get; exact _
      | |- follows _ (deref _) => apply follows_deref; exact _
      | |- follows _ (modify _) => apply follows_modify; solve [side]
      | |- follows _ (forEach _ _) => apply follows_forEach; [exact _ | intros]
      | |- follows _ (runStatus _ _) =>
          apply follows_runStatus; [exact _ | solve [side] | intros]
      | |- follows _ (match ?x with _ => _ end) => destruct x
      | |- follows _ (let _ := _ in _) => cbv zeta
      | |- follows _ ?m => let h := head_of m in progress unfold h
      end ].

(** The variant of [keeps_auto] for a view whose side conditions [side]
    proves. *)
Ltac keeps_with side :=
  intros;
  repeat first
    [ apply keeps_ret
    | apply keeps_throw
    | apply keeps_get
    | apply keeps_deref
    | apply keeps_modify; solve [side]
    | solve [eauto with keeps]
    | apply keeps_forEach; intros
    | apply keeps_runStatus; [solve [side] | intros]
    | apply keeps_bind; [|intros]
    | match goal with
      | |- keeps _ (match ?x with _ => _ end) => destruct x
      end
    | progress autounfold with driver ].

Section Grow.

Context {geom : Geom} {queue : EventQueue} {status : SweepStatus} {U : Type}.
Variable options : option (ISectOptions U).

#[global] Instance eventsGrow_preorder : PreOrder (eventsGrow (U:=U)).
Proof.
  split.
  - intros d e ev H. exact H.
  - intros d1 d2 d3 H1 H2 e ev H. apply H2, H1, H.
Qed.

Lemma eventsGrow_same (d d' : Driver (U:=U)) :
  events (heap d') = events (heap d) -> eventsGrow d d'.
Proof. intros E e ev H. rewrite E. exact H. Qed.

Lemma allocEvent_grows v : follows eventsGrow (allocEvent (U:=U) v).
Proof. intros d e ev H. cbn. apply lookup_snoc_old, H. Qed.

End Grow.

(** Computations that write to no event, but may make new ones. *)
Ltac grows_side :=
  intros; first [ apply eventsGrow_same; reflexivity ].

Ltac grows_leaf :=
  lazymatch goal with
  | |- follows _ (allocEvent _) => apply allocEvent_grows
  end.

Ltac grows_auto := follows_with ltac:(idtac; grows_leaf) ltac:(idtac; grows_side).

Section GrowFacts.

Context {geom : Geom} {queue : EventQueue} {status : SweepStatus} {U : Type}.
Variable options : option (ISectOptions U).

Lemma findNewEvent_grows l r p : follows eventsGrow (findNewEvent options l r p).
Proof. grows_auto. Qed.

Lemma updateAndProbe_grows p c : follows eventsGrow (updateAndProbe options p c).
Proof. grows_auto. Qed.

End GrowFacts.

End FrameFacts.
(* ====================================================================== *)
(** ** Further properties of the comparison helpers *)
(* ====================================================================== *)

Module HelperFacts.

Import Comparable Views ComparableFacts.

Lemma num_le_total (p q : Q) :
  negb (Qle_bool p q) || Qeq_bool q p = Qle_bool q p.
Proof.
  apply eq_true_iff_eq.
  rewrite orb_true_iff, negb_true_iff, Qeq_bool_iff, Qle_bool_iff.
  split.
  - intros [H|H]; [|rewrite H; apply Qle_refl].
    destruct (Qlt_le_dec q p) as [L|L]; [apply Qlt_le_weak, L|].
    apply Qle_bool_iff in L. congruence.
  - intros H. destruct (Qle_bool p q) eqn:E; [right | left; reflexivity].
    apply Qle_bool_iff in E. apply Qle_antisym; assumption.
Qed.

Section Helpers.

Context {Obj : Type}.
Variable comparableFlag : Obj -> bool.
Variable m_lessThan : Obj -> Value Obj -> bool.
Variable m_lessThanOrEqual m_greaterThan m_greaterThanOrEqual
  : Obj -> option (Value Obj -> bool).
Variable equality : Value Obj -> Value Obj -> bool.
Variable toPrimitive : Obj -> Completion Prim.
Variable toNumber : string -> Number.
Variable toBigInt : string -> option Z.

Abbreviation lt :=
  (lessThan comparableFlag m_lessThan toPrimitive toNumber toBigInt).
Abbreviation le :=
  (lessThanOrEqual comparableFlag m_lessThan m_lessThanOrEqual equality
                   toPrimitive toNumber toBigInt).
Abbreviation gt :=
  (greaterThan comparableFlag m_lessThan m_lessThanOrEqual m_greaterThan equality
               toPrimitive toNumber toBigInt).
Abbreviation ge :=
  (greaterThanOrEqual comparableFlag m_lessThan m_greaterThanOrEqual
                      toPrimitive toNumber toBigInt).

(** X1.  For two flagged operands of which the left one implements [lessThan]
    only, the three other helpers are derived from its [lessThan] and from
    [equality], and none throws: [lessThanOrEqual] is their disjunction,
    [greaterThan] the negation of that, and [greaterThanOrEqual] the negation
    of [lessThan]; so exactly one of [lessThanOrEqual] and [greaterThan]
    holds, and exactly one of [lessThan] and [greaterThanOrEqual]. *)
Theorem lessThan_alone_derives_the_others (o : Obj) (rhs : Value Obj) :
  comparableFlag o = true ->
  flag comparableFlag rhs = true ->
  m_lessThanOrEqual o = None ->
  m_greaterThan o = None ->
  m_greaterThanOrEqual o = None ->
  lt (VObj o) rhs = Normal (m_lessThan o rhs)
  /\ le (VObj o) rhs = Normal (m_lessThan o rhs || equality (VObj o) rhs)
  /\ gt (VObj o) rhs = andThen (le (VObj o) rhs) (fun b => Normal (negb b))
  /\ ge (VObj o) rhs = andThen (lt (VObj o) rhs) (fun b => Normal (negb b))
  /\ gt (VObj o) rhs = Normal (negb (m_lessThan o rhs || equality (VObj o) rhs))
  /\ ge (VObj o) rhs = Normal (negb (m_lessThan o rhs))
  /\ (gt (VObj o) rhs = Normal true -> ge (VObj o) rhs = Normal true).
Proof.
  intros Hl Hr Hle Hgt Hge.
  assert (Hn : nullish rhs = false).
  { destruct rhs as [p|o']; [discriminate Hr | reflexivity]. }
  unfold greaterThan, greaterThanOrEqual, lessThanOrEqual, lessThan,
    bothFlagged, readFlag.
  cbn [flag nullish optional andThen]. rewrite Hl, Hn. cbn [andThen].
  rewrite Hr, Hle, Hgt, Hge. cbn [andThen].
  repeat (split; [reflexivity|]).
  destruct (m_lessThan o rhs); [discriminate | reflexivity].
Qed.

(** X2.  On two plain numbers no helper throws, and [lessThan],
    [lessThanOrEqual] and [greaterThanOrEqual] are the operators [<], [<=]
    and [>=]: all are false when an operand is [NaN] (as is [greaterThan]),
    and otherwise [greaterThanOrEqual a b] is the negation of [lessThan a b]
    and [lessThanOrEqual a b] the negation of [lessThan b a]. *)
Theorem helpers_on_plain_numbers (a b : Number) :
  ge (VNum a) (VNum b) = le (VNum b) (VNum a)
  /\ lt (VNum a) (VNum b) = Normal (num_lt a b)
  /\ (a = NaN \/ b = NaN ->
      lt (VNum a) (VNum b) = Normal false /\ le (VNum a) (VNum b) = Normal false
      /\ gt (VNum a) (VNum b) = Normal false
      /\ ge (VNum a) (VNum b) = Normal false)
  /\ (a <> NaN -> b <> NaN ->
      ge (VNum a) (VNum b)
      = andThen (lt (VNum a) (VNum b)) (fun r => Normal (negb r))
      /\ le (VNum a) (VNum b)
         = andThen (lt (VNum b) (VNum a)) (fun r => Normal (negb r))).
Proof.
  unfold greaterThanOrEqual, greaterThan, lessThanOrEqual, lessThan,
    js_ge, js_gt, js_le, js_lt.
  cbn.
  split; [reflexivity|]. split; [reflexivity|]. split.
  - intros [Hn|Hn]; subst; repeat split; try (rewrite num_lt_irrefl; reflexivity);
      first [destruct b; reflexivity | destruct a; reflexivity].
  - intros Ha Hb.
    destruct a as [p| | |], b as [q| | |]; try congruence;
      cbn [num_lt num_eq negb orb]; try (split; reflexivity).
    rewrite negb_involutive, !negb_involutive.
    split; f_equal; apply num_le_total.
Qed.

End Helpers.

(** Natural numbers as [Comparable] objects: 2 and 5. *)
Lemma lessThan_alone_derives_the_others_witness :
  lessThan natFlag natLessThan natToPrimitive natToNumber natToBigInt
    (VObj 2%nat) (VObj 5%nat) = Normal true
  /\ lessThanOrEqual natFlag natLessThan natOptional natEquality natToPrimitive
       natToNumber natToBigInt (VObj 2%nat) (VObj 5%nat) = Normal true
  /\ greaterThan natFlag natLessThan natOptional natOptional natEquality
       natToPrimitive natToNumber natToBigInt (VObj 2%nat) (VObj 5%nat)
     = Normal false
  /\ greaterThanOrEqual natFlag natLessThan natOptional natToPrimitive natToNumber
       natToBigInt (VObj 2%nat) (VObj 5%nat) = Normal false.
Proof.
  destruct (lessThan_alone_derives_the_others natFlag natLessThan natOptional
              natOptional natOptional natEquality natToPrimitive natToNumber
              natToBigInt 2%nat (VObj 5%nat)
              eq_refl eq_refl eq_refl eq_refl eq_refl)
    as (H1 & H2 & _ & _ & H3 & H4 & _).
  rewrite H3, H4, H2, H1. repeat split; reflexivity.
Defined.

(** 3 and 1, and 3 and [NaN]. *)
Lemma helpers_on_plain_numbers_witness :
  greaterThanOrEqual natFlag natLessThan natOptional natToPrimitive natToNumber
    natToBigInt (VNum (Finite 3)) (VNum (Finite 1))
  = andThen (lessThan natFlag natLessThan natToPrimitive natToNumber natToBigInt
               (VNum (Finite 3)) (VNum (Finite 1)))
            (fun r => Normal (negb r))
  /\ lessThanOrEqual natFlag natLessThan natOptional natEquality natToPrimitive
       natToNumber natToBigInt (VNum (Finite 3)) (VNum NaN) = Normal false
  /\ greaterThanOrEqual natFlag natLessThan natOptional natToPrimitive natToNumber
       natToBigInt (VNum (Finite 3)) (VNum NaN) = Normal false.
Proof.
  split.
  - apply (proj2 (proj2 (proj2 (helpers_on_plain_numbers natFlag natLessThan
                           natOptional natOptional natOptional natEquality
                           natToPrimitive natToNumber natToBigInt
                           (Finite 3) (Finite 1))))); discriminate.
  - pose proof (proj1 (proj2 (proj2 (helpers_on_plain_numbers natFlag natLessThan
                  natOptional natOptional natOptional natEquality natToPrimitive
                  natToNumber natToBigInt (Finite 3) NaN))) (or_intror eq_refl))
      as H.
    split; apply H.
Defined.

End HelperFacts.
(* ====================================================================== *)
(** ** Properties of [byY] and [roundNearZero] *)
(* ====================================================================== *)

Module ComparatorFacts.

Import Sweep Reference Spec Views SweepFacts ProbeFacts.
Local Open Scope list_scope.
Local Open Scope Q_scope.

Lemma Qabs_lt_iff (a e : Q) : Qabs a < e <-> - e < a /\ a < e.
Proof. apply Qabs_Qlt_condition. Qed.

Lemma Qabs_ge_iff (a e : Q) : e <= Qabs a <-> a <= - e \/ e <= a.
Proof.
  destruct (Qlt_le_dec a 0) as [L|L].
  - rewrite (Qabs_neg a) by lra. split; [intros H; left; lra | intros [H|H]; lra].
  - rewrite (Qabs_pos a) by lra. split; [intros H; right; lra | intros [H|H]; lra].
Qed.

Section Comparator.

Context {geom : Geom}.

Lemma byY_cases (a b : Point) :
  (Qabs (y b - y a) < EPS /\ Qabs (x a - x b) < EPS /\ byY a b = 0)
  \/ (Qabs (y b - y a) < EPS /\ EPS <= Qabs (x a - x b) /\ byY a b = x a - x b)
  \/ (EPS <= Qabs (y b - y a) /\ byY a b = y b - y a).
Proof.
  unfold byY. cbn zeta.
  destruct (Qabs (y b - y a) <? EPS) eqn:E1.
  - apply Qlt_bool_iff in E1.
    destruct (Qabs (x a - x b) <? EPS) eqn:E2.
    + apply Qlt_bool_iff in E2. left. repeat split; assumption.
    + apply Qlt_bool_false_iff in E2. right. left. repeat split; assumption.
  - apply Qlt_bool_false_iff in E1. right. right. split; [assumption | reflexivity].
Qed.

Lemma byY_zero_iff (a b : Point) :
  0 < EPS ->
  byY a b == 0 <-> Qabs (y a - y b) < EPS /\ Qabs (x a - x b) < EPS.
Proof.
  intros He. rewrite !Qabs_lt_iff.
  destruct (byY_cases a b) as [(H1 & H2 & ->)|[(H1 & H2 & ->)|(H1 & ->)]];
    rewrite ?Qabs_lt_iff, ?Qabs_ge_iff in *.
  - split; [intros _; lra | reflexivity].
  - split; [intros H; lra | intros H; lra].
  - split; [intros H; lra | intros H; lra].
Qed.

Lemma byY_negative_iff (a b : Point) :
  0 < EPS ->
  byY a b < 0
  <-> EPS <= y a - y b \/ (Qabs (y a - y b) < EPS /\ EPS <= x b - x a).
Proof.
  intros He. rewrite !Qabs_lt_iff.
  destruct (byY_cases a b) as [(H1 & H2 & ->)|[(H1 & H2 & ->)|(H1 & ->)]];
    rewrite ?Qabs_lt_iff, ?Qabs_ge_iff in *.
  - split; [intros H; lra | intros [H|H]; lra].
  - split; [intros H; right; lra | intros [H|H]; lra].
  - split; [intros H; left; lra | intros [H|H]; lra].
Qed.

(** X3.  Exchanging the two points negates the value of the comparator. *)
Theorem byY_is_antisymmetric (a b : Point) : byY a b == - byY b a.
Proof.
  destruct (byY_cases a b) as [(H1 & H2 & ->)|[(H1 & H2 & ->)|(H1 & ->)]];
    destruct (byY_cases b a) as [(K1 & K2 & ->)|[(K1 & K2 & ->)|(K1 & ->)]];
    rewrite ?Qabs_lt_iff, ?Qabs_ge_iff in *; lra.
Qed.

(** X4.  The order of the schedule: two points have the same key exactly when
    both their coordinates differ by less than the tolerance, and [a] comes
    before [b] exactly when [a] is higher by the tolerance or more, or as high
    within the tolerance and to the left of [b] by the tolerance or more. *)
Theorem byY_orders_top_down_then_left_to_right (a b : Point) :
  0 < EPS ->
  (byY a b == 0 <-> Qabs (y a - y b) < EPS /\ Qabs (x a - x b) < EPS)
  /\ (byY a b < 0
      <-> EPS <= y a - y b \/ (Qabs (y a - y b) < EPS /\ EPS <= x b - x a)).
Proof.
  intros He. split; [apply byY_zero_iff | apply byY_negative_iff]; exact He.
Qed.

(** X5.  Having the same key is not transitive: there are three points of which
    the first and the second have the same key, the second and the third
    too, and the first comes before the third. *)
Theorem byY_ties_are_not_transitive :
  0 < EPS ->
  exists a b c : Point,
    byY a b == 0 /\ byY b c == 0 /\ byY a c < 0.
Proof.
  intros He.
  exists (mkPoint 0 0), (mkPoint ((2 # 3) * EPS) 0), (mkPoint ((4 # 3) * EPS) 0).
  rewrite !byY_zero_iff, byY_negative_iff by exact He.
  rewrite !Qabs_lt_iff. cbn [x y].
  split; [split; split; lra|]. split; [split; split; lra|].
  right. split; [split; lra | lra].
Qed.

Context {queue : EventQueue} {status : SweepStatus} {U : Type}.

Implicit Types d : Driver (U:=U).
Abbreviation M := (Sweep.M (U:=U)).

Lemma rounded_rounded (v : Point) : rounded (rounded v) = rounded v.
Proof.
  unfold rounded. cbn [x y].
  destruct (Qabs (x v) <? EPS) eqn:Ex; destruct (Qabs (y v) <? EPS) eqn:Ey;
    rewrite ?Ex, ?Ey; f_equal;
    match goal with |- (if ?c then _ else _) = _ => destruct c; reflexivity end.
Qed.

(** X6.  [roundNearZero] replaces by 0 each coordinate of the point that is
    smaller than the tolerance in absolute value and keeps the others; it
    writes to that point only, and rounding a point twice is rounding it
    once. *)
Theorem roundNearZero_clears_small_coordinates p d v :
  points (heap d) !! p = Some v ->
  exists v',
    roundNearZero p d = (set_heap (set_points (<[p := v']>)) d, Ok tt)
    /\ (x v' = 0 /\ Qabs (x v) < EPS \/ x v' = x v /\ EPS <= Qabs (x v))
    /\ (y v' = 0 /\ Qabs (y v) < EPS \/ y v' = y v /\ EPS <= Qabs (y v))
    /\ (roundNearZero p ≫= fun _ => roundNearZero p) d = roundNearZero p d.
Proof.
  intros H. exists (rounded v).
  rewrite (roundNearZero_run _ _ _ H). split; [reflexivity|].
  unfold rounded at 1 2 3 4. cbn [x y].
  split; [|split].
  - destruct (Qabs (x v) <? EPS) eqn:E.
    + left. split; [reflexivity | apply Qlt_bool_iff, E].
    + right. split; [reflexivity | apply Qlt_bool_false_iff, E].
  - destruct (Qabs (y v) <? EPS) eqn:E.
    + left. split; [reflexivity | apply Qlt_bool_iff, E].
    + right. split; [reflexivity | apply Qlt_bool_false_iff, E].
  - rewrite bind_run, (roundNearZero_run _ _ _ H).
    rewrite (roundNearZero_run _ _ (rounded v))
      by (cbn; apply list_lookup_insert_eq; eapply lookup_lt_Some, H).
    rewrite set_points_twice, rounded_rounded. reflexivity.
Qed.

End Comparator.

(** With the tolerance of the reference geometry. *)
Lemma byY_orders_top_down_then_left_to_right_witness :
  (0 < ref_EPS)
  /\ (byY (mkPoint 0 10) (mkPoint 10 0) < 0
      <-> ref_EPS <= 10 - 0 \/ (Qabs (10 - 0) < ref_EPS /\ ref_EPS <= 10 - 0)).
Proof.
  split; [reflexivity|].
  apply (proj2 (byY_orders_top_down_then_left_to_right (geom:=ref_geom)
                  (mkPoint 0 10) (mkPoint 10 0) eq_refl)).
Defined.

Lemma byY_ties_are_not_transitive_witness :
  (0 < ref_EPS)
  /\ exists a b c : Point, byY a b == 0 /\ byY b c == 0 /\ byY a c < 0.
Proof.
  split; [reflexivity|].
  apply (byY_ties_are_not_transitive (geom:=ref_geom)). reflexivity.
Defined.

(** A point whose x is within the tolerance of 0. *)
Lemma roundNearZero_clears_small_coordinates_witness :
  exists v',
    roundNearZero 0%nat (newDriver (U:=unit) nearZeroHeap tt)
    = (set_heap (set_points (<[0%nat := v']>)) (newDriver nearZeroHeap tt), Ok tt)
    /\ (x v' = 0 /\ Qabs (1 # 10000000000) < ref_EPS
        \/ x v' = (1 # 10000000000) /\ ref_EPS <= Qabs (1 # 10000000000))
    /\ (y v' = 0 /\ Qabs 7 < ref_EPS \/ y v' = 7 /\ ref_EPS <= Qabs 7)
    /\ (roundNearZero 0%nat ≫= fun _ => roundNearZero 0%nat)
         (newDriver (U:=unit) nearZeroHeap tt)
       = roundNearZero 0%nat (newDriver nearZeroHeap tt).
Proof.
  apply (roundNearZero_clears_small_coordinates (geom:=ref_geom) (queue:=ref_queue)
           (status:=ref_status) (U:=unit) 0%nat (newDriver nearZeroHeap tt)
           (mkPoint (1 # 10000000000) 7)).
  reflexivity.
Defined.

End ComparatorFacts.
(* ====================================================================== *)
(** ** Further properties of [isect], [run] and [step] *)
(* ====================================================================== *)

Module LoopFacts.

Import Sweep Reference Spec Views Examples SweepFacts RunFacts.
Local Open Scope list_scope.

Section Loop.

Context {geom : Geom} {queue : EventQueue} {status : SweepStatus} {U : Type}.
Variable options : option (ISectOptions U).

Implicit Types d : Driver (U:=U).
Abbreviation M := (Sweep.M (U:=U)).

Lemma ended_by_value {A} (o : option (Driver (U:=U) * A)) d0 (r : A) :
  option_map snd o = Some r -> o = Some (stateOf d0 o, r).
Proof. destruct o as [[d' r']|]; simpl; [intros [= ->]; reflexivity | discriminate]. Qed.

(** X7.  When [run] returns the list of results, the schedule is empty and the
    list is the [results] of the driver; the driver is then at rest: [run]
    returns the same list again and [step] returns false, both without a
    change of the state.  [run] returns [undefined] only when the client has
    given a handler [onFound]. *)
Theorem run_returns_the_results_of_an_empty_schedule d fuel d' v :
  run options fuel d = Some (d', Ok v) ->
  match v with
  | Some r =>
      eq_isEmpty (eventQueue d') = true
      /\ r = results d'
      /\ (forall fuel', run options (S fuel') d' = Some (d', Ok (Some r)))
      /\ step options d' = (d', Ok false)
  | None => options ≫= opt_onFound <> None
  end.
Proof.
  revert d. induction fuel as [|fuel IH]; intros d H; [discriminate|].
  destruct (eq_isEmpty (eventQueue d)) eqn:He.
  - rewrite (run_empty _ _ _ He) in H. injection H as <- <-.
    split; [exact He|]. split; [reflexivity|]. split.
    + intros fuel'. apply run_empty, He.
    + apply step_empty, He.
  - rewrite (run_nonempty _ _ _ He) in H.
    destruct (popAndHandle options d) as [d1 [w|e]] eqn:Hp; [|discriminate].
    destruct (truthy w) eqn:Hw; [|apply (IH _ H)].
    injection H as <- <-. intros Ho.
    rewrite (popAndHandle_default_falsy _ _ _ _ Ho Hp) in Hw. discriminate.
Qed.

(** X8.  The loop over [step] ends only when the schedule is empty, whatever the
    handler answers: a request to stop does not end it. *)
Theorem stepping_ends_with_an_empty_schedule d fuel d' :
  stepUntilFalse options fuel d = Some (d', Ok tt) ->
  eq_isEmpty (eventQueue d') = true.
Proof.
  revert d. induction fuel as [|fuel IH]; intros d H; [discriminate|].
  cbn [stepUntilFalse] in H.
  destruct (eq_isEmpty (eventQueue d)) eqn:He.
  - rewrite (step_empty _ _ He) in H. injection H as <-. exact He.
  - rewrite (step_nonempty _ _ He) in H.
    destruct (popAndHandle options d) as [d1 [w|e]]; [|discriminate].
    apply (IH _ H).
Qed.

(** X9.  [run] does what calls of [step] do: the state in which it returns,
    throws or stops at the request of the handler is the state after some
    number of calls of [step], at most one for each evaluation of the
    condition of its loop. *)
Theorem run_goes_through_the_states_of_step d fuel d' r :
  run options fuel d = Some (d', r) ->
  exists k, (k <= fuel)%nat /\ d' = steps options k d.
Proof.
  revert d. induction fuel as [|fuel IH]; intros d H; [discriminate|].
  destruct (eq_isEmpty (eventQueue d)) eqn:He.
  - rewrite (run_empty _ _ _ He) in H. injection H as <- _.
    exists 0%nat. split; [lia | reflexivity].
  - rewrite (run_nonempty _ _ _ He) in H.
    assert (Hs : fst (step options d) = fst (popAndHandle options d)).
    { rewrite (step_nonempty _ _ He).
      destruct (popAndHandle options d) as [d1 [w|e]]; reflexivity. }
    destruct (popAndHandle options d) as [d1 [w|e]]; cbn [fst] in Hs.
    + destruct (truthy w).
      * injection H as <- _. exists 1%nat. split; [lia|]. cbn [steps].
        rewrite Hs. reflexivity.
      * destruct (IH _ H) as (k & Hk & ->). exists (S k). split; [lia|].
        cbn [steps]. rewrite Hs. reflexivity.
    + injection H as <- _. exists 1%nat. split; [lia|]. cbn [steps].
      rewrite Hs. reflexivity.
Qed.

End Loop.

(** The run of the three crossing segments with the default handler. *)
Lemma run_returns_the_results_of_an_empty_schedule_witness :
  run noOptions 20 (crossing noOptions)
  = Some (crossingDone, Ok (Some [mkResult 6 6; mkResult 7 9; mkResult 8 12]))
  /\ eq_isEmpty (eventQueue crossingDone) = true
  /\ [mkResult 6 6; mkResult 7 9; mkResult 8 12] = results crossingDone
  /\ (forall fuel',
        run noOptions (S fuel') crossingDone
        = Some (crossingDone, Ok (Some [mkResult 6 6; mkResult 7 9; mkResult 8 12])))
  /\ step noOptions crossingDone = (crossingDone, Ok false).
Proof.
  assert (H : run noOptions 20 (crossing noOptions)
              = Some (crossingDone, Ok (Some [mkResult 6 6; mkResult 7 9; mkResult 8 12]))).
  { unfold crossingDone. apply ended_by_value. vm_compute. reflexivity. }
  split; [exact H|].
  apply (run_returns_the_results_of_an_empty_schedule noOptions
           (crossing noOptions) 20 crossingDone _ H).
Defined.

(** With the handler that always asks to stop, the loop over [step] goes on
    to the end of the schedule and calls the handler a second time, where
    [run] stops after the first call. *)
Lemma stepping_ends_with_an_empty_schedule_witness :
  stepUntilFalse stopOptions 20 (crossing stopOptions)
  = Some (stateOf (crossing stopOptions)
                  (stepUntilFalse stopOptions 20 (crossing stopOptions)), Ok tt)
  /\ eq_isEmpty (eventQueue (stateOf (crossing stopOptions)
                    (stepUntilFalse stopOptions 20 (crossing stopOptions)))) = true
  /\ length (foundCalls (calls (stateOf (crossing stopOptions)
                    (stepUntilFalse stopOptions 20 (crossing stopOptions))))) = 2%nat
  /\ length (foundCalls (calls (stateOf (crossing stopOptions)
                    (run stopOptions 20 (crossing stopOptions))))) = 1%nat.
Proof.
  assert (H : stepUntilFalse stopOptions 20 (crossing stopOptions)
              = Some (stateOf (crossing stopOptions)
                        (stepUntilFalse stopOptions 20 (crossing stopOptions)), Ok tt)).
  { apply ended_by_value. vm_compute. reflexivity. }
  split; [exact H|].
  split; [|split; vm_compute; reflexivity].
  apply (stepping_ends_with_an_empty_schedule stopOptions (crossing stopOptions) 20 _ H).
Defined.

(** The run that the handler stops at the crossing of A and B ends in the
    state after three calls of [step]. *)
Lemma run_goes_through_the_states_of_step_witness :
  run stopOptions 20 (crossing stopOptions)
  = Some (stateOf (crossing stopOptions) (run stopOptions 20 (crossing stopOptions)),
          Ok None)
  /\ exists k, (k <= 20)%nat
      /\ stateOf (crossing stopOptions) (run stopOptions 20 (crossing stopOptions))
         = steps stopOptions k (crossing stopOptions).
Proof.
  assert (H : run stopOptions 20 (crossing stopOptions)
              = Some (stateOf (crossing stopOptions)
                        (run stopOptions 20 (crossing stopOptions)), Ok None)).
  { apply ended_by_value. vm_compute. reflexivity. }
  split; [exact H|].
  apply (run_goes_through_the_states_of_step stopOptions (crossing stopOptions) 20 _ _ H).
Defined.

End LoopFacts.
(* ====================================================================== *)
(** ** Further properties of [handleEventPoint] and [findNewEvent] *)
(* ====================================================================== *)

Module EventFacts.

Import Sweep Reference Spec Views Examples SweepFacts HandleFacts ProbeFacts FrameFacts.
Local Open Scope list_scope.

Lemma errorCalls_app l1 l2 : errorCalls (l1 ++ l2) = errorCalls l1 ++ errorCalls l2.
Proof. apply omap_app. Qed.

Lemma statusCalls_app l1 l2 : statusCalls (l1 ++ l2) = statusCalls l1 ++ statusCalls l2.
Proof. apply List.filter_app. Qed.

(** Side conditions for the view of the calls on the status. *)
Ltac status_side :=
  intros; cbn;
  first [ reflexivity
        | rewrite statusCalls_app; cbn; rewrite app_nil_r; reflexivity ].

Ltac status_auto := keeps_with status_side.

Section Event.

Context {geom : Geom} {queue : EventQueue} {status : SweepStatus} {U : Type}.
Variable options : option (ISectOptions U).

Implicit Types d : Driver (U:=U).
Abbreviation M := (Sweep.M (U:=U)).

(** The run of the error handler. *)
Lemma onError_run msg d :
  onError options msg d
  = match options ≫= opt_onError with
    | Some f =>
        (set_user (f msg (user d)) (set_calls (fun l => l ++ [CallOnError msg]) d), Ok tt)
    | None => (set_calls (fun l => l ++ [CallOnError msg]) d, Throw (Error msg))
    end.
Proof.
  unfold onError. rewrite bind_run, log_run.
  destruct (options ≫= opt_onError); reflexivity.
Qed.

(** X10.  When a probe finds, at the rounded intersection, an event of the
    schedule that is marked as reported, it inserts nothing and calls the
    error handler once, with the message "We already reported this event.":
    the default handler throws an [Error] with that message, a handler of
    the client returns and the probe with it.  When the event found is not
    marked, the probe does nothing more. *)
Theorem findNewEvent_reports_a_reported_event_as_an_error l r p d pe pp v n :
  events (heap d) !! p = Some pe ->
  points (heap d) !! point pe = Some pp ->
  intersectSegments (heap d) l r = Some v ->
  (- EPS <= y pp - y v)%Q ->
  ((Qabs (y pp - y v) < EPS)%Q -> (x pp < x v)%Q) ->
  eq_find (heap (probed l r v d)) (length (points (heap d))) (eventQueue d) = Some n ->
  let d2 := set_calls (fun cs => cs ++ [CallFind (length (points (heap d)))])
                      (probed l r v d) in
  let d' := fst (findNewEvent options (Some l) (Some r) p d) in
  insertCalls (calls d') = insertCalls (calls d)
  /\ eventQueue d' = eventQueue d
  /\ events (heap d') = events (heap d)
  /\ if node_isReported (heap d2) n then
       errorCalls (calls d')
       = errorCalls (calls d) ++ ["We already reported this event."]
       /\ match options ≫= opt_onError with
          | Some f =>
              snd (findNewEvent options (Some l) (Some r) p d) = Ok tt
              /\ user d' = f "We already reported this event." (user d)
          | None =>
              snd (findNewEvent options (Some l) (Some r) p d)
              = Throw (Error "We already reported this event.")
          end
     else
       findNewEvent options (Some l) (Some r) p d = (d2, Ok tt).
Proof.
  intros He Hp Hi Hy Hx Hfind d2 d'. subst d'.
  rewrite (findNewEvent_run _ _ _ _ _ _ _ He Hp), Hi.
  assert (Hcond : ((y pp - y v <? - EPS)
                   || ((Qabs (y pp - y v) <? EPS) && (x v <=? x pp)))%Q = false).
  { apply orb_false_iff. split.
    - apply Qlt_bool_false_iff, Hy.
    - destruct (Qabs (y pp - y v) <? EPS)%Q eqn:E; [|reflexivity].
      apply Qlt_bool_iff in E. specialize (Hx E). cbn [andb].
      destruct (x v <=? x pp)%Q eqn:E2; [|reflexivity].
      apply Qle_bool_iff in E2. exfalso. exact (Qlt_not_le _ _ Hx E2). }
  rewrite Hcond. cbn zeta.
  change (heap (set_calls (fun cs => cs ++ [CallFind (length (points (heap d)))])
                  (probed l r v d))) with (heap (probed l r v d)).
  rewrite Hfind.
  change (heap (probed l r v d)) with (heap d2).
  destruct (node_isReported (heap d2) n).
  - rewrite onError_run.
    destruct (options ≫= opt_onError) as [f|]; cbn;
      rewrite !insertCalls_app, !errorCalls_app; cbn; rewrite !app_nil_r;
      repeat split; reflexivity.
  - cbn. rewrite !insertCalls_app. cbn. rewrite !app_nil_r.
    repeat split; reflexivity.
Qed.

(** *** The calls on the sweep status *)

Lemma runStatus_keeps_status {A} (o : Outcome SS A) :
  keeps statusView (runStatus options o).
Proof. unfold statusView. status_auto. Qed.

Lemma findNewEvent_keeps_status l r p :
  keeps statusView (findNewEvent options l r p).
Proof. unfold statusView. status_auto. Qed.

Lemma report_keeps_status p c : keeps statusView (report options p c).
Proof. unfold statusView. status_auto. Qed.

Lemma status_call_logged {A} (c : Call) (o : Driver (U:=U) -> Outcome SS A) d :
  statusCalls [c] = [c] ->
  statusCalls (calls (fst ((log c;; d ← get; runStatus options (o d)) d)))
  = statusCalls (calls d) ++ [c].
Proof.
  intros Hc. rewrite bind_run, log_run, bind_run. cbn [get].
  match goal with
  | |- context [fst (runStatus options ?out ?st)] =>
      pose proof (runStatus_keeps_status out st) as K
  end.
  unfold statusView in K. rewrite K. cbn.
  rewrite statusCalls_app, Hc. reflexivity.
Qed.

Lemma findSegmentsWithPoint_logged q d :
  statusCalls (calls (fst (sweepStatus_findSegmentsWithPoint options q d)))
  = statusCalls (calls d) ++ [CallFindSegmentsWithPoint q].
Proof.
  apply (status_call_logged (CallFindSegmentsWithPoint q)
           (fun d => findSegmentsWithPoint (heap d) q (sweepStatus d)) d eq_refl).
Qed.

Lemma deleteSegments_logged l i q d :
  statusCalls (calls (fst (sweepStatus_deleteSegments options l i q d)))
  = statusCalls (calls d) ++ [CallDeleteSegments l i q].
Proof.
  apply (status_call_logged (CallDeleteSegments l i q)
           (fun d => deleteSegments (heap d) l i q (sweepStatus d)) d eq_refl).
Qed.

Lemma insertSegments_logged i u q d :
  statusCalls (calls (fst (sweepStatus_insertSegments options i u q d)))
  = statusCalls (calls d) ++ [CallInsertSegments i u q].
Proof.
  apply (status_call_logged (CallInsertSegments i u q)
           (fun d => insertSegments (heap d) i u q (sweepStatus d)) d eq_refl).
Qed.

Lemma getLeftRightPoint_logged q d :
  statusCalls (calls (fst (sweepStatus_getLeftRightPoint options q d)))
  = statusCalls (calls d) ++ [CallGetLeftRightPoint q].
Proof.
  apply (status_call_logged (CallGetLeftRightPoint q)
           (fun d => getLeftRightPoint (heap d) q (sweepStatus d)) d eq_refl).
Qed.

Lemma getBoundarySegments_logged u i d :
  statusCalls (calls (fst (sweepStatus_getBoundarySegments options u i d)))
  = statusCalls (calls d) ++ [CallGetBoundarySegments u i].
Proof.
  apply (status_call_logged (CallGetBoundarySegments u i)
           (fun d => getBoundarySegments (heap d) u i (sweepStatus d)) d eq_refl).
Qed.

Lemma classify_status p d ev :
  events (heap d) !! p = Some ev ->
  statusCalls (calls (fst (classify options p d)))
  = statusCalls (calls d) ++ [CallFindSegmentsWithPoint (point ev)].
Proof.
  intros He. unfold classify.
  rewrite bind_run, (getEvent_run _ _ _ He).
  do 3 (rewrite bind_run; cbn [modify]). rewrite bind_run.
  match goal with
  | |- context [sweepStatus_findSegmentsWithPoint options ?q ?st] =>
      pose proof (findSegmentsWithPoint_logged q st) as Hs;
      destruct (sweepStatus_findSegmentsWithPoint options q st) as [d2 [segs|e]]
  end; cbn [fst calls set_interior set_lower set_lastPoint] in Hs; [|exact Hs].
  match goal with
  | |- context [fst (?rest d2)] =>
      assert (K : keeps statusView rest) by (unfold statusView; status_auto);
      rewrite <- Hs; apply (K d2)
  end.
Qed.

Lemma updateAndProbe_status p c d d' v :
  updateAndProbe options p c d = (d', Ok v) ->
  statusCalls (calls d')
  = statusCalls (calls d)
    ++ [CallDeleteSegments (c_lower c) (c_interior c) (c_point c);
        CallInsertSegments (c_interior c) (c_upper c) (c_point c);
        if (uLength c + iLength c =? 0)%nat
        then CallGetLeftRightPoint (c_point c)
        else CallGetBoundarySegments (c_upper c) (c_interior c)].
Proof.
  intros H. unfold updateAndProbe in H.
  apply bind_ok_inv in H. destruct H as (d1 & [] & H1 & H).
  apply bind_ok_inv in H. destruct H as (d2 & [] & H2 & H).
  pose proof (deleteSegments_logged (c_lower c) (c_interior c) (c_point c) d) as S1.
  pose proof (insertSegments_logged (c_interior c) (c_upper c) (c_point c) d1) as S2.
  rewrite H1 in S1. rewrite H2 in S2. cbn [fst] in S1, S2.
  cbv zeta in H. destruct (uLength c + iLength c =? 0)%nat.
  - apply bind_ok_inv in H. destruct H as (d3 & lr & H3 & H).
    pose proof (getLeftRightPoint_logged (c_point c) d2) as S3.
    rewrite H3 in S3. cbn [fst] in S3.
    assert (E : statusCalls (calls d') = statusCalls (calls d3)).
    { destruct (left lr) as [sl|]; [|ok_inv; reflexivity].
      destruct (right lr) as [sr|]; [|ok_inv; reflexivity].
      apply bind_ok_inv in H. destruct H as (d4 & [] & H4 & H). ok_inv.
      pose proof (findNewEvent_keeps_status (Some sl) (Some sr) p d3) as K.
      rewrite H4 in K. exact K. }
    rewrite E, S3, S2, S1, <- !app_assoc. reflexivity.
  - apply bind_ok_inv in H. destruct H as (d3 & b & H3 & H).
    pose proof (getBoundarySegments_logged (c_upper c) (c_interior c) d2) as S3.
    rewrite H3 in S3. cbn [fst] in S3.
    apply bind_ok_inv in H. destruct H as (d4 & [] & H4 & H).
    apply bind_ok_inv in H. destruct H as (d5 & [] & H5 & H). ok_inv.
    pose proof (findNewEvent_keeps_status (beforeLeft b) (b_left b) p d3) as K4.
    pose proof (findNewEvent_keeps_status (b_right b) (afterRight b) p d4) as K5.
    rewrite H4 in K4. rewrite H5 in K5. unfold statusView in K4, K5. cbn [fst] in K4, K5.
    rewrite K5, K4, S3, S2, S1, <- !app_assoc. reflexivity.
Qed.

(** X11.  An event that is handled to its end makes four calls on the sweep
    status, in this order: [findSegmentsWithPoint] at the point, then
    [deleteSegments] of the lower and the interior segments, then
    [insertSegments] of the interior and the upper segments, and then
    [getLeftRightPoint] when no segment starts at or passes through the
    point, and [getBoundarySegments] otherwise. *)
Theorem handled_event_updates_the_status_in_order p d d1 c d' v :
  classify options p d = (d1, Ok c) ->
  handleEventPoint options p d = (d', Ok v) ->
  v <> Some true ->
  statusCalls (calls d')
  = statusCalls (calls d)
    ++ [CallFindSegmentsWithPoint (c_point c);
        CallDeleteSegments (c_lower c) (c_interior c) (c_point c);
        CallInsertSegments (c_interior c) (c_upper c) (c_point c);
        if (uLength c + iLength c =? 0)%nat
        then CallGetLeftRightPoint (c_point c)
        else CallGetBoundarySegments (c_upper c) (c_interior c)].
Proof.
  intros Hc H Hv.
  destruct (classify_post _ _ _ _ _ Hc) as (ev & _ & _ & _ & Hev & Hpt & _).
  pose proof (classify_status p d ev Hev) as S0. rewrite Hc in S0. cbn [fst] in S0.
  rewrite (handleEventPoint_run _ _ _ _ _ Hc) in H.
  pose proof (report_keeps_status p c d1) as Kr. unfold statusView in Kr.
  destruct (report options p c d1) as [d2 [[|]|e]]; cbn [fst] in Kr.
  - injection H as _ <-. congruence.
  - rewrite (updateAndProbe_status _ _ _ _ _ H), Kr, S0, Hpt, <- app_assoc.
    reflexivity.
  - discriminate.
Qed.

(** *** The mark of a reported event *)

(** X12.  [handleEventPoint] marks the event it handles as reported exactly when
    it reports an intersection at it; it changes neither the point nor the
    list of the event, and no other event. *)
Theorem handled_event_is_marked_when_reported p d d1 c ev :
  classify options p d = (d1, Ok c) ->
  events (heap d) !! p = Some ev ->
  events (heap (fst (handleEventPoint options p d))) !! p
  = Some (mkSweepEvent (point ev) (ev_from ev)
            (if hasIntersection c || hasPointIntersection c then true
             else isReported ev))
  /\ (hasIntersection c || hasPointIntersection c = true
      <-> reportable (uLength c) (iLength c) (lLength c))
  /\ (forall e ev',
        e <> p -> events (heap d) !! e = Some ev' ->
        events (heap (fst (handleEventPoint options p d))) !! e = Some ev').
Proof.
  intros Hc Hev.
  destruct (classify_post _ _ _ _ _ Hc)
    as (ev0 & vu & vi & vl & Hev0 & Hpt & Hup & Hvu & Hvi & Hvl & Hu & Hi & Hl).
  pose proof (classify_keeps_events options p d) as Hevents.
  rewrite Hc in Hevents. unfold eventsView in Hevents. cbn [fst] in Hevents.
  rewrite (handleEventPoint_run _ _ _ _ _ Hc).
  assert (Hev1 : events (heap d1) !! p = Some ev) by (rewrite Hevents; exact Hev).
  assert (Hlt : (p < length (events (heap d1)))%nat) by (eapply lookup_lt_Some, Hev1).
  split; [|split; [apply reportable_iff|]].
  - destruct (hasIntersection c || hasPointIntersection c) eqn:Hcond.
    + rewrite (report_run _ _ _ _ ev vu vi vl) by assumption.
      destruct (options ≫= opt_onFound) as [f|].
      * destruct (f _ _ _ _) as [u [|]].
        -- cbn. apply list_lookup_insert_eq, Hlt.
        -- apply updateAndProbe_grows. cbn. apply list_lookup_insert_eq, Hlt.
      * apply updateAndProbe_grows. cbn. apply list_lookup_insert_eq, Hlt.
    + rewrite (report_quiet _ _ _ _ Hcond). apply updateAndProbe_grows.
      destruct ev; exact Hev1.
  - intros e ev' Hne He. rewrite <- Hevents in He.
    destruct (hasIntersection c || hasPointIntersection c) eqn:Hcond.
    + rewrite (report_run _ _ _ _ ev vu vi vl) by assumption.
      destruct (options ≫= opt_onFound) as [f|].
      * destruct (f _ _ _ _) as [u [|]].
        -- cbn. rewrite list_lookup_insert_ne by congruence. exact He.
        -- apply updateAndProbe_grows. cbn.
           rewrite list_lookup_insert_ne by congruence. exact He.
      * apply updateAndProbe_grows. cbn.
        rewrite list_lookup_insert_ne by congruence. exact He.
    + rewrite (report_quiet _ _ _ _ Hcond). apply updateAndProbe_grows. exact He.
Qed.

End Event.

(** A probe of A and B, while the event of (10,10) is handled, in a state
    where the event of their crossing is in the schedule and is marked as
    reported: the default error handler throws. *)
Lemma findNewEvent_reports_a_reported_event_as_an_error_witness :
  insertCalls (calls (fst (findNewEvent noOptions (Some 0%nat) (Some 1%nat) 2
                             (markedCrossing noOptions))))
  = insertCalls (calls (markedCrossing noOptions))
  /\ errorCalls (calls (fst (findNewEvent noOptions (Some 0%nat) (Some 1%nat) 2
                               (markedCrossing noOptions))))
     = errorCalls (calls (markedCrossing noOptions))
       ++ ["We already reported this event."]
  /\ snd (findNewEvent noOptions (Some 0%nat) (Some 1%nat) 2 (markedCrossing noOptions))
     = Throw (Error "We already reported this event.").
Proof.
  pose proof (findNewEvent_reports_a_reported_event_as_an_error noOptions
                0%nat 1%nat 2%nat (markedCrossing noOptions)
                (mkSweepEvent 3 (Some 2%nat) false) (mkPoint 10 10) (mkPoint 5 5)
                6%nat) as H.
  cbv zeta in H.
  destruct H as (H1 & _ & _ & H4); try (vm_compute; reflexivity).
  - vm_compute. discriminate.
  - intros E. vm_compute in E. discriminate.
  - split; [exact H1|].
    replace (node_isReported _ _) with true in H4 by (vm_compute; reflexivity).
    exact H4.
Defined.

(** The crossing of A and B, handled with the default handler. *)
Lemma handled_event_updates_the_status_in_order_witness :
  classify noOptions 6 (atCrossing noOptions)
  = (fst (classify noOptions 6 (atCrossing noOptions)), Ok crossingClassified)
  /\ handleEventPoint noOptions 6 (atCrossing noOptions)
     = (fst (handleEventPoint noOptions 6 (atCrossing noOptions)), Ok (Some false))
  /\ statusCalls (calls (fst (handleEventPoint noOptions 6 (atCrossing noOptions))))
     = statusCalls (calls (atCrossing noOptions))
       ++ [CallFindSegmentsWithPoint 6; CallDeleteSegments 0 4 6;
           CallInsertSegments 4 0 6; CallGetBoundarySegments 0 4].
Proof.
  split; [apply run_by_value; vm_compute; reflexivity|].
  split; [apply run_by_value; vm_compute; reflexivity|].
  pose proof (handled_event_updates_the_status_in_order noOptions 6
                (atCrossing noOptions)
                (fst (classify noOptions 6 (atCrossing noOptions))) crossingClassified
                (fst (handleEventPoint noOptions 6 (atCrossing noOptions)))
                (Some false)) as H.
  cbv [crossingClassified c_point c_lower c_interior c_upper uLength iLength
       Nat.add Nat.eqb] in H.
  apply H.
  - apply run_by_value. vm_compute. reflexivity.
  - apply run_by_value. vm_compute. reflexivity.
  - discriminate.
Defined.

Lemma handled_event_is_marked_when_reported_witness :
  classify noOptions 6 (atCrossing noOptions)
  = (fst (classify noOptions 6 (atCrossing noOptions)), Ok crossingClassified)
  /\ events (heap (atCrossing noOptions)) !! 6%nat = Some (mkSweepEvent 6 None false)
  /\ events (heap (fst (handleEventPoint noOptions 6 (atCrossing noOptions)))) !! 6%nat
     = Some (mkSweepEvent 6 None true).
Proof.
  split; [apply run_by_value; vm_compute; reflexivity|].
  split; [vm_compute; reflexivity|].
  apply (proj1 (handled_event_is_marked_when_reported noOptions 6
                  (atCrossing noOptions)
                  (fst (classify noOptions 6 (atCrossing noOptions)))
                  crossingClassified (mkSweepEvent 6 None false)
                  ltac:(apply run_by_value; vm_compute; reflexivity)
                  ltac:(vm_compute; reflexivity))).
Defined.

End EventFacts.
(* ====================================================================== *)
(** ** Further properties of [addSegment] *)
(* ====================================================================== *)

Module RegisterFacts.

Import Sweep Reference Spec Views Examples SweepFacts ProbeFacts AddFacts
  FrameFacts EventFacts.
Local Open Scope list_scope.

(** A lookup in a store after some updates. *)
Ltac lookup_solve :=
  cbn [heap set_heap points set_points segments set_segments arrays set_arrays
       events set_events];
  repeat first
    [ eassumption
    | rewrite list_lookup_insert_ne by congruence
    | apply list_lookup_insert_eq; rewrite ?length_insert;
      eapply lookup_lt_Some; eassumption ].

Section Register.

Context {geom : Geom} {queue : EventQueue} {status : SweepStatus} {U : Type}.
Variable options : option (ISectOptions U).

Implicit Types d : Driver (U:=U).
Abbreviation M := (Sweep.M (U:=U)).

(** The loop of lines 286-295 when no segment of the list ends at [to_]. *)
Lemma reportIdentical_none v to_ d pt :
  points (heap d) !! to_ = Some pt ->
  Forall (fun r => comparable (heap d) pt r false) v ->
  reportIdentical options v to_ d = (d, Ok false).
Proof.
  intros Hpt Hall. induction v as [|r v IH]; [reflexivity|].
  apply Forall_cons in Hall. destruct Hall as [(s & sg & ps & -> & Hs & Hps & Hsame) Hall].
  cbn [reportIdentical].
  rewrite bind_run, (getSegment_run _ _ _ Hs).
  rewrite bind_run, (getPoint_run _ _ _ Hps).
  rewrite bind_run, (getPoint_run _ _ _ Hpt).
  rewrite Hsame. apply IH, Hall.
Qed.

Lemma eventQueue_find_run p d :
  eventQueue_find p d
  = (set_calls (fun l => l ++ [CallFind p]) d, Ok (eq_find (heap d) p (eventQueue d))).
Proof. reflexivity. Qed.

Lemma eventQueue_insert_run e d :
  eventQueue_insert e d
  = (set_eventQueue (eq_insert (heap d) e (eventQueue d))
       (set_calls (fun l => l ++ [CallInsert e]) d), Ok tt).
Proof. reflexivity. Qed.

(** X13.  A segment that is not a point and whose upper endpoint has no event in
    the schedule gets two new events, inserted in this order: the event of
    its upper endpoint, whose list is a new array that holds the segment,
    and the event of its lower endpoint, which has no list.  The handler is
    not called and the status is not touched. *)
Theorem new_upper_endpoint_adds_two_events segment d d1 k :
  canonicalize segment d = (d1, Ok k) ->
  isPoint k = false ->
  eq_find (heap d1) (k_from k) (eventQueue d1) = None ->
  let a := length (arrays (heap d)) in
  let e := length (events (heap d)) in
  let h1 :=
    set_events (fun l => l ++ [mkSweepEvent (k_from k) (Some a) false])
      (set_arrays (fun l => l ++ [[SegRef segment]]) (heap d1)) in
  let h2 := set_events (fun l => l ++ [mkSweepEvent (k_to k) None false]) h1 in
  let d' := fst (addSegment options segment d) in
  snd (addSegment options segment d) = Ok tt
  /\ heap d' = h2
  /\ insertCalls (calls d') = insertCalls (calls d) ++ [e; S e]
  /\ eventQueue d' = eq_insert h2 (S e) (eq_insert h1 e (eventQueue d))
  /\ arrays (heap d) !! a = None
  /\ arrays (heap d') !! a = Some [SegRef segment]
  /\ events (heap d') !! e = Some (mkSweepEvent (k_from k) (Some a) false)
  /\ events (heap d') !! S e = Some (mkSweepEvent (k_to k) None false)
  /\ foundCalls (calls d') = foundCalls (calls d)
  /\ sweepStatus d' = sweepStatus d.
Proof.
  intros Hcan Hk Hfind a e h1 h2 d'. subst d'.
  destruct (canonicalize_rest _ _ _ _ Hcan) as (Hc & Hq & Hs & He & Ha).
  unfold addSegment. rewrite bind_run, Hcan. unfold register.
  rewrite bind_run, eventQueue_find_run, Hfind. cbn iota.
  rewrite bind_run. change ((mret false : M bool) ?st) with (st, Ok (A:=bool) false).
  cbn iota. rewrite Hk. cbn [negb].
  unfold newSweepEvent.
  rewrite !bind_run, allocArray_run, allocEvent_run, eventQueue_insert_run.
  rewrite bind_run, allocEvent_run, eventQueue_insert_run.
  cbn. subst a e h1 h2. rewrite Ha, He, Hc, Hq, Hs.
  rewrite !insertCalls_app, !foundCalls_app. cbn. rewrite !app_nil_r.
  rewrite length_app. cbn [length]. rewrite Nat.add_1_r.
  repeat split; try reflexivity.
  - rewrite <- app_assoc. reflexivity.
  - apply lookup_ge_None. lia.
  - destruct (heap d1) as [ps ss as_ es]. cbn in *. subst. apply lookup_snoc_new.
  - destruct (heap d1) as [ps ss as_ es]. cbn in *. subst.
    apply lookup_snoc_old, lookup_snoc_new.
  - destruct (heap d1) as [ps ss as_ es]. cbn in *. subst.
    replace (S (length (events (heap d))))
      with (length (events (heap d) ++ [mkSweepEvent (k_from k)
                                          (Some (length (arrays (heap d)))) false]))
      by (rewrite length_app; cbn; lia).
    apply lookup_snoc_new.
Qed.

(** X14.  A segment that is not a point and whose upper endpoint has an event in
    the schedule with a list in which no segment has the same lower endpoint
    is pushed onto that list, which stays the same array, and gets one new
    event, for its lower endpoint. *)
Theorem segment_joins_the_event_of_its_upper_endpoint segment d d1 k n ev a v pt :
  canonicalize segment d = (d1, Ok k) ->
  isPoint k = false ->
  eq_find (heap d1) (k_from k) (eventQueue d1) = Some n ->
  events (heap d1) !! node_data n = Some ev ->
  ev_from ev = Some a ->
  arrays (heap d1) !! a = Some v ->
  points (heap d1) !! k_to k = Some pt ->
  Forall (fun r => comparable (heap d1) pt r false) v ->
  let e := length (events (heap d)) in
  let h1 :=
    set_events (fun l => l ++ [mkSweepEvent (k_to k) None false])
      (set_arrays (<[a := v ++ [SegRef segment]]>) (heap d1)) in
  let d' := fst (addSegment options segment d) in
  snd (addSegment options segment d) = Ok tt
  /\ heap d' = h1
  /\ arrays (heap d') !! a = Some (v ++ [SegRef segment])
  /\ events (heap d') !! node_data n = Some ev
  /\ insertCalls (calls d') = insertCalls (calls d) ++ [e]
  /\ eventQueue d' = eq_insert h1 e (eventQueue d)
  /\ foundCalls (calls d') = foundCalls (calls d)
  /\ sweepStatus d' = sweepStatus d.
Proof.
  intros Hcan Hk Hfind Hev Hfrom Ha Hpt Hall e h1 d'. subst d'.
  destruct (canonicalize_rest _ _ _ _ Hcan) as (Hc & Hq & Hs & He & Harr).
  unfold addSegment. rewrite bind_run, Hcan. unfold register.
  rewrite bind_run, eventQueue_find_run, Hfind. cbn iota. rewrite Hk. cbn [negb].
  rewrite !bind_run, (getEvent_run _ _ ev) by exact Hev. rewrite Hfrom.
  rewrite bind_run, (getArray_run _ _ v) by exact Ha.
  rewrite (reportIdentical_none v (k_to k) _ pt) by assumption.
  rewrite !bind_run, (getEvent_run _ _ ev) by exact Hev. rewrite Hfrom.
  rewrite bind_run, (getArray_run _ _ v) by exact Ha.
  rewrite (setArray_run _ _ v) by exact Ha.
  unfold newSweepEvent.
  rewrite bind_run, allocEvent_run, eventQueue_insert_run.
  cbn. subst e h1. rewrite He, Hc, Hq, Hs.
  rewrite !insertCalls_app, !foundCalls_app. cbn. rewrite !app_nil_r.
  repeat split; try reflexivity.
  - apply list_lookup_insert_eq. eapply lookup_lt_Some, Ha.
  - rewrite <- He. apply lookup_snoc_old, Hev.
Qed.

(** X15.  A segment that is not a point and whose upper endpoint has an event in
    the schedule that has no list: the event gets a new array that holds
    the segment and keeps its point and its mark, and one new event is
    inserted, for the lower endpoint. *)
Theorem segment_starts_the_list_of_an_event segment d d1 k n ev :
  canonicalize segment d = (d1, Ok k) ->
  isPoint k = false ->
  eq_find (heap d1) (k_from k) (eventQueue d1) = Some n ->
  events (heap d1) !! node_data n = Some ev ->
  ev_from ev = None ->
  let a := length (arrays (heap d)) in
  let e := length (events (heap d)) in
  let h1 :=
    set_events (fun l => l ++ [mkSweepEvent (k_to k) None false])
      (set_events (<[node_data n := mkSweepEvent (point ev) (Some a) (isReported ev)]>)
         (set_arrays (fun l => l ++ [[SegRef segment]]) (heap d1))) in
  let d' := fst (addSegment options segment d) in
  snd (addSegment options segment d) = Ok tt
  /\ heap d' = h1
  /\ arrays (heap d) !! a = None
  /\ arrays (heap d') !! a = Some [SegRef segment]
  /\ events (heap d') !! node_data n
     = Some (mkSweepEvent (point ev) (Some a) (isReported ev))
  /\ insertCalls (calls d') = insertCalls (calls d) ++ [e]
  /\ eventQueue d' = eq_insert h1 e (eventQueue d)
  /\ foundCalls (calls d') = foundCalls (calls d)
  /\ sweepStatus d' = sweepStatus d.
Proof.
  intros Hcan Hk Hfind Hev Hfrom a e h1 d'. subst d'.
  destruct (canonicalize_rest _ _ _ _ Hcan) as (Hc & Hq & Hs & He & Harr).
  unfold addSegment. rewrite bind_run, Hcan. unfold register.
  rewrite bind_run, eventQueue_find_run, Hfind. cbn iota. rewrite Hk. cbn [negb].
  rewrite !bind_run, (getEvent_run _ _ ev) by exact Hev. rewrite Hfrom.
  change ((mret false : M bool) ?st) with (st, Ok (A:=bool) false). cbn iota.
  rewrite !bind_run, (getEvent_run _ _ ev) by exact Hev. rewrite Hfrom.
  rewrite bind_run, allocArray_run.
  rewrite (setEvent_run _ _ ev) by exact Hev.
  unfold newSweepEvent.
  rewrite bind_run, allocEvent_run, eventQueue_insert_run.
  cbn. subst a e h1. rewrite Harr, He, Hc, Hq, Hs.
  rewrite !insertCalls_app, !foundCalls_app. cbn. rewrite !app_nil_r.
  rewrite ?length_insert.
  repeat split; try reflexivity.
  - apply lookup_ge_None. lia.
  - rewrite <- Harr. apply lookup_snoc_new.
  - apply lookup_snoc_old, list_lookup_insert_eq. rewrite <- He.
    eapply lookup_lt_Some, Hev.
Qed.

(** *** What [addSegment] does to the objects it is given *)

Lemma canonicalize_run s d seg vf vt :
  segments (heap d) !! s = Some seg ->
  points (heap d) !! from seg = Some vf ->
  points (heap d) !! to seg = Some vt ->
  from seg <> to seg ->
  let pf := snapped vf vt in
  let pt := rounded vt in
  let kf := if swapped pf pt then to seg else from seg in
  let kt := if swapped pf pt then from seg else to seg in
  let pa := if swapped pf pt then pt else pf in
  let pb := if swapped pf pt then pf else pt in
  exists d1,
    canonicalize s d
    = (d1, Ok (mkCanonical kf kt
                 ((y pa - y pb =? x pa - x pb) && (y pa - y pb =? 0))%Q))
    /\ points (heap d1) !! from seg = Some pf
    /\ points (heap d1) !! to seg = Some pt
    /\ (forall i, i <> from seg -> i <> to seg ->
                  points (heap d1) !! i = points (heap d) !! i)
    /\ segments (heap d1) !! s
       = Some (mkSegment kf kt (Some (y pa - y pb)%Q) (Some (x pa - x pb)%Q)
                 (Some (angle (y pa - y pb) (x pa - x pb))%Q))
    /\ (forall s', s' <> s -> segments (heap d1) !! s' = segments (heap d) !! s').
Proof.
  intros Hseg Hf Ht Hne pf pt kf kt pa pb.
  unfold canonicalize.
  rewrite bind_run, (getSegment_run _ _ _ Hseg). cbn zeta.
  rewrite bind_run, (roundNearZero_run _ _ vf Hf).
  rewrite bind_run, (roundNearZero_run _ _ vt) by lookup_solve.
  rewrite bind_run, (getPoint_run _ _ (rounded vf)) by lookup_solve.
  rewrite bind_run, (getPoint_run _ _ (rounded vt)) by lookup_solve.
  rewrite bind_run.
  set (d2 := set_heap (set_points <[to seg:=rounded vt]>)
               (set_heap (set_points <[from seg:=rounded vf]>) d)).
  assert (HA : exists dA sgA,
             (if (Qabs (y (rounded vf) - y (rounded vt)) <? (1 # 100000))%Q
              then
                setPoint (from seg) (mkPoint (x (rounded vf)) (y (rounded vt)));;
                seg0 ← getSegment s;
                setSegment s (mkSegment (from seg0) (to seg0) (Some 0%Q) (dx seg0)
                                (seg_angle seg0))
              else mret tt) d2 = (dA, Ok tt)
             /\ points (heap dA) !! from seg = Some pf
             /\ points (heap dA) !! to seg = Some pt
             /\ (forall i, i <> from seg -> i <> to seg ->
                           points (heap dA) !! i = points (heap d) !! i)
             /\ segments (heap dA) !! s = Some sgA
             /\ from sgA = from seg /\ to sgA = to seg
             /\ (forall s', s' <> s ->
                            segments (heap dA) !! s' = segments (heap d) !! s')).
  { subst pf pt. unfold snapped.
    destruct (Qabs (y (rounded vf) - y (rounded vt)) <? (1 # 100000))%Q.
    - rewrite bind_run, (setPoint_run _ _ (rounded vf)) by (subst d2; lookup_solve).
      rewrite bind_run, (getSegment_run _ _ seg) by (subst d2; lookup_solve).
      rewrite (setSegment_run _ _ seg) by (subst d2; lookup_solve).
      eexists _, _. split; [reflexivity|]. subst d2.
      split; [lookup_solve|]. split; [lookup_solve|].
      split; [intros i Hi1 Hi2; cbn; rewrite !list_lookup_insert_ne by congruence;
              reflexivity|].
      split; [lookup_solve|]. split; [reflexivity|]. split; [reflexivity|].
      intros s' Hs'. cbn. rewrite list_lookup_insert_ne by congruence. reflexivity.
    - exists d2, seg. split; [reflexivity|]. subst d2.
      split; [lookup_solve|]. split; [lookup_solve|].
      split; [intros i Hi1 Hi2; cbn; rewrite !list_lookup_insert_ne by congruence;
              reflexivity|].
      split; [lookup_solve|]. split; [reflexivity|]. split; [reflexivity|].
      intros; reflexivity. }
  destruct HA as (dA & sgA & -> & HAf & HAt & HAo & HAs & HAsf & HAst & HAso).
  clear d2.
  rewrite bind_run, (getPoint_run _ _ pf HAf).
  rewrite bind_run, (getPoint_run _ _ pt HAt).
  rewrite bind_run.
  assert (HB : exists dB sgB,
             (if (y pf <? y pt)%Q || (y pf =? y pt)%Q && (x pt <? x pf)%Q
              then
                seg0 ← getSegment s;
                setSegment s (mkSegment (to seg) (from seg) (dy seg0) (dx seg0)
                                (seg_angle seg0));;
                mret (to seg, from seg)
              else mret (from seg, to seg)) dA = (dB, Ok (kf, kt))
             /\ points (heap dB) = points (heap dA)
             /\ segments (heap dB) !! s = Some sgB
             /\ from sgB = kf /\ to sgB = kt
             /\ (forall s', s' <> s ->
                            segments (heap dB) !! s' = segments (heap d) !! s')).
  { subst kf kt. unfold swapped.
    destruct ((y pf <? y pt)%Q || (y pf =? y pt)%Q && (x pt <? x pf)%Q).
    - rewrite bind_run, (getSegment_run _ _ sgA) by exact HAs.
      rewrite bind_run, (setSegment_run _ _ sgA) by exact HAs.
      eexists _, _. split; [reflexivity|]. split; [reflexivity|].
      split; [lookup_solve|]. split; [reflexivity|]. split; [reflexivity|].
      intros s' Hs'. cbn. rewrite list_lookup_insert_ne by congruence.
      apply HAso, Hs'.
    - exists dA, sgA. split; [reflexivity|]. split; [reflexivity|].
      split; [exact HAs|]. split; [exact HAsf|]. split; [exact HAst | exact HAso]. }
  destruct HB as (dB & sgB & -> & HBp & HBs & HBsf & HBst & HBso).
  assert (Hpa : points (heap dB) !! kf = Some pa).
  { rewrite HBp. subst kf pa. destruct (swapped pf pt); assumption. }
  assert (Hpb : points (heap dB) !! kt = Some pb).
  { rewrite HBp. subst kt pb. destruct (swapped pf pt); assumption. }
  cbn iota.
  rewrite bind_run, (getPoint_run _ _ pa Hpa).
  rewrite bind_run, (getPoint_run _ _ pb Hpb). cbn zeta.
  rewrite bind_run, (getSegment_run _ _ sgB HBs).
  rewrite bind_run, (setSegment_run _ _ sgB) by exact HBs.
  eexists. split; [reflexivity|].
  split; [cbn; rewrite HBp; exact HAf|].
  split; [cbn; rewrite HBp; exact HAt|].
  split; [intros i Hi1 Hi2; cbn; rewrite HBp; apply HAo; assumption|].
  split.
  - cbn. rewrite HBsf, HBst. apply list_lookup_insert_eq. eapply lookup_lt_Some, HBs.
  - intros s' Hs'. cbn. rewrite list_lookup_insert_ne by congruence. apply HBso, Hs'.
Qed.

(** X16.  [addSegment] writes to the two point objects of the segment it is
    given: both are rounded near zero, and when their y then differ by less
    than 1e-5 the [from] point takes the y of the [to] point.  It writes to
    no other point. *)
Theorem addSegment_rounds_and_snaps_its_endpoints s d seg vf vt :
  segments (heap d) !! s = Some seg ->
  points (heap d) !! from seg = Some vf ->
  points (heap d) !! to seg = Some vt ->
  from seg <> to seg ->
  points (heap (fst (addSegment options s d))) !! to seg = Some (rounded vt)
  /\ points (heap (fst (addSegment options s d))) !! from seg = Some (snapped vf vt)
  /\ ((Qabs (y (rounded vf) - y (rounded vt)) < 1 # 100000)%Q ->
      snapped vf vt = mkPoint (x (rounded vf)) (y (rounded vt)))
  /\ ((1 # 100000 <= Qabs (y (rounded vf) - y (rounded vt)))%Q ->
      snapped vf vt = rounded vf)
  /\ (forall i, i <> from seg -> i <> to seg ->
                points (heap (fst (addSegment options s d))) !! i
                = points (heap d) !! i).
Proof.
  intros Hseg Hf Ht Hne.
  destruct (canonicalize_run s d seg vf vt Hseg Hf Ht Hne)
    as (d1 & Hcan & Hpf & Hpt & Hother & _).
  assert (Hp : points (heap (fst (addSegment options s d))) = points (heap d1)).
  { unfold addSegment. rewrite bind_run, Hcan.
    match goal with
    | |- context [register options s ?k d1] =>
        pose proof (register_keeps_objects options s k d1) as K
    end.
    cbn beta in K. injection K as K _. exact K. }
  rewrite Hp. split; [exact Hpt|]. split; [exact Hpf|]. split; [|split].
  - intros H. apply Qlt_bool_iff in H. unfold snapped. rewrite H. reflexivity.
  - intros H. apply Qlt_bool_false_iff in H. unfold snapped. rewrite H. reflexivity.
  - exact Hother.
Qed.

(** X17.  [addSegment] exchanges the [from] and the [to] of the segment exactly
    when, once the endpoints are rounded and snapped, [from] is lower than
    [to], or as high and to its right; it then fills in [dy], [dx] and
    [angle], and writes to no other segment. *)
Theorem addSegment_orients_the_segment s d seg vf vt :
  segments (heap d) !! s = Some seg ->
  points (heap d) !! from seg = Some vf ->
  points (heap d) !! to seg = Some vt ->
  from seg <> to seg ->
  let pf := snapped vf vt in
  let pt := rounded vt in
  exists sg',
    segments (heap (fst (addSegment options s d))) !! s = Some sg'
    /\ (swapped pf pt = true
        <-> (y pf < y pt)%Q \/ (y pf == y pt /\ x pt < x pf)%Q)
    /\ from sg' = (if swapped pf pt then to seg else from seg)
    /\ to sg' = (if swapped pf pt then from seg else to seg)
    /\ (forall s', s' <> s ->
                   segments (heap (fst (addSegment options s d))) !! s'
                   = segments (heap d) !! s').
Proof.
  intros Hseg Hf Ht Hne pf pt.
  destruct (canonicalize_run s d seg vf vt Hseg Hf Ht Hne)
    as (d1 & Hcan & _ & _ & _ & Hs & Hso).
  assert (Hp : segments (heap (fst (addSegment options s d))) = segments (heap d1)).
  { unfold addSegment. rewrite bind_run, Hcan.
    match goal with
    | |- context [register options s ?k d1] =>
        pose proof (register_keeps_objects options s k d1) as K
    end.
    cbn beta in K. injection K as _ K. exact K. }
  rewrite Hp. eexists. split; [exact Hs|]. split; [|split; [reflexivity|split]].
  - unfold swapped. rewrite orb_true_iff, andb_true_iff, !Qlt_bool_iff, Qeq_bool_iff.
    reflexivity.
  - reflexivity.
  - exact Hso.
Qed.

(** *** What [addSegment] does not touch *)

Lemma reportIdentical_keeps_status v to_ :
  keeps (fun d => (sweepStatus d, statusCalls (calls d), lower d, interior d,
                   lastPoint d))
        (reportIdentical options v to_).
Proof.
  induction v as [|[s|p] v IH]; cbn [reportIdentical].
  - status_auto.
  - pose proof IH. status_auto.
  - status_auto.
Qed.

Lemma addSegment_keeps_status s :
  keeps (fun d => (sweepStatus d, statusCalls (calls d), lower d, interior d,
                   lastPoint d))
        (addSegment options s).
Proof. pose proof reportIdentical_keeps_status. status_auto. Qed.

(** X18.  Segments enter the sweep status only when events are handled:
    [addSegment] makes no call on the status and leaves it, and the
    variables [lower], [interior] and [lastPoint], as they were, whether it
    returns or throws; so the driver [isect] returns has the status as it was
    created, and the three variables are [undefined]. *)
Theorem addSegment_never_touches_the_status :
  (forall s d,
      sweepStatus (fst (addSegment options s d)) = sweepStatus d
      /\ statusCalls (calls (fst (addSegment options s d))) = statusCalls (calls d)
      /\ lower (fst (addSegment options s d)) = lower d
      /\ interior (fst (addSegment options s d)) = interior d
      /\ lastPoint (fst (addSegment options s d)) = lastPoint d)
  /\ (forall h segments_ u,
        sweepStatus (fst (isect options h segments_ u)) = createSweepStatus EPS
        /\ statusCalls (calls (fst (isect options h segments_ u))) = []
        /\ lower (fst (isect options h segments_ u)) = None
        /\ interior (fst (isect options h segments_ u)) = None
        /\ lastPoint (fst (isect options h segments_ u)) = None).
Proof.
  split.
  - intros s d. pose proof (addSegment_keeps_status s d) as K.
    injection K as -> -> -> -> ->. repeat split; reflexivity.
  - intros h segs u. unfold isect.
    pose proof (keeps_forEach _ (addSegment options) segs addSegment_keeps_status
                  (newDriver h u)) as K.
    cbn beta in K. injection K as -> -> -> -> ->. repeat split; reflexivity.
Qed.

End Register.

(** The first of the three crossing segments. *)
Lemma new_upper_endpoint_adds_two_events_witness :
  canonicalize 0 (newDriver (U:=unit) crossingHeap tt)
  = (fst (canonicalize 0 (newDriver (U:=unit) crossingHeap tt)), Ok (mkCanonical 0 1 false))
  /\ snd (addSegment noOptions 0 (newDriver crossingHeap tt)) = Ok tt
  /\ insertCalls (calls (fst (addSegment noOptions 0 (newDriver crossingHeap tt))))
     = [0; 1]%nat
  /\ arrays (heap (fst (addSegment noOptions 0 (newDriver crossingHeap tt)))) !! 1%nat
     = Some [SegRef 0]
  /\ events (heap (fst (addSegment noOptions 0 (newDriver crossingHeap tt)))) !! 0%nat
     = Some (mkSweepEvent 0 (Some 1%nat) false)
  /\ events (heap (fst (addSegment noOptions 0 (newDriver crossingHeap tt)))) !! 1%nat
     = Some (mkSweepEvent 1 None false).
Proof.
  assert (Hcan : canonicalize 0 (newDriver (U:=unit) crossingHeap tt)
                 = (fst (canonicalize 0 (newDriver (U:=unit) crossingHeap tt)),
                    Ok (mkCanonical 0 1 false)))
    by (apply run_by_value; vm_compute; reflexivity).
  split; [exact Hcan|].
  destruct (new_upper_endpoint_adds_two_events noOptions 0
              (newDriver crossingHeap tt) _ _ Hcan eq_refl
              ltac:(vm_compute; reflexivity))
    as (H1 & _ & H3 & _ & _ & H6 & H7 & H8 & _).
  repeat split; assumption.
Defined.

(** The second of two segments that start at (5,5). *)
Lemma segment_joins_the_event_of_its_upper_endpoint_witness :
  canonicalize 1 veeFirst
  = (fst (canonicalize 1 veeFirst), Ok (mkCanonical 2 3 false))
  /\ eq_find (heap (fst (canonicalize 1 veeFirst))) 2
             (eventQueue (fst (canonicalize 1 veeFirst))) = Some 0%nat
  /\ arrays (heap (fst (canonicalize 1 veeFirst))) !! 1%nat = Some [SegRef 0]
  /\ snd (addSegment noOptions 1 veeFirst) = Ok tt
  /\ arrays (heap (fst (addSegment noOptions 1 veeFirst))) !! 1%nat
     = Some [SegRef 0; SegRef 1]
  /\ insertCalls (calls (fst (addSegment noOptions 1 veeFirst)))
     = insertCalls (calls veeFirst) ++ [2%nat].
Proof.
  assert (Hcan : canonicalize 1 veeFirst
                 = (fst (canonicalize 1 veeFirst), Ok (mkCanonical 2 3 false)))
    by (apply run_by_value; vm_compute; reflexivity).
  assert (Hfind : eq_find (heap (fst (canonicalize 1 veeFirst))) 2
                          (eventQueue (fst (canonicalize 1 veeFirst))) = Some 0%nat)
    by (vm_compute; reflexivity).
  assert (Harr : arrays (heap (fst (canonicalize 1 veeFirst))) !! 1%nat = Some [SegRef 0])
    by (vm_compute; reflexivity).
  split; [exact Hcan|]. split; [exact Hfind|]. split; [exact Harr|].
  destruct (segment_joins_the_event_of_its_upper_endpoint noOptions 1 veeFirst
              (fst (canonicalize 1 veeFirst)) (mkCanonical 2 3 false) 0%nat
              (mkSweepEvent 1 (Some 1%nat) false) 1%nat [SegRef 0] (mkPoint 10 0)
              Hcan eq_refl Hfind)
    as (H1 & _ & H3 & _ & H5 & _); try (vm_compute; reflexivity).
  - apply Forall_cons. split; [|apply Forall_nil_2].
    exists 0%nat, (mkSegment 1 0 (Some (5 - 0)%Q) (Some (5 - 0)%Q)
                     (Some (angle (5 - 0) (5 - 0))%Q)), (mkPoint 0 0).
    repeat split; vm_compute; reflexivity.
  - repeat split; assumption.
Defined.

(** The second segment of a polyline: its upper endpoint (5,5) has the
    event of the lower endpoint of the first segment, which has no list. *)
Lemma segment_starts_the_list_of_an_event_witness :
  canonicalize 1 chainFirst
  = (fst (canonicalize 1 chainFirst), Ok (mkCanonical 2 3 false))
  /\ eq_find (heap (fst (canonicalize 1 chainFirst))) 2
             (eventQueue (fst (canonicalize 1 chainFirst))) = Some 1%nat
  /\ events (heap (fst (canonicalize 1 chainFirst))) !! 1%nat
     = Some (mkSweepEvent 1 None false)
  /\ snd (addSegment noOptions 1 chainFirst) = Ok tt
  /\ events (heap (fst (addSegment noOptions 1 chainFirst))) !! 1%nat
     = Some (mkSweepEvent 1 (Some 2%nat) false)
  /\ arrays (heap (fst (addSegment noOptions 1 chainFirst))) !! 2%nat
     = Some [SegRef 1]
  /\ insertCalls (calls (fst (addSegment noOptions 1 chainFirst)))
     = insertCalls (calls chainFirst) ++ [2%nat].
Proof.
  assert (Hcan : canonicalize 1 chainFirst
                 = (fst (canonicalize 1 chainFirst), Ok (mkCanonical 2 3 false)))
    by (apply run_by_value; vm_compute; reflexivity).
  assert (Hfind : eq_find (heap (fst (canonicalize 1 chainFirst))) 2
                          (eventQueue (fst (canonicalize 1 chainFirst))) = Some 1%nat)
    by (vm_compute; reflexivity).
  assert (Hev : events (heap (fst (canonicalize 1 chainFirst))) !! 1%nat
                = Some (mkSweepEvent 1 None false))
    by (vm_compute; reflexivity).
  split; [exact Hcan|]. split; [exact Hfind|]. split; [exact Hev|].
  destruct (segment_starts_the_list_of_an_event noOptions 1 chainFirst
              (fst (canonicalize 1 chainFirst)) (mkCanonical 2 3 false) 1%nat
              (mkSweepEvent 1 None false) Hcan eq_refl Hfind Hev eq_refl)
    as (H1 & _ & _ & H4 & H5 & H6 & _).
  repeat split; assumption.
Defined.

(** A nearly horizontal segment given from right to left: its [from] point
    (4,2.000001) becomes (4,2), and its endpoints are exchanged. *)
Lemma addSegment_rounds_and_snaps_its_endpoints_witness :
  points (heap (fst (addSegment noOptions 0 (newDriver snapHeap tt)))) !! 1%nat
  = Some (mkPoint 1 2)
  /\ points (heap (fst (addSegment noOptions 0 (newDriver snapHeap tt)))) !! 0%nat
     = Some (mkPoint 4 2).
Proof.
  destruct (addSegment_rounds_and_snaps_its_endpoints noOptions 0
              (newDriver snapHeap tt) (mkSegment 0 1 None None None)
              (mkPoint 4 (2000001 # 1000000)) (mkPoint 1 2)
              eq_refl eq_refl eq_refl ltac:(discriminate))
    as (H1 & H2 & _).
  split; [exact H1 | exact H2].
Defined.

Lemma addSegment_orients_the_segment_witness :
  exists sg',
    segments (heap (fst (addSegment noOptions 0 (newDriver snapHeap tt)))) !! 0%nat
    = Some sg'
    /\ from sg' = 1%nat /\ to sg' = 0%nat.
Proof.
  destruct (addSegment_orients_the_segment noOptions 0
              (newDriver snapHeap tt) (mkSegment 0 1 None None None)
              (mkPoint 4 (2000001 # 1000000)) (mkPoint 1 2)
              eq_refl eq_refl eq_refl ltac:(discriminate))
    as (sg' & H1 & _ & H3 & H4 & _).
  exists sg'. split; [exact H1|]. split; [exact H3 | exact H4].
Defined.

End RegisterFacts.
(* ====================================================================== *)
(** ** Invariants of the driver *)
(* ====================================================================== *)

Module DriverInvariants.

Import Sweep Reference Spec Views Examples SweepFacts FrameFacts.
Local Open Scope list_scope.

Section Invariants.

Context {geom : Geom} {queue : EventQueue} {status : SweepStatus} {U : Type}.

#[global] Instance keepsInv_preorder (I : Driver (U:=U) -> Prop) : PreOrder (keepsInv I).
Proof.
  split.
  - intros d H. exact H.
  - intros d1 d2 d3 H1 H2 H. apply H2, H1, H.
Qed.

End Invariants.

(** *** The list of results and the calls of the default handler *)

Ltac mirror_side :=
  intros; unfold keepsInv, mirrored;
  cbn; rewrite ?foundCalls_app; cbn; rewrite ?app_nil_r; trivial.

Section Mirror.

Context {geom : Geom} {queue : EventQueue} {status : SweepStatus} {U : Type}.
Variable options : option (ISectOptions U).
Hypothesis Ho : options ≫= opt_onFound = None.

Implicit Types d : Driver (U:=U).
Abbreviation M := (Sweep.M (U:=U)).

Lemma reportIntersection_mirrored p segs :
  follows (keepsInv mirrored) (reportIntersection options p segs).
Proof.
  intros d H. unfold reportIntersection. rewrite Ho. unfold mirrored in *.
  rewrite bind_run, log_run. unfold defaultIntersectionReporter.
  rewrite bind_run. cbn.
  rewrite foundCalls_app, H. unfold resultsOf. rewrite map_app. reflexivity.
Qed.

Ltac mirror_leaf :=
  lazymatch goal with
  | |- follows _ (reportIntersection _ _ _) => apply reportIntersection_mirrored
  end.

Ltac mirror_auto := follows_with ltac:(idtac; mirror_leaf) ltac:(idtac; mirror_side).

Lemma reportIdentical_mirrored v to_ :
  follows (keepsInv mirrored) (reportIdentical options v to_).
Proof.
  induction v as [|[s|p] v IH]; cbn [reportIdentical].
  - mirror_auto.
  - follows_with ltac:(idtac; first [mirror_leaf | exact IH]) ltac:(idtac; mirror_side).
  - mirror_auto.
Qed.

Lemma addSegment_mirrored s : follows (keepsInv mirrored) (addSegment options s).
Proof.
  follows_with
    ltac:(idtac; first [mirror_leaf
                       | lazymatch goal with
                         | |- follows _ (reportIdentical _ _ _) =>
                             apply reportIdentical_mirrored
                         end])
    ltac:(idtac; mirror_side).
Qed.

Lemma handleEventPoint_mirrored p :
  follows (keepsInv mirrored) (handleEventPoint options p).
Proof. mirror_auto. Qed.

Lemma popAndHandle_mirrored : follows (keepsInv mirrored) (popAndHandle options).
Proof.
  follows_with
    ltac:(idtac; lazymatch goal with
                 | |- follows _ (handleEventPoint _ _) => apply handleEventPoint_mirrored
                 end)
    ltac:(idtac; mirror_side).
Qed.

Lemma step_mirrored : follows (keepsInv mirrored) (step options).
Proof.
  follows_with
    ltac:(idtac; lazymatch goal with
                 | |- follows _ (popAndHandle _) => apply popAndHandle_mirrored
                 end)
    ltac:(idtac; mirror_side).
Qed.

End Mirror.

Section MirrorTheorem.

Context {geom : Geom} {queue : EventQueue} {status : SweepStatus} {U : Type}.
Variable options : option (ISectOptions U).

Implicit Types d : Driver (U:=U).

(** X19.  With the default handler, the list of results holds exactly one entry
    for each call of the handler, in the order of the calls, each with the
    point and the array of that call: this holds of the driver [isect]
    returns, and [addSegment], [handleEventPoint], [step] and [run] keep
    it. *)
Theorem results_mirror_the_calls_of_the_handler :
  options ≫= opt_onFound = None ->
  (forall h segments_ u, mirrored (fst (isect options h segments_ u)))
  /\ (forall s d, mirrored d -> mirrored (fst (addSegment options s d)))
  /\ (forall p d, mirrored d -> mirrored (fst (handleEventPoint options p d)))
  /\ (forall d, mirrored d -> mirrored (fst (step options d)))
  /\ (forall fuel d d' r,
        mirrored d -> run options fuel d = Some (d', r) -> mirrored d').
Proof.
  intros Ho. split; [|split; [|split; [|split]]].
  - intros h segs u. unfold isect.
    apply (follows_forEach (keepsInv mirrored) (addSegment options) segs
             (addSegment_mirrored options Ho)).
    reflexivity.
  - intros s d. apply (addSegment_mirrored options Ho).
  - intros p d. apply (handleEventPoint_mirrored options Ho).
  - intros d. apply (step_mirrored options Ho).
  - intros fuel d d' r H Hrun.
    apply (follows_run options (keepsInv mirrored) fuel d d' r
             (popAndHandle_mirrored options Ho) Hrun H).
Qed.

End MirrorTheorem.

(** The three crossing segments: three calls, three results. *)
Lemma results_mirror_the_calls_of_the_handler_witness :
  noOptions ≫= opt_onFound = None
  /\ mirrored (crossing noOptions)
  /\ run noOptions 20 (crossing noOptions)
     = Some (crossingDone, Ok (Some [mkResult 6 6; mkResult 7 9; mkResult 8 12]))
  /\ results crossingDone = resultsOf (foundCalls (calls crossingDone))
  /\ foundCalls (calls crossingDone) = [(6, 6); (7, 9); (8, 12)]%nat.
Proof.
  assert (Hrun : run noOptions 20 (crossing noOptions)
                 = Some (crossingDone,
                         Ok (Some [mkResult 6 6; mkResult 7 9; mkResult 8 12]))).
  { unfold crossingDone. apply LoopFacts.ended_by_value. vm_compute. reflexivity. }
  pose proof (results_mirror_the_calls_of_the_handler noOptions eq_refl)
    as (H1 & _ & _ & _ & H5).
  split; [reflexivity|]. split; [apply H1|]. split; [exact Hrun|].
  split; [apply (H5 20%nat (crossing noOptions) crossingDone _ (H1 _ _ _) Hrun)|].
  vm_compute. reflexivity.
Defined.

(** *** The array [EMPTY] *)

Ltac empty_side :=
  intros; unfold keepsInv, emptyApart, emptyIntact; cbn; trivial.

Section Empty.

Context {geom : Geom} {queue : EventQueue} {status : SweepStatus} {U : Type}.
Variable options : option (ISectOptions U).

Implicit Types d : Driver (U:=U).
Abbreviation M := (Sweep.M (U:=U)).

Lemma emptyIntact_arrays d : emptyIntact d -> (0 < length (arrays (heap d)))%nat.
Proof. intros [H _]. eapply lookup_lt_Some, H. Qed.

Lemma emptyIntact_same d d' :
  arrays (heap d') = arrays (heap d) -> events (heap d') = events (heap d) ->
  emptyIntact d -> emptyIntact d'.
Proof. intros Ea Ee [H1 H2]. split; [rewrite Ea | rewrite Ee]; assumption. Qed.

Lemma allocArray_empty v : follows (keepsInv emptyIntact) (allocArray (U:=U) v).
Proof.
  intros d [H1 H2]. split; cbn; [apply lookup_snoc_old, H1 | exact H2].
Qed.

Lemma events_snoc_inv (l : list SweepEvent) v e ev :
  (l ++ [v]) !! e = Some ev -> l !! e = Some ev \/ ev = v.
Proof.
  intros H. apply lookup_app_Some in H. destruct H as [H|[_ H]]; [left; exact H|].
  right. apply list_lookup_singleton_Some in H. destruct H as [_ H]. symmetry. exact H.
Qed.

Lemma allocEvent_empty v :
  ev_from v <> Some EMPTY -> follows (keepsInv emptyIntact) (allocEvent (U:=U) v).
Proof.
  intros Hv d [H1 H2]. split; cbn; [exact H1|].
  intros e ev H. apply events_snoc_inv in H. destruct H as [H| ->]; [eapply H2, H | exact Hv].
Qed.

Lemma newSweepEvent_empty pt seg :
  follows (keepsInv emptyIntact) (newSweepEvent (U:=U) pt seg).
Proof.
  destruct seg as [s|]; cbn [newSweepEvent]; [|apply allocEvent_empty; discriminate].
  intros d HI. pose proof (emptyIntact_arrays d HI) as Hlen.
  rewrite bind_run, allocArray_run.
  apply allocEvent_empty.
  - cbn. unfold EMPTY. intros [= E]. lia.
  - apply (allocArray_empty _ d HI).
Qed.

Lemma events_insert_inv (l : list SweepEvent) i v e ev :
  <[i := v]> l !! e = Some ev -> l !! e = Some ev \/ (e = i /\ ev = v).
Proof.
  intros H. destruct (decide (e = i)) as [->|Hne].
  - right. split; [reflexivity|].
    apply list_lookup_insert_Some in H. destruct H as [(_ & H & _)|[Hx _]];
      [symmetry; exact H | congruence].
  - left. rewrite list_lookup_insert_ne in H by congruence. exact H.
Qed.

Ltac empty_leaf :=
  lazymatch goal with
  | |- follows _ (allocArray _) => apply allocArray_empty
  | |- follows _ (newSweepEvent _ _) => apply newSweepEvent_empty
  end.

Ltac empty_auto := follows_with ltac:(idtac; empty_leaf) ltac:(idtac; empty_side).

Lemma report_empty p c : follows (keepsInv emptyIntact) (report options p c).
Proof.
  intros d HI. unfold report.
  destruct (hasIntersection c || hasPointIntersection c); [|exact HI].
  rewrite bind_run. unfold getEvent at 1. rewrite bind_run. cbn [get].
  destruct (events (heap d) !! p) as [ev|] eqn:He; [|exact HI].
  cbn [deref]. change ((mret ev : M SweepEvent) d) with (d, Ok (A:=SweepEvent) ev).
  cbn iota. rewrite bind_run, (setEvent_run _ _ _ _ He).
  match goal with
  | |- emptyIntact (fst (?rest ?st)) =>
      assert (K : follows (keepsInv emptyIntact) rest) by empty_auto;
      apply (K st)
  end.
  destruct HI as [H1 H2]. split; [exact H1|]. cbn.
  intros e ev' H. apply events_insert_inv in H.
  destruct H as [H|[-> ->]]; [eapply H2, H | cbn; eapply H2, He].
Qed.

Lemma pushOnto_lower_empty s :
  follows (keepsInv emptyApart) (pushOnto (U:=U) lower set_lower s).
Proof.
  intros d (HI & Hl & Hi). pose proof (emptyIntact_arrays d HI) as Hlen.
  unfold pushOnto. rewrite bind_run. cbn [get].
  destruct (lower d) as [a|] eqn:L.
  - assert (Hne : a <> EMPTY) by congruence.
    rewrite bind_run. unfold getArray. rewrite bind_run. cbn [get].
    destruct (arrays (heap d) !! a) as [v|] eqn:Ha; cbn [deref];
      [|change (emptyApart d);
        split; [exact HI | split; [rewrite L; exact Hl | exact Hi]]].
    change ((mret v : M (list Ref)) d) with (d, Ok (A:=list Ref) v). cbn iota.
    fold (getArray (U:=U) a). rewrite (setArray_run _ _ _ _ Ha).
    destruct HI as [H1 H2]. split; [split|]; cbn.
    + rewrite list_lookup_insert_ne by congruence. exact H1.
    + exact H2.
    + split; [rewrite L; exact Hl | exact Hi].
  - rewrite bind_run, allocArray_run. cbn.
    destruct HI as [H1 H2]. split; [split|]; cbn.
    + apply lookup_snoc_old, H1.
    + exact H2.
    + split; [unfold EMPTY; intros [= E]; lia | exact Hi].
Qed.

Lemma pushOnto_interior_empty s :
  follows (keepsInv emptyApart) (pushOnto (U:=U) interior set_interior s).
Proof.
  intros d (HI & Hl & Hi). pose proof (emptyIntact_arrays d HI) as Hlen.
  unfold pushOnto. rewrite bind_run. cbn [get].
  destruct (interior d) as [a|] eqn:L.
  - assert (Hne : a <> EMPTY) by congruence.
    rewrite bind_run. unfold getArray. rewrite bind_run. cbn [get].
    destruct (arrays (heap d) !! a) as [v|] eqn:Ha; cbn [deref];
      [|change (emptyApart d);
        split; [exact HI | split; [exact Hl | rewrite L; exact Hi]]].
    change ((mret v : M (list Ref)) d) with (d, Ok (A:=list Ref) v). cbn iota.
    fold (getArray (U:=U) a). rewrite (setArray_run _ _ _ _ Ha).
    destruct HI as [H1 H2]. split; [split|]; cbn.
    + rewrite list_lookup_insert_ne by congruence. exact H1.
    + exact H2.
    + split; [exact Hl | rewrite L; exact Hi].
  - rewrite bind_run, allocArray_run. cbn.
    destruct HI as [H1 H2]. split; [split|]; cbn.
    + apply lookup_snoc_old, H1.
    + exact H2.
    + split; [exact Hl | unfold EMPTY; intros [= E]; lia].
Qed.

Lemma addLowerOrInterior_empty s :
  follows (keepsInv emptyApart) (addLowerOrInterior (U:=U) s).
Proof.
  follows_with
    ltac:(idtac; lazymatch goal with
                 | |- follows _ (pushOnto lower _ _) => apply pushOnto_lower_empty
                 | |- follows _ (pushOnto interior _ _) => apply pushOnto_interior_empty
                 end)
    ltac:(idtac; empty_side).
Qed.

Lemma findSegmentsWithPoint_empty q :
  follows (keepsInv emptyApart) (sweepStatus_findSegmentsWithPoint options q).
Proof. empty_auto. Qed.

Lemma classify_empty p : follows (keepsInv emptyIntact) (classify options p).
Proof.
  intros d HI. unfold classify.
  rewrite bind_run. unfold getEvent at 1. rewrite bind_run. cbn [get].
  destruct (events (heap d) !! p) as [ev|] eqn:He; [|exact HI].
  cbn [deref]. change ((mret ev : M SweepEvent) d) with (d, Ok (A:=SweepEvent) ev).
  cbn iota. do 3 (rewrite bind_run; cbn [modify]).
  set (d0 := set_interior None (set_lower None (set_lastPoint (Some (point ev)) d))).
  assert (H0 : emptyApart d0) by (subst d0; repeat split; try discriminate; apply HI).
  rewrite bind_run.
  pose proof (findSegmentsWithPoint_empty (point ev) d0 H0) as H1.
  destruct (sweepStatus_findSegmentsWithPoint options (point ev) d0) as [d1 [segs|e]];
    cbn [fst] in H1; [|apply H1].
  rewrite bind_run.
  pose proof (follows_forEach (keepsInv emptyApart) addLowerOrInterior segs
                addLowerOrInterior_empty d1 H1) as H2.
  destruct (forEach addLowerOrInterior segs d1) as [d2 [[]|e]];
    cbn [fst] in H2; [|apply H2].
  match goal with
  | |- emptyIntact (fst (?rest d2)) =>
      assert (K : follows (keepsInv emptyIntact) rest) by empty_auto;
      apply (K d2), H2
  end.
Qed.

Lemma handleEventPoint_empty p :
  follows (keepsInv emptyIntact) (handleEventPoint options p).
Proof.
  follows_with
    ltac:(idtac; first
            [ empty_leaf
            | lazymatch goal with
              | |- follows _ (classify _ _) => apply classify_empty
              | |- follows _ (report _ _ _) => apply report_empty
              end ])
    ltac:(idtac; empty_side).
Qed.

Lemma popAndHandle_empty : follows (keepsInv emptyIntact) (popAndHandle options).
Proof.
  follows_with
    ltac:(idtac; lazymatch goal with
                 | |- follows _ (handleEventPoint _ _) => apply handleEventPoint_empty
                 end)
    ltac:(idtac; empty_side).
Qed.

Lemma step_empty_intact : follows (keepsInv emptyIntact) (step options).
Proof.
  follows_with
    ltac:(idtac; lazymatch goal with
                 | |- follows _ (popAndHandle _) => apply popAndHandle_empty
                 end)
    ltac:(idtac; empty_side).
Qed.

Lemma reportIdentical_empty v to_ :
  follows (keepsInv emptyIntact) (reportIdentical options v to_).
Proof.
  induction v as [|[s|p] v IH]; cbn [reportIdentical].
  - empty_auto.
  - follows_with ltac:(idtac; first [empty_leaf | exact IH]) ltac:(idtac; empty_side).
  - empty_auto.
Qed.

(** Lines 300-302: the segment joins the list of the event found. *)
Lemma join_empty (n : Node) segment :
  follows (keepsInv emptyIntact)
    (ev ← getEvent (U:=U) (node_data n);
     match ev_from ev with
     | Some a => v ← getArray a; setArray a (v ++ [SegRef segment])
     | None =>
         a ← allocArray [SegRef segment];
         setEvent (node_data n) (mkSweepEvent (point ev) (Some a) (isReported ev))
     end).
Proof.
  intros d HI. pose proof (emptyIntact_arrays d HI) as Hlen.
  rewrite bind_run. unfold getEvent at 1. rewrite bind_run. cbn [get].
  destruct (events (heap d) !! node_data n) as [ev|] eqn:He; [|exact HI].
  cbn [deref]. change ((mret ev : M SweepEvent) d) with (d, Ok (A:=SweepEvent) ev).
  cbn iota. destruct HI as [H1 H2].
  destruct (ev_from ev) as [a|] eqn:Hfrom.
  - rewrite bind_run. unfold getArray at 1. rewrite bind_run. cbn [get].
    destruct (arrays (heap d) !! a) as [v|] eqn:Ha; cbn [deref]; [|split; assumption].
    change ((mret v : M (list Ref)) d) with (d, Ok (A:=list Ref) v). cbn iota.
    rewrite (setArray_run _ _ _ _ Ha). split; cbn; [|exact H2].
    rewrite list_lookup_insert_ne; [exact H1|].
    intros E. apply (H2 _ _ He). rewrite Hfrom. f_equal. exact E.
  - rewrite bind_run, allocArray_run.
    rewrite (setEvent_run _ _ ev) by exact He.
    split; cbn; [apply lookup_snoc_old, H1|].
    intros e ev' H. apply events_insert_inv in H.
    destruct H as [H|[-> ->]]; [eapply H2, H|].
    cbn. unfold EMPTY. intros [= E]. lia.
Qed.

Lemma addSegment_empty s : follows (keepsInv emptyIntact) (addSegment options s).
Proof.
  follows_with
    ltac:(idtac; first
            [ empty_leaf
            | lazymatch goal with
              | |- follows _ (reportIdentical _ _ _) => apply reportIdentical_empty
              | |- follows _ (getEvent _ ≫= _) => apply join_empty
              end ])
    ltac:(idtac; empty_side).
Qed.

(** X20.  The driver never writes to the array [EMPTY]: if [EMPTY] is empty and
    is the list of no event, which holds of every heap without events when
    [isect] is called, it stays so through [isect], [addSegment],
    [handleEventPoint], [step] and [run]. *)
Theorem EMPTY_is_never_written :
  (forall h segments_ u,
      arrays h !! EMPTY = Some [] ->
      (forall e ev, events h !! e = Some ev -> ev_from ev <> Some EMPTY) ->
      emptyIntact (fst (isect options h segments_ u)))
  /\ (forall s d, emptyIntact d -> emptyIntact (fst (addSegment options s d)))
  /\ (forall p d, emptyIntact d -> emptyIntact (fst (handleEventPoint options p d)))
  /\ (forall d, emptyIntact d -> emptyIntact (fst (step options d)))
  /\ (forall fuel d d' r,
        emptyIntact d -> run options fuel d = Some (d', r) -> emptyIntact d').
Proof.
  split; [|split; [|split; [|split]]].
  - intros h segs u H1 H2. unfold isect.
    apply (follows_forEach (keepsInv emptyIntact) (addSegment options) segs
             addSegment_empty).
    split; assumption.
  - intros s d. apply addSegment_empty.
  - intros p d. apply handleEventPoint_empty.
  - intros d. apply step_empty_intact.
  - intros fuel d d' r H Hrun.
    apply (follows_run options (keepsInv emptyIntact) fuel d d' r
             popAndHandle_empty Hrun H).
Qed.

End Empty.

(** The three crossing segments, before and after the run. *)
Lemma EMPTY_is_never_written_witness :
  arrays crossingHeap !! EMPTY = Some []
  /\ emptyIntact (crossing noOptions)
  /\ run noOptions 20 (crossing noOptions)
     = Some (crossingDone, Ok (Some [mkResult 6 6; mkResult 7 9; mkResult 8 12]))
  /\ arrays (heap crossingDone) !! EMPTY = Some [].
Proof.
  assert (Hrun : run noOptions 20 (crossing noOptions)
                 = Some (crossingDone,
                         Ok (Some [mkResult 6 6; mkResult 7 9; mkResult 8 12]))).
  { unfold crossingDone. apply LoopFacts.ended_by_value. vm_compute. reflexivity. }
  pose proof (EMPTY_is_never_written noOptions) as (H1 & _ & _ & _ & H5).
  assert (H0 : emptyIntact (crossing noOptions)).
  { apply H1; [reflexivity|]. intros e ev H. destruct e; discriminate H. }
  split; [reflexivity|]. split; [exact H0|]. split; [exact Hrun|].
  apply (H5 20%nat (crossing noOptions) crossingDone _ H0 Hrun).
Defined.

(** *** The events *)

Section Steady.

Context {geom : Geom} {queue : EventQueue} {status : SweepStatus} {U : Type}.
Variable options : option (ISectOptions U).

Implicit Types d : Driver (U:=U).
Abbreviation M := (Sweep.M (U:=U)).

#[global] Instance eventsSteady_preorder : PreOrder (eventsSteady (U:=U)).
Proof.
  split.
  - intros d e ev H. exists ev. repeat split; auto.
  - intros d1 d2 d3 H12 H23 e ev H.
    destruct (H12 e ev H) as (ev2 & H2 & Hp2 & Hr2 & Hf2).
    destruct (H23 e ev2 H2) as (ev3 & H3 & Hp3 & Hr3 & Hf3).
    exists ev3. split; [exact H3|]. split; [congruence|].
    split; [auto | auto].
Qed.

Lemma eventsSteady_same d d' :
  events (heap d') = events (heap d) -> eventsSteady d d'.
Proof. intros E e ev H. exists ev. rewrite E. repeat split; auto. Qed.

Lemma eventsSteady_insert d p ev v :
  events (heap d) !! p = Some ev ->
  point v = point ev ->
  (isReported ev = true -> isReported v = true) ->
  (forall a, ev_from ev = Some a -> ev_from v = Some a) ->
  eventsSteady d (set_heap (set_events (<[p := v]>)) d).
Proof.
  intros He Hp Hr Hf e ev0 H. cbn.
  destruct (decide (e = p)) as [->|Hne].
  - rewrite He in H. injection H as <-. exists v.
    split; [apply list_lookup_insert_eq; eapply lookup_lt_Some, He|].
    repeat split; assumption.
  - exists ev0. rewrite list_lookup_insert_ne by congruence. repeat split; auto.
Qed.

Lemma allocEvent_steady v : follows eventsSteady (allocEvent (U:=U) v).
Proof.
  intros d e ev H. exists ev. cbn. split; [apply lookup_snoc_old, H|].
  repeat split; auto.
Qed.

Ltac steady_side := intros; apply eventsSteady_same; reflexivity.

Ltac steady_leaf :=
  lazymatch goal with
  | |- follows _ (allocEvent _) => apply allocEvent_steady
  end.

Ltac steady_auto := follows_with ltac:(idtac; steady_leaf) ltac:(idtac; steady_side).

Lemma report_steady p c : follows eventsSteady (report options p c).
Proof.
  intros d. unfold report.
  destruct (hasIntersection c || hasPointIntersection c); [|reflexivity].
  rewrite bind_run. unfold getEvent at 1. rewrite bind_run. cbn [get].
  destruct (events (heap d) !! p) as [ev|] eqn:He; [|reflexivity].
  cbn [deref]. change ((mret ev : M SweepEvent) d) with (d, Ok (A:=SweepEvent) ev).
  cbn iota. rewrite bind_run, (setEvent_run _ _ _ _ He).
  match goal with
  | |- eventsSteady d (fst (?rest ?st)) =>
      assert (K : follows eventsSteady rest) by steady_auto;
      transitivity st; [|apply (K st)]
  end.
  apply (eventsSteady_insert d p ev); auto.
Qed.

Lemma join_steady (n : Node) segment :
  follows eventsSteady
    (ev ← getEvent (U:=U) (node_data n);
     match ev_from ev with
     | Some a => v ← getArray a; setArray a (v ++ [SegRef segment])
     | None =>
         a ← allocArray [SegRef segment];
         setEvent (node_data n) (mkSweepEvent (point ev) (Some a) (isReported ev))
     end).
Proof.
  intros d.
  rewrite bind_run. unfold getEvent at 1. rewrite bind_run. cbn [get].
  destruct (events (heap d) !! node_data n) as [ev|] eqn:He; [|reflexivity].
  cbn [deref]. change ((mret ev : M SweepEvent) d) with (d, Ok (A:=SweepEvent) ev).
  cbn iota.
  destruct (ev_from ev) as [a|] eqn:Hfrom.
  - match goal with
    | |- eventsSteady d (fst (?rest d)) =>
        assert (K : follows eventsSteady rest) by steady_auto; apply (K d)
    end.
  - rewrite bind_run, allocArray_run.
    rewrite (setEvent_run _ _ ev) by exact He.
    intros e ev0 H. cbn.
    destruct (decide (e = node_data n)) as [->|Hne].
    + pose proof (eq_trans (eq_sym He) H) as E. injection E as <-. eexists.
      split; [apply list_lookup_insert_eq; eapply lookup_lt_Some, He|].
      cbn. repeat split; auto. intros a Ha. congruence.
    + exists ev0. rewrite list_lookup_insert_ne by congruence. repeat split; auto.
Qed.

Lemma reportIdentical_steady v to_ :
  follows eventsSteady (reportIdentical options v to_).
Proof.
  induction v as [|[s|p] v IH]; cbn [reportIdentical].
  - steady_auto.
  - follows_with ltac:(idtac; first [steady_leaf | exact IH]) ltac:(idtac; steady_side).
  - steady_auto.
Qed.

Lemma addSegment_steady s : follows eventsSteady (addSegment options s).
Proof.
  follows_with
    ltac:(idtac; first
            [ steady_leaf
            | lazymatch goal with
              | |- follows _ (reportIdentical _ _ _) => apply reportIdentical_steady
              | |- follows _ (getEvent _ ≫= _) => apply join_steady
              end ])
    ltac:(idtac; steady_side).
Qed.

Lemma handleEventPoint_steady p : follows eventsSteady (handleEventPoint options p).
Proof.
  follows_with
    ltac:(idtac; first
            [ steady_leaf
            | lazymatch goal with
              | |- follows _ (report _ _ _) => apply report_steady
              end ])
    ltac:(idtac; steady_side).
Qed.

Lemma popAndHandle_steady : follows eventsSteady (popAndHandle options).
Proof.
  follows_with
    ltac:(idtac; lazymatch goal with
                 | |- follows _ (handleEventPoint _ _) => apply handleEventPoint_steady
                 end)
    ltac:(idtac; steady_side).
Qed.

Lemma step_steady : follows eventsSteady (step options).
Proof.
  follows_with
    ltac:(idtac; lazymatch goal with
                 | |- follows _ (popAndHandle _) => apply popAndHandle_steady
                 end)
    ltac:(idtac; steady_side).
Qed.

(** X21.  An event never changes its point, is never unmarked once it is marked
    as reported, and keeps the array that is its list once it has one:
    [addSegment], [handleEventPoint], [step] and [run] leave every event
    with these. *)
Theorem events_keep_their_point_and_their_mark :
  (forall s d, eventsSteady d (fst (addSegment options s d)))
  /\ (forall p d, eventsSteady d (fst (handleEventPoint options p d)))
  /\ (forall d, eventsSteady d (fst (step options d)))
  /\ (forall fuel d d' r, run options fuel d = Some (d', r) -> eventsSteady d d').
Proof.
  split; [|split; [|split]].
  - intros s d. apply addSegment_steady.
  - intros p d. apply handleEventPoint_steady.
  - intros d. apply step_steady.
  - intros fuel d d' r Hrun.
    apply (follows_run options eventsSteady fuel d d' r popAndHandle_steady Hrun).
Qed.

End Steady.

(** The event of the upper endpoint of A through the run of the three
    crossing segments. *)
Lemma events_keep_their_point_and_their_mark_witness :
  run noOptions 20 (crossing noOptions)
  = Some (crossingDone, Ok (Some [mkResult 6 6; mkResult 7 9; mkResult 8 12]))
  /\ events (heap (crossing noOptions)) !! 0%nat = Some (mkSweepEvent 0 (Some 1%nat) false)
  /\ exists ev',
      events (heap crossingDone) !! 0%nat = Some ev'
      /\ point ev' = 0%nat
      /\ ev_from ev' = Some 1%nat.
Proof.
  assert (Hrun : run noOptions 20 (crossing noOptions)
                 = Some (crossingDone,
                         Ok (Some [mkResult 6 6; mkResult 7 9; mkResult 8 12]))).
  { unfold crossingDone. apply LoopFacts.ended_by_value. vm_compute. reflexivity. }
  assert (H0 : events (heap (crossing noOptions)) !! 0%nat
               = Some (mkSweepEvent 0 (Some 1%nat) false))
    by (vm_compute; reflexivity).
  split; [exact Hrun|]. split; [exact H0|].
  destruct (proj2 (proj2 (proj2 (events_keep_their_point_and_their_mark noOptions)))
              20%nat (crossing noOptions) crossingDone _ Hrun 0%nat _ H0)
    as (ev' & H1 & H2 & _ & H4).
  exists ev'. split; [exact H1|]. split; [exact H2|]. apply H4. reflexivity.
Defined.

End DriverInvariants.
(* ====================================================================== *)
(** ** The segments at an event point *)
(* ====================================================================== *)

Module ClassifyFacts.

Import Sweep Reference Spec Views Examples SweepFacts HandleFacts FrameFacts.
Local Open Scope list_scope.

Section Classify.

Context {geom : Geom} {queue : EventQueue} {status : SweepStatus} {U : Type}.
Variable options : option (ISectOptions U).

Implicit Types d : Driver (U:=U).
Abbreviation M := (Sweep.M (U:=U)).

Lemma collected_push_lower h lp accL accI s d d' :
  collected h lp accL accI d ->
  pushOnto lower set_lower s d = (d', Ok tt) ->
  collected h lp (accL ++ [s]) accI d'.
Proof.
  intros (Hp & Hs & Hlp & He & Hl & Hi & Hd) H.
  unfold pushOnto in H.
  apply bind_ok_inv in H. destruct H as (? & d0 & Hg & H).
  apply get_ok_inv in Hg. destruct Hg as [-> ->].
  destruct (lower d) as [a|] eqn:L.
  - destruct Hl as [Hne Ha].
    apply bind_ok_inv in H. destruct H as (? & v & Hv & H).
    apply getArray_ok_inv in Hv. destruct Hv as [-> Hv].
    rewrite Ha in Hv. injection Hv as <-.
    rewrite (setArray_run _ _ _ _ Ha) in H. injection H as <-.
    repeat split; cbn; try assumption.
    + rewrite list_lookup_insert_ne by congruence. exact He.
    + rewrite L. split; [exact Hne|].
      rewrite fmap_app. apply list_lookup_insert_eq. eapply lookup_lt_Some, Ha.
    + destruct (interior d) as [b|] eqn:Li; [|exact Hi].
      destruct Hi as [Hbne Hb]. split; [exact Hbne|].
      rewrite list_lookup_insert_ne; [exact Hb|].
      intros ->. exact (Hd _ eq_refl eq_refl).
    + rewrite L. exact Hd.
  - subst accL.
    apply bind_ok_inv in H. destruct H as (? & a & Ha & H).
    rewrite allocArray_run in Ha. injection Ha as <- <-.
    apply modify_ok_inv in H. subst d'.
    assert (Hlen : (0 < length (arrays (heap d)))%nat) by (eapply lookup_lt_Some, He).
    repeat split; cbn; try assumption.
    + apply lookup_snoc_old, He.
    + unfold EMPTY. lia.
    + apply lookup_snoc_new.
    + destruct (interior d) as [b|] eqn:Li; [|exact Hi].
      destruct Hi as [Hbne Hb]. split; [exact Hbne | apply lookup_snoc_old, Hb].
    + intros a [= <-]. destruct (interior d) as [b|] eqn:Li; [|discriminate].
      destruct Hi as [_ Hb]. apply lookup_lt_Some in Hb. intros [= ->]. lia.
Qed.

Lemma collected_push_interior h lp accL accI s d d' :
  collected h lp accL accI d ->
  pushOnto interior set_interior s d = (d', Ok tt) ->
  collected h lp accL (accI ++ [s]) d'.
Proof.
  intros (Hp & Hs & Hlp & He & Hl & Hi & Hd) H.
  unfold pushOnto in H.
  apply bind_ok_inv in H. destruct H as (? & d0 & Hg & H).
  apply get_ok_inv in Hg. destruct Hg as [-> ->].
  destruct (interior d) as [a|] eqn:L.
  - destruct Hi as [Hne Ha].
    apply bind_ok_inv in H. destruct H as (? & v & Hv & H).
    apply getArray_ok_inv in Hv. destruct Hv as [-> Hv].
    rewrite Ha in Hv. injection Hv as <-.
    rewrite (setArray_run _ _ _ _ Ha) in H. injection H as <-.
    repeat split; cbn; try assumption.
    + rewrite list_lookup_insert_ne by congruence. exact He.
    + destruct (lower d) as [b|] eqn:Ll; [|exact Hl].
      destruct Hl as [Hbne Hb]. split; [exact Hbne|].
      rewrite list_lookup_insert_ne; [exact Hb|].
      intros ->. exact (Hd _ eq_refl eq_refl).
    + rewrite L. split; [exact Hne|].
      rewrite fmap_app. apply list_lookup_insert_eq. eapply lookup_lt_Some, Ha.
    + rewrite L. intros b Hb. apply Hd in Hb. exact Hb.
  - subst accI.
    apply bind_ok_inv in H. destruct H as (? & a & Ha & H).
    rewrite allocArray_run in Ha. injection Ha as <- <-.
    apply modify_ok_inv in H. subst d'.
    assert (Hlen : (0 < length (arrays (heap d)))%nat) by (eapply lookup_lt_Some, He).
    repeat split; cbn; try assumption.
    + apply lookup_snoc_old, He.
    + destruct (lower d) as [b|] eqn:Ll; [|exact Hl].
      destruct Hl as [Hbne Hb]. split; [exact Hbne | apply lookup_snoc_old, Hb].
    + unfold EMPTY. lia.
    + apply lookup_snoc_new.
    + intros b Hb. destruct (lower d) as [b'|] eqn:Ll; [|discriminate].
      injection Hb as ->. destruct Hl as [_ Hb]. apply lookup_lt_Some in Hb.
      intros [= E]. lia.
Qed.

Lemma collected_step h lp q accL accI s d d' :
  points h !! lp = Some q ->
  collected h lp accL accI d ->
  addLowerOrInterior s d = (d', Ok tt) ->
  collected h lp (accL ++ List.filter (endsAt h q) [s])
                 (accI ++ List.filter (passesAt h q) [s]) d'.
Proof.
  intros Hq (Hp & Hs & Hlp & He & Hl & Hi & Hd) H.
  unfold addLowerOrInterior in H.
  apply bind_ok_inv in H. destruct H as (? & sg & Hsg & H).
  apply getSegment_ok_inv in Hsg. destruct Hsg as [-> Hsg].
  apply bind_ok_inv in H. destruct H as (? & d0 & Hg & H).
  apply get_ok_inv in Hg. destruct Hg as [-> ->].
  apply bind_ok_inv in H. destruct H as (? & lp' & Hlp' & H).
  apply deref_ok_inv in Hlp'. destruct Hlp' as [-> Hlp']. rewrite Hlp in Hlp'.
  injection Hlp' as <-.
  apply bind_ok_inv in H. destruct H as (? & pto & Hpto & H).
  apply getPoint_ok_inv in Hpto. destruct Hpto as [-> Hpto].
  apply bind_ok_inv in H. destruct H as (? & plast & Hplast & H).
  apply getPoint_ok_inv in Hplast. destruct Hplast as [-> Hplast].
  rewrite Hp in Hpto, Hplast. rewrite Hs in Hsg. rewrite Hq in Hplast.
  injection Hplast as <-.
  assert (Eends : endsAt h q s = samePoint pto q).
  { unfold endsAt. rewrite Hsg, Hpto. reflexivity. }
  cbn [List.filter]. unfold passesAt. rewrite Eends.
  destruct (samePoint pto q).
  - cbn [negb andb]. rewrite (app_nil_r accI).
    eapply collected_push_lower; [|exact H]. repeat split; assumption.
  - cbn [negb andb].
    apply bind_ok_inv in H. destruct H as (? & pfrom & Hpfrom & H).
    apply getPoint_ok_inv in Hpfrom. destruct Hpfrom as [-> Hpfrom].
    rewrite Hp in Hpfrom.
    assert (Estarts : startsAt h q s = samePoint pfrom q).
    { unfold startsAt. rewrite Hsg, Hpfrom. reflexivity. }
    rewrite Estarts, (app_nil_r accL).
    destruct (samePoint pfrom q); cbn [negb] in *.
    + apply ret_ok_inv in H. destruct H as [-> _]. rewrite app_nil_r.
      repeat split; assumption.
    + eapply collected_push_interior; [|exact H]. repeat split; assumption.
Qed.

Lemma collected_loop h lp q segs : forall accL accI d d',
  points h !! lp = Some q ->
  collected h lp accL accI d ->
  forEach addLowerOrInterior segs d = (d', Ok tt) ->
  collected h lp (accL ++ List.filter (endsAt h q) segs)
                 (accI ++ List.filter (passesAt h q) segs) d'.
Proof.
  induction segs as [|s segs IH]; intros accL accI d d' Hq Hc H.
  - apply ret_ok_inv in H. destruct H as [-> _]. cbn. rewrite !app_nil_r. exact Hc.
  - cbn [forEach] in H. apply bind_ok_inv in H. destruct H as (d1 & [] & H1 & H).
    pose proof (collected_step h lp q accL accI s d d1 Hq Hc H1) as Hc1.
    pose proof (IH _ _ _ _ Hq Hc1 H) as Hc2.
    change (s :: segs) with ([s] ++ segs). rewrite !List.filter_app, !app_assoc.
    exact Hc2.
Qed.

Lemma runStatus_value {A} (o : Outcome SS A) d d' a :
  runStatus options o d = (d', Ok a) -> a = visited o.
Proof.
  revert d. induction o as [s v|msg s k IH]; intros d H; cbn [runStatus visited] in *.
  - ok_inv. reflexivity.
  - apply bind_ok_inv in H. destruct H as (d1 & [] & _ & H).
    apply bind_ok_inv in H. destruct H as (d2 & [] & _ & H).
    eapply IH, H.
Qed.

Lemma runStatus_keeps_collecting {A} (o : Outcome SS A) :
  keeps (fun d => (heap d, lower d, interior d, lastPoint d)) (runStatus options o).
Proof. keeps_auto. Qed.

(** X22.  When [handleEventPoint] has collected the segments at the point of the
    event, [lower] holds the segments the status has visited whose [to] is
    the point within the tolerance, in the order of the visit, and
    [interior] holds those of which neither endpoint is the point; a visited
    segment that only starts at the point is in neither.  A list that would be
    empty is the array [EMPTY]. *)
Theorem segments_at_the_point_are_sorted p d d1 c ev q :
  classify options p d = (d1, Ok c) ->
  events (heap d) !! p = Some ev ->
  points (heap d) !! point ev = Some q ->
  arrays (heap d) !! EMPTY = Some [] ->
  let segs := visited (findSegmentsWithPoint (heap d) (point ev) (sweepStatus d)) in
  arrays (heap d1) !! c_lower c
  = Some (SegRef <$> List.filter (endsAt (heap d) q) segs)
  /\ arrays (heap d1) !! c_interior c
     = Some (SegRef <$> List.filter (passesAt (heap d) q) segs)
  /\ lLength c = length (List.filter (endsAt (heap d) q) segs)
  /\ iLength c = length (List.filter (passesAt (heap d) q) segs).
Proof.
  intros Hc Hev Hq He segs.
  unfold classify in Hc.
  apply bind_ok_inv in Hc. destruct Hc as (? & ev' & Hev' & Hc).
  apply getEvent_ok_inv in Hev'. destruct Hev' as [-> Hev'].
  rewrite Hev in Hev'. injection Hev' as <-.
  do 3 (apply bind_ok_inv in Hc; destruct Hc as (? & [] & Hm & Hc);
        apply modify_ok_inv in Hm; subst).
  apply bind_ok_inv in Hc. destruct Hc as (dS & segs' & Hst & Hc).
  unfold sweepStatus_findSegmentsWithPoint in Hst.
  apply bind_ok_inv in Hst. destruct Hst as (? & [] & Hlog & Hst).
  rewrite log_run in Hlog. injection Hlog as <-.
  apply bind_ok_inv in Hst. destruct Hst as (? & d0 & Hg & Hst).
  apply get_ok_inv in Hg. destruct Hg as [-> ->].
  pose proof (runStatus_value _ _ _ _ Hst) as Hsegs.
  pose proof (runStatus_keeps_collecting
                (findSegmentsWithPoint
                   (heap (set_calls (fun l => l ++ [CallFindSegmentsWithPoint (point ev)])
                            (set_interior None
                               (set_lower None (set_lastPoint (Some (point ev)) d)))))
                   (point ev)
                   (sweepStatus (set_calls (fun l => l ++ [CallFindSegmentsWithPoint (point ev)])
                            (set_interior None
                               (set_lower None (set_lastPoint (Some (point ev)) d))))))
                (set_calls (fun l => l ++ [CallFindSegmentsWithPoint (point ev)])
                            (set_interior None
                               (set_lower None (set_lastPoint (Some (point ev)) d))))) as K.
  rewrite Hst in K. cbn in K. injection K as Kh Kl Ki Kp.
  cbn in Hsegs. fold segs in Hsegs. subst segs'.
  assert (H0 : collected (heap d) (point ev) [] [] dS).
  { unfold collected. rewrite Kh, Kl, Ki, Kp. repeat split; try assumption.
    intros a. discriminate. }
  apply bind_ok_inv in Hc. destruct Hc as (dL & [] & Hloop & Hc).
  pose proof (collected_loop _ _ _ _ _ _ _ _ Hq H0 Hloop) as HL. cbn [app] in HL.
  destruct HL as (_ & _ & _ & HeL & HlL & HiL & _).
  clear Hloop Hst H0 Kh Kl Ki Kp.
  apply bind_ok_inv in Hc. destruct Hc as (? & dG & Hg & Hc).
  apply get_ok_inv in Hg. destruct Hg as [-> ->].
  assert (Hfin : exists lo it,
             lower d1 = Some lo /\ interior d1 = Some it
             /\ heap d1 = heap dL
             /\ c_lower c = lo /\ c_interior c = it
             /\ (exists vl, arrays (heap dL) !! lo = Some vl /\ lLength c = length vl)
             /\ (exists vi, arrays (heap dL) !! it = Some vi /\ iLength c = length vi)
             /\ lo = default EMPTY (lower dL) /\ it = default EMPTY (interior dL)).
  { destruct (lower dL) as [a|] eqn:Ll; destruct (interior dL) as [b|] eqn:Li;
      ok_inv; cbn in *;
      repeat match goal with
             | E : Some _ = Some _ |- _ => injection E as <-
             end;
      eexists _, _; repeat split; eauto; congruence. }
  destruct Hfin as (lo & it & _ & _ & Hh & -> & -> & (vl & Hvl & ->) & (vi & Hvi & ->)
                    & Hlo & Hit).
  rewrite Hh.
  assert (El : arrays (heap dL) !! lo
               = Some (SegRef <$> List.filter (endsAt (heap d) q) segs)).
  { subst lo. destruct (lower dL) as [a|]; cbn [default].
    - apply HlL.
    - rewrite HlL. exact HeL. }
  assert (Ei : arrays (heap dL) !! it
               = Some (SegRef <$> List.filter (passesAt (heap d) q) segs)).
  { subst it. destruct (interior dL) as [a|]; cbn [default].
    - apply HiL.
    - rewrite HiL. exact HeL. }
  rewrite El in Hvl. rewrite Ei in Hvi. injection Hvl as <-. injection Hvi as <-.
  rewrite !length_fmap. repeat split; assumption.
Qed.

End Classify.

(** The crossing of A and B: both pass through (5,5). *)
Lemma segments_at_the_point_are_sorted_witness :
  classify noOptions 6 (atCrossing noOptions)
  = (fst (classify noOptions 6 (atCrossing noOptions)), Ok crossingClassified)
  /\ visited (findSegmentsWithPoint (heap (atCrossing noOptions)) 6
                (sweepStatus (atCrossing noOptions))) = [0; 1]%nat
  /\ arrays (heap (fst (classify noOptions 6 (atCrossing noOptions)))) !! 0%nat = Some []
  /\ arrays (heap (fst (classify noOptions 6 (atCrossing noOptions)))) !! 4%nat
     = Some [SegRef 0; SegRef 1].
Proof.
  assert (Hc : classify noOptions 6 (atCrossing noOptions)
               = (fst (classify noOptions 6 (atCrossing noOptions)),
                  Ok crossingClassified))
    by (apply run_by_value; vm_compute; reflexivity).
  split; [exact Hc|]. split; [vm_compute; reflexivity|].
  destruct (segments_at_the_point_are_sorted noOptions 6 (atCrossing noOptions)
              (fst (classify noOptions 6 (atCrossing noOptions))) crossingClassified
              (mkSweepEvent 6 None false) (mkPoint 5 5) Hc
              ltac:(vm_compute; reflexivity) ltac:(vm_compute; reflexivity)
              ltac:(vm_compute; reflexivity))
    as (H1 & H2 & _).
  split.
  - etransitivity; [exact H1|]. vm_compute. reflexivity.
  - etransitivity; [exact H2|]. vm_compute. reflexivity.
Defined.

End ClassifyFacts.
(* ====================================================================== *)
(** ** The work of one event and of one segment *)
(* ====================================================================== *)

Module WorkFacts.

Import Sweep Reference Spec Views Examples SweepFacts FrameFacts RegisterFacts.
Local Open Scope list_scope.

Lemma probeCalls_app l1 l2 : probeCalls (l1 ++ l2) = probeCalls l1 ++ probeCalls l2.
Proof. apply omap_app. Qed.

(** Side conditions for the two counts. *)
Ltac count_side :=
  intros; unfold insertCount, probeCount; cbn;
  first [ reflexivity
        | rewrite ?insertCalls_app, ?probeCalls_app; cbn; rewrite !app_nil_r; reflexivity ].

Ltac count_auto := keeps_with count_side.

Section Work.

Context {geom : Geom} {queue : EventQueue} {status : SweepStatus} {U : Type}.
Variable options : option (ISectOptions U).

Implicit Types d : Driver (U:=U).
Abbreviation M := (Sweep.M (U:=U)).

Variable cnt : Driver (U:=U) -> nat.

Lemma rises_keeps {A} k (m : M A) : keeps cnt m -> rises cnt k m.
Proof. intros K d. rewrite (K d). lia. Qed.

Lemma rises_weaken {A} j k (m : M A) : (j <= k)%nat -> rises cnt j m -> rises cnt k m.
Proof. intros Hjk H d. specialize (H d). lia. Qed.

Lemma rises_bind {A B} j k (m : M A) (f : A -> M B) :
  rises cnt j m -> (forall a, rises cnt k (f a)) -> rises cnt (j + k) (m ≫= f).
Proof.
  intros Hm Hf d. rewrite bind_run. specialize (Hm d).
  destruct (m d) as [d' [a|e]]; cbn [fst] in *; [|lia].
  specialize (Hf a d'). lia.
Qed.

Lemma rises_forEach {A} k (f : A -> M unit) (l : list A) :
  (forall a, rises cnt k (f a)) -> rises cnt (length l * k) (forEach f l).
Proof.
  intros Hf. induction l as [|a l IH]; cbn [forEach length Nat.mul].
  - intros d. cbn. lia.
  - apply rises_bind; [apply Hf | intros _; exact IH].
Qed.

End Work.

Section Counts.

Context {geom : Geom} {queue : EventQueue} {status : SweepStatus} {U : Type}.
Variable options : option (ISectOptions U).

Implicit Types d : Driver (U:=U).
Abbreviation M := (Sweep.M (U:=U)).

Lemma eventQueue_insert_rises e : rises insertCount 1 (eventQueue_insert (U:=U) e).
Proof.
  intros d. unfold insertCount. rewrite eventQueue_insert_run.
  cbn [fst calls set_eventQueue set_calls].
  rewrite insertCalls_app, length_app. cbn. lia.
Qed.

Lemma findNewEvent_inserts l r p : rises insertCount 1 (findNewEvent options l r p).
Proof.
  unfold findNewEvent.
  destruct l as [l|]; [|apply rises_keeps; count_auto].
  destruct r as [r|]; [|apply rises_keeps; count_auto].
  apply (rises_bind insertCount 0 1); [apply rises_keeps; count_auto | intros _].
  apply (rises_bind insertCount 0 1); [apply rises_keeps; count_auto | intros d0].
  destruct (intersectSegments (heap d0) l r) as [v|]; [|apply rises_keeps; count_auto].
  do 4 (apply (rises_bind insertCount 0 1); [apply rises_keeps; count_auto | intros ?]).
  cbv zeta.
  destruct (_ <? _)%Q; [apply rises_keeps; count_auto|].
  destruct (_ && _); [apply rises_keeps; count_auto|].
  do 2 (apply (rises_bind insertCount 0 1); [apply rises_keeps; count_auto | intros ?]).
  match goal with
  | |- rises _ _ (match ?x with _ => _ end) => destruct x
  end; [apply rises_keeps; count_auto|].
  apply (rises_bind insertCount 0 1); [apply rises_keeps; count_auto | intros ?].
  apply eventQueue_insert_rises.
Qed.

Lemma findNewEvent_probes l r p : rises probeCount 1 (findNewEvent options l r p).
Proof.
  unfold findNewEvent.
  destruct l as [l|]; [|apply rises_keeps; count_auto].
  destruct r as [r|]; [|apply rises_keeps; count_auto].
  apply (rises_bind probeCount 1 0).
  - intros d. unfold probeCount. rewrite log_run. cbn [fst calls set_calls].
    rewrite probeCalls_app, length_app. cbn. lia.
  - intros _. apply rises_keeps. count_auto.
Qed.

Lemma updateAndProbe_rises cnt p c :
  (forall l r, rises cnt 1 (findNewEvent options l r p)) ->
  (forall {A} (m : M A), keeps (fun d => (insertCount d, probeCount d)) m -> keeps cnt m) ->
  rises cnt (if (uLength c + iLength c =? 0)%nat then 1 else 2)
        (updateAndProbe options p c).
Proof.
  intros Hf Hk. unfold updateAndProbe.
  apply (rises_bind cnt 0 _); [apply rises_keeps, Hk; count_auto | intros _].
  apply (rises_bind cnt 0 _); [apply rises_keeps, Hk; count_auto | intros _].
  cbv zeta. destruct (uLength c + iLength c =? 0)%nat.
  - apply (rises_bind cnt 0 1); [apply rises_keeps, Hk; count_auto | intros lr].
    destruct (left lr) as [sl|]; [|apply rises_keeps, Hk; count_auto].
    destruct (right lr) as [sr|]; [|apply rises_keeps, Hk; count_auto].
    apply (rises_bind cnt 1 0); [apply Hf | intros _; apply rises_keeps, Hk; count_auto].
  - apply (rises_bind cnt 0 2); [apply rises_keeps, Hk; count_auto | intros b].
    apply (rises_bind cnt 1 1); [apply Hf | intros _].
    apply (rises_bind cnt 1 0); [apply Hf | intros _; apply rises_keeps, Hk; count_auto].
Qed.

Lemma pair_keeps_insertCount {A} (m : M A) :
  keeps (fun d => (insertCount d, probeCount d)) m -> keeps insertCount m.
Proof. intros K d. specialize (K d). cbn beta in K. congruence. Qed.

Lemma pair_keeps_probeCount {A} (m : M A) :
  keeps (fun d => (insertCount d, probeCount d)) m -> keeps probeCount m.
Proof. intros K d. specialize (K d). cbn beta in K. congruence. Qed.

Lemma classify_keeps_counts p :
  keeps (fun d => (insertCount d, probeCount d)) (classify options p).
Proof. count_auto. Qed.

Lemma report_keeps_counts p c :
  keeps (fun d => (insertCount d, probeCount d)) (report options p c).
Proof. count_auto. Qed.

Lemma handleEventPoint_rises cnt p :
  (forall l r, rises cnt 1 (findNewEvent options l r p)) ->
  (forall {A} (m : M A), keeps (fun d => (insertCount d, probeCount d)) m -> keeps cnt m) ->
  rises cnt 2 (handleEventPoint options p).
Proof.
  intros Hf Hk. unfold handleEventPoint.
  apply (rises_bind cnt 0 2); [apply rises_keeps, Hk, classify_keeps_counts | intros c].
  apply (rises_bind cnt 0 2); [apply rises_keeps, Hk, report_keeps_counts | intros stop].
  destruct stop; [apply rises_keeps, Hk; count_auto|].
  eapply rises_weaken; [|apply updateAndProbe_rises; assumption].
  destruct (_ =? _)%nat; lia.
Qed.

Lemma reportIdentical_keeps_counts v to_ :
  keeps (fun d => (insertCount d, probeCount d)) (reportIdentical options v to_).
Proof.
  induction v as [|[s|p] v IH]; cbn [reportIdentical].
  - count_auto.
  - pose proof IH. count_auto.
  - count_auto.
Qed.

Lemma newEvent_rises pt seg :
  rises insertCount 1 (event ← newSweepEvent (U:=U) pt seg; eventQueue_insert event).
Proof.
  apply (rises_bind insertCount 0 1);
    [apply rises_keeps, pair_keeps_insertCount; count_auto | intros e].
  apply eventQueue_insert_rises.
Qed.

Lemma addSegment_inserts s : rises insertCount 2 (addSegment options s).
Proof.
  pose proof reportIdentical_keeps_counts as Kri.
  unfold addSegment.
  apply (rises_bind insertCount 0 2);
    [apply rises_keeps, pair_keeps_insertCount; count_auto | intros k].
  unfold register.
  apply (rises_bind insertCount 0 2);
    [apply rises_keeps, pair_keeps_insertCount; count_auto | intros prev].
  apply (rises_bind insertCount 0 2);
    [apply rises_keeps, pair_keeps_insertCount; count_auto | intros found].
  destruct found; [apply rises_keeps, pair_keeps_insertCount; count_auto|].
  destruct (negb (isPoint k)).
  - apply (rises_bind insertCount 1 1); [|intros _; apply newEvent_rises].
    destruct prev as [n|]; [|apply newEvent_rises].
    apply rises_keeps, pair_keeps_insertCount. count_auto.
  - eapply rises_weaken; [|apply newEvent_rises]. lia.
Qed.

Lemma addSegment_keeps_probes s : keeps probeCount (addSegment options s).
Proof.
  pose proof (fun v t => pair_keeps_probeCount _ (reportIdentical_keeps_counts v t)) as Kri.
  count_auto.
Qed.

(** X23.  Handling one event inserts at most two events into the schedule and
    makes at most two probes, and at most one of each when no segment starts at
    or passes through the point; adding one segment inserts at most two events
    and makes no probe, so that [isect] leaves at most two insertions for each
    segment.  This holds whether the function returns or throws. *)
Theorem one_event_schedules_at_most_two_events :
  (forall p d,
      (insertCount (fst (handleEventPoint options p d)) <= insertCount d + 2)%nat
      /\ (probeCount (fst (handleEventPoint options p d)) <= probeCount d + 2)%nat)
  /\ (forall p d d1 c,
        classify options p d = (d1, Ok c) ->
        (uLength c + iLength c = 0)%nat ->
        (insertCount (fst (handleEventPoint options p d)) <= insertCount d + 1)%nat
        /\ (probeCount (fst (handleEventPoint options p d)) <= probeCount d + 1)%nat)
  /\ (forall s d,
        (insertCount (fst (addSegment options s d)) <= insertCount d + 2)%nat
        /\ probeCount (fst (addSegment options s d)) = probeCount d)
  /\ (forall h segments_ u,
        (insertCount (fst (isect options h segments_ u)) <= 2 * length segments_)%nat
        /\ probeCount (fst (isect options h segments_ u)) = 0%nat).
Proof.
  split; [|split; [|split]].
  - intros p d. split.
    + apply (handleEventPoint_rises insertCount p (fun l r => findNewEvent_inserts l r p)
               (@pair_keeps_insertCount)).
    + apply (handleEventPoint_rises probeCount p (fun l r => findNewEvent_probes l r p)
               (@pair_keeps_probeCount)).
  - intros p d d1 c Hc Hz.
    pose proof (classify_keeps_counts p d) as Kc. rewrite Hc in Kc. cbn [fst] in Kc.
    injection Kc as Kci Kcp.
    rewrite (HandleFacts.handleEventPoint_run _ _ _ _ _ Hc).
    pose proof (report_keeps_counts p c d1) as Kr.
    destruct (report options p c d1) as [d2 [[|]|e]]; cbn [fst] in Kr;
      injection Kr as Kri Krp; cbn [fst]; try (split; lia).
    apply Nat.eqb_eq in Hz.
    pose proof (updateAndProbe_rises insertCount p c
                  (fun l r => findNewEvent_inserts l r p) (@pair_keeps_insertCount) d2) as Bi.
    pose proof (updateAndProbe_rises probeCount p c
                  (fun l r => findNewEvent_probes l r p) (@pair_keeps_probeCount) d2) as Bp.
    rewrite Hz in Bi, Bp. split; lia.
  - intros s d. split; [apply addSegment_inserts | apply addSegment_keeps_probes].
  - intros h segs u. unfold isect. split.
    + pose proof (rises_forEach insertCount 2 (addSegment options) segs
                    addSegment_inserts (newDriver h u)) as B.
      unfold insertCount at 2 in B. cbn in B. lia.
    + apply (keeps_forEach probeCount (addSegment options) segs
               addSegment_keeps_probes (newDriver h u)).
Qed.

End Counts.

(** The upper endpoint of C, which makes one probe and schedules one
    event, and the lower endpoint of C, where no segment starts or passes
    through. *)
Lemma one_event_schedules_at_most_two_events_witness :
  (insertCount (fst (handleEventPoint noOptions 4 (popped 3))) <= insertCount (popped 3) + 2)%nat
  /\ insertCount (fst (handleEventPoint noOptions 4 (popped 3))) = 8%nat
  /\ insertCount (popped 3) = 7%nat
  /\ classify noOptions 5 (popped 6)
     = (fst (classify noOptions 5 (popped 6)), Ok (mkClassified 5 0 0 13 0 0 1))
  /\ (probeCount (fst (handleEventPoint noOptions 5 (popped 6)))
      <= probeCount (popped 6) + 1)%nat.
Proof.
  pose proof (one_event_schedules_at_most_two_events noOptions) as (H1 & H2 & _).
  assert (Hc : classify noOptions 5 (popped 6)
               = (fst (classify noOptions 5 (popped 6)), Ok (mkClassified 5 0 0 13 0 0 1)))
    by (apply run_by_value; vm_compute; reflexivity).
  split; [exact (proj1 (H1 4%nat (popped 3)))|].
  split; [vm_compute; reflexivity|]. split; [vm_compute; reflexivity|].
  split; [exact Hc|].
  exact (proj2 (H2 5%nat (popped 6) _ _ Hc eq_refl)).
Defined.

End WorkFacts.
